(** * AdrianGameEngine: scene graph, geometry, scenes and animation scripts

    A shallow embedding of the engine core
    (Engine_Structure.h, Engine_Math.h, Engine_GameObject.h,
    Engine_Animation.h, and the parts of Engine_Renderer.h and Engine.h
    that draw and dispatch input to the objects of the current scene) and
    the properties checked against it.

    Conventions of the embedding:
    - a C++ [int] is a [Z] with the 32-bit two's complement wrap-around
      written out in every arithmetic operation (module [Int]);
    - a pointer to a live object is an address ([ptr]); a nullable pointer
      is an [option ptr], [None] being [nullptr];
    - the objects live in a store ([heap]) and every method takes the
      store and returns the updated one; a method that dereferences a null
      or dangling pointer, or indexes a vector out of bounds, has no
      defined result and returns [None];
    - a [std::unordered_set<T*>] is the duplicate-free list of its elements
      in iteration order; where a new element lands in that order is the
      choice of the standard library ([UnorderedSetImpl]);
    - virtual hooks and event callers have the (empty) bodies of the base
      classes; a traversal returns the list of hook invocations it makes,
      in order, with the arguments each one receives;
    - a C++ [double] holding a time is an exact rational ([Qc]): rounding is
      outside the model. *)

From Stdlib Require Import ZArith QArith Qcanon Lia Lqa Sorted.
From stdpp Require Import base decidable option numbers list strings gmap fin_maps.

#[local] Open Scope Z_scope.

(** ** Machine integers (C++ [int], 32 bits) *)

Module Int.
Definition modulus : Z := 2 ^ 32.
Definition half_modulus : Z := 2 ^ 31.

(** The value of an integer expression after it is stored in an [int]. *)
Definition wrap (z : Z) : Z := (z + half_modulus) mod modulus - half_modulus.

Definition add (a b : Z) : Z := wrap (a + b).
Definition sub (a b : Z) : Z := wrap (a - b).
Definition neg (a : Z) : Z := wrap (- a).
(** [abs] of <cstdlib>. *)
Definition abs (a : Z) : Z := if a <? 0 then neg a else a.
(** C++ [/]: the quotient is truncated towards zero. *)
Definition div (a b : Z) : Z := wrap (Z.quot a b).

Definition in_range (z : Z) : Prop := - half_modulus <= z < half_modulus.
End Int.

(** ** Engine_Structure.h *)

(** [enum class RectangleAlignment] of Engine_Enum.h. *)
Module RectangleAlignment.
Inductive t :=
  | TopLeft | TopCenter | TopRight
  | MiddleLeft | MiddleCenter | MiddleRight
  | BottomLeft | BottomCenter | BottomRight.
End RectangleAlignment.

Module Point.
Record t := mk { X : Z; Y : Z }.

Definition Zero : t := mk 0 0.

(** [Point::operator-=] (the value [*this] holds afterwards). *)
Definition sub_assign (p q : t) : t := mk (Int.sub (X p) (X q)) (Int.sub (Y p) (Y q)).
End Point.

Module Size.
Record t := mk { Width : Z; Height : Z }.

Definition Zero : t := mk 0 0.
End Size.

Module Rectangle.
Record t := mk { X : Z; Y : Z; Width : Z; Height : Z }.

(** [Rectangle(const Point& p, const Size& s)]. *)
Definition of_point_size (p : Point.t) (s : Size.t) : t :=
  mk (Point.X p) (Point.Y p) (Size.Width s) (Size.Height s).

Definition LeftSide (r : t) : Z :=
  if Width r <? 0 then Int.add (Int.add (X r) (Width r)) 1 else X r.
Definition RightSide (r : t) : Z :=
  if Width r >? 0 then Int.sub (Int.add (X r) (Width r)) 1 else X r.
Definition TopSide (r : t) : Z :=
  if Height r <? 0 then Int.add (Int.add (Y r) (Height r)) 1 else Y r.
Definition BottomSide (r : t) : Z :=
  if Height r >? 0 then Int.sub (Int.add (Y r) (Height r)) 1 else Y r.

Definition TopLeft (r : t) : Point.t := Point.mk (LeftSide r) (TopSide r).

(** [bool IsContain(const Point& p) const]. *)
Definition IsContain (r : t) (p : Point.t) : bool :=
  (Point.X p >=? LeftSide r) && (Point.X p <=? RightSide r)
  && (Point.Y p >=? TopSide r) && (Point.Y p <=? BottomSide r).

(** The offsets the alignment cases add: the whole or the half of the
    difference of the absolute dimensions. *)
Definition full_gap (outer inner : Z) : Z := Int.sub (Int.abs outer) (Int.abs inner).
Definition half_gap (outer inner : Z) : Z := Int.div (full_gap outer inner) 2.

(** [Rectangle LocalToGlobal(const Rectangle& LocalRectangle,
    RectangleAlignment Alignment) const], one case per [switch] label;
    [TopLeft] is the [default] label. *)
Definition LocalToGlobal (this LocalRectangle : t) (Alignment : RectangleAlignment.t) : t :=
  let x0 := Int.add (LeftSide this) (LeftSide LocalRectangle) in
  let y0 := Int.add (TopSide this) (TopSide LocalRectangle) in
  let w := Int.abs (Width LocalRectangle) in
  let h := Int.abs (Height LocalRectangle) in
  let hx := half_gap (Width this) (Width LocalRectangle) in
  let fx := full_gap (Width this) (Width LocalRectangle) in
  let hy := half_gap (Height this) (Height LocalRectangle) in
  let fy := full_gap (Height this) (Height LocalRectangle) in
  match Alignment with
  | RectangleAlignment.TopCenter => mk (Int.add x0 hx) y0 w h
  | RectangleAlignment.TopRight => mk (Int.add x0 fx) y0 w h
  | RectangleAlignment.MiddleLeft => mk x0 (Int.add y0 hy) w h
  | RectangleAlignment.MiddleCenter => mk (Int.add x0 hx) (Int.add y0 hy) w h
  | RectangleAlignment.MiddleRight => mk (Int.add x0 fx) (Int.add y0 hy) w h
  | RectangleAlignment.BottomLeft => mk x0 (Int.add y0 fy) w h
  | RectangleAlignment.BottomCenter => mk (Int.add x0 hx) (Int.add y0 fy) w h
  | RectangleAlignment.BottomRight => mk (Int.add x0 fx) (Int.add y0 fy) w h
  | RectangleAlignment.TopLeft => mk x0 y0 w h
  end.

(** [static const Rectangle Empty]. *)
Definition Empty : t := mk 0 0 0 0.

Definition IsEmptyArea (r : t) : bool := (Width r =? 0) || (Height r =? 0).
Definition GetPosition (r : t) : Point.t := Point.mk (X r) (Y r).
Definition BottomRight (r : t) : Point.t := Point.mk (RightSide r) (BottomSide r).

(** [Point LocalToGlobal(const Point& LocalPosition) const]. *)
Definition LocalToGlobal_point (r : t) (LocalPosition : Point.t) : Point.t :=
  Point.mk (Int.add (Point.X LocalPosition) (LeftSide r))
           (Int.add (Point.Y LocalPosition) (TopSide r)).

(** [Point GlobalToLocal(const Point& GlobalPosition) const]. *)
Definition GlobalToLocal (r : t) (GlobalPosition : Point.t) : Point.t :=
  Point.mk (Int.sub (Point.X GlobalPosition) (LeftSide r))
           (Int.sub (Point.Y GlobalPosition) (TopSide r)).

(** [ENGINE_MIN(a, b)] and [ENGINE_MAX(a, b)] of Engine_Define.h. *)
Definition ENGINE_MIN (a b : Z) : Z := if b <? a then b else a.
Definition ENGINE_MAX (a b : Z) : Z := if b >? a then b else a.

(** [bool IsContain(const Rectangle& r) const]. *)
Definition IsContain_rect (this r : t) : bool :=
  let left := LeftSide this in
  let right := RightSide this in
  let top := TopSide this in
  let bottom := BottomSide this in
  let tl := TopLeft r in
  let br := BottomRight r in
  (Point.X tl >=? left) && (Point.X tl <=? right)
  && (Point.Y tl >=? top) && (Point.Y tl <=? bottom)
  && (Point.X br >=? left) && (Point.X br <=? right)
  && (Point.Y br >=? top) && (Point.Y br <=? bottom).
(** [static Rectangle FromTwoPoint(const Point& a, const Point& b)]. *)
Definition FromTwoPoint (a b : Point.t) : t :=
  mk (ENGINE_MIN (Point.X a) (Point.X b)) (ENGINE_MIN (Point.Y a) (Point.Y b))
     (Int.add (Int.abs (Int.sub (Point.X b) (Point.X a))) 1)
     (Int.add (Int.abs (Int.sub (Point.Y b) (Point.Y a))) 1).

(** [static Rectangle Intersect(const Rectangle& r1, const Rectangle& r2)]. *)
Definition Intersect (r1 r2 : t) : t :=
  if IsEmptyArea r1 || IsEmptyArea r2 then Empty
  else
    let tl1 := TopLeft r1 in
    let tl2 := TopLeft r2 in
    let br1 := BottomRight r1 in
    let br2 := BottomRight r2 in
    let left := ENGINE_MAX (Point.X tl1) (Point.X tl2) in
    let top := ENGINE_MAX (Point.Y tl1) (Point.Y tl2) in
    let right := ENGINE_MIN (Point.X br1) (Point.X br2) in
    let bottom := ENGINE_MIN (Point.Y br1) (Point.Y br2) in
    if (right <? left) || (bottom <? top) then Empty
    else mk left top (Int.add (Int.sub right left) 1) (Int.add (Int.sub bottom top) 1).

(** [static Rectangle Union(const Rectangle& r, const Point& p)]. *)
Definition Union_point (r : t) (p : Point.t) : t :=
  if IsEmptyArea r then FromTwoPoint (GetPosition r) p
  else
    let left := LeftSide r in
    let top := TopSide r in
    let right := RightSide r in
    let bottom := BottomSide r in
    let x := ENGINE_MIN left (Point.X p) in
    let y := ENGINE_MIN top (Point.Y p) in
    mk x y (Int.add (Int.sub (ENGINE_MAX right (Point.X p)) x) 1)
           (Int.add (Int.sub (ENGINE_MAX bottom (Point.Y p)) y) 1).

(** [static Rectangle Union(const Rectangle& r1, const Rectangle& r2)]. *)
Definition Union (r1 r2 : t) : t :=
  if IsEmptyArea r1 then Union_point r2 (GetPosition r1)
  else if IsEmptyArea r2 then Union_point r1 (GetPosition r2)
  else
    let x := ENGINE_MIN (LeftSide r1) (LeftSide r2) in
    let y := ENGINE_MIN (TopSide r1) (TopSide r2) in
    mk x y (Int.add (Int.sub (ENGINE_MAX (RightSide r1) (RightSide r2)) x) 1)
           (Int.add (Int.sub (ENGINE_MAX (BottomSide r1) (BottomSide r2)) y) 1).

(** Coordinates and dimensions far from the limits of an [int], so that no
    sum or difference the methods form overflows. *)
Definition small (z : Z) : Prop := - 2 ^ 28 <= z <= 2 ^ 28.
Definition small_rect (r : t) : Prop :=
  small (X r) /\ small (Y r) /\ small (Width r) /\ small (Height r).
Definition small_point (p : Point.t) : Prop := small (Point.X p) /\ small (Point.Y p).
End Rectangle.

(** ** std::unordered_set of pointers *)

(** Addresses of live objects. *)
Definition ptr := positive.
Bind Scope positive_scope with ptr.

(** What the C++ standard leaves to the implementation of
    [std::unordered_set]: the place a new element takes in the iteration
    order (it depends on the hash of the pointer and on the buckets, and a
    rehash may move the elements already there). The elements after the
    insertion are the old ones and the new one. *)
Class UnorderedSetImpl := {
  bucket_insert : ptr -> list ptr -> list ptr;
  bucket_insert_perm : forall x l, bucket_insert x l ≡ₚ x :: l
}.

(** An implementation that links a new element in front of the others, as
    libstdc++ does for an element whose bucket is still empty. *)
Definition front_impl : UnorderedSetImpl :=
  {| bucket_insert := cons;
     bucket_insert_perm := fun x l => reflexivity (x :: l) |}.

(** An implementation that iterates in insertion order. *)
Definition back_impl : UnorderedSetImpl :=
  {| bucket_insert := fun x l => l ++ [x];
     bucket_insert_perm := fun x l => Permutation_sym (Permutation_cons_append l x) |}.

Module uset.
(** [insert]: no effect when the element is already there. *)
Definition insert `{UnorderedSetImpl} (x : ptr) (l : list ptr) : list ptr :=
  if decide (x ∈ l) then l else bucket_insert x l.
(** [erase(key)]: the other elements keep their relative order. *)
Definition erase (x : ptr) (l : list ptr) : list ptr :=
  filter (fun y => y <> x) l.
(** [count(key) != 0]. *)
Definition contains (x : ptr) (l : list ptr) : bool := bool_decide (x ∈ l).
End uset.

(** ** Engine_GameObject.h: GameObject *)

Module GameObject.
(** The members the modelled methods read or write. [__scripts] is the
    [std::unordered_map<size_t, GameScript*>] in iteration order: the
    hash code of the script type and the (nullable) script. *)
Record t := mk {
  __parent : option ptr;
  __childs : list ptr;
  __scripts : list (N * option ptr);
  Enabled : bool;
  HandleInput : bool;
  Position : Point.t;
  Size : Size.t;
  Alignment : RectangleAlignment.t
}.

(** The member initialisers of the class. *)
Definition default : t :=
  mk None [] [] true true Point.Zero Size.Zero RectangleAlignment.TopLeft.

Definition with_parent (p : option ptr) (o : t) : t :=
  mk p (__childs o) (__scripts o) (Enabled o) (HandleInput o)
     (Position o) (Size o) (Alignment o).
Definition with_childs (c : list ptr) (o : t) : t :=
  mk (__parent o) c (__scripts o) (Enabled o) (HandleInput o)
     (Position o) (Size o) (Alignment o).
Definition with_scripts (s : list (N * option ptr)) (o : t) : t :=
  mk (__parent o) (__childs o) s (Enabled o) (HandleInput o)
     (Position o) (Size o) (Alignment o).
Definition with_Position (p : Point.t) (o : t) : t :=
  mk (__parent o) (__childs o) (__scripts o) (Enabled o) (HandleInput o)
     p (Size o) (Alignment o).
Definition with_Size (s : Size.t) (o : t) : t :=
  mk (__parent o) (__childs o) (__scripts o) (Enabled o) (HandleInput o)
     (Position o) s (Alignment o).

(** [Rectangle GetArea() const]. *)
Definition GetArea (o : t) : Rectangle.t :=
  Rectangle.of_point_size (Position o) (Size o).
End GameObject.

(** The store of the live Game Objects. *)
Abbreviation heap := (gmap ptr GameObject.t).

(** [new GameObject()] at address [p]. *)
Definition GameObject_new (p : ptr) (h : heap) : heap := <[p := GameObject.default]> h.

Section tree.
Context `{UnorderedSetImpl}.

(** The three statements of [GameObject::SetParent], in order. *)

(** [if (__parent) __parent->__childs.erase(this);] *)
Definition SetParent_erase_old (this : ptr) (h : heap) : option heap :=
  o ← h !! this;
  match GameObject.__parent o with
  | None => Some h
  | Some p =>
      q ← h !! p;
      Some (<[p := GameObject.with_childs (uset.erase this (GameObject.__childs q)) q]> h)
  end.

(** [__parent = parent;] *)
Definition SetParent_assign (this : ptr) (parent : option ptr) (h : heap) : option heap :=
  o ← h !! this;
  Some (<[this := GameObject.with_parent parent o]> h).

(** [if (parent) parent->__childs.insert(this);] *)
Definition SetParent_insert_new (this : ptr) (parent : option ptr) (h : heap) : option heap :=
  match parent with
  | None => Some h
  | Some p =>
      q ← h !! p;
      Some (<[p := GameObject.with_childs (uset.insert this (GameObject.__childs q)) q]> h)
  end.

Definition SetParent (this : ptr) (parent : option ptr) (h : heap) : option heap :=
  h1 ← SetParent_erase_old this h;
  h2 ← SetParent_assign this parent h1;
  SetParent_insert_new this parent h2.

(** [void DetachParent() { SetParent(nullptr); }] *)
Definition DetachParent (this : ptr) (h : heap) : option heap :=
  SetParent this None h.

(** [void AddChild(GameObject* child) { if (child) child->SetParent(this); }] *)
Definition AddChild (this : ptr) (child : option ptr) (h : heap) : option heap :=
  match child with
  | Some c => SetParent c (Some this) h
  | None => Some h
  end.

(** [void DetachChild(GameObject* child) { child->SetParent(nullptr); }]:
    the child is dereferenced without a null check. *)
Definition DetachChild (this : ptr) (child : option ptr) (h : heap) : option heap :=
  match child with
  | Some c => SetParent c None h
  | None => None
  end.

(** A call of one of the four tree methods, with its receiver. *)
Inductive TreeOp :=
  | CallSetParent (this : ptr) (parent : option ptr)
  | CallAddChild (this : ptr) (child : option ptr)
  | CallDetachParent (this : ptr)
  | CallDetachChild (this : ptr) (child : option ptr).

Definition run_op (op : TreeOp) (h : heap) : option heap :=
  match op with
  | CallSetParent this parent => SetParent this parent h
  | CallAddChild this child => AddChild this child h
  | CallDetachParent this => DetachParent this h
  | CallDetachChild this child => DetachChild this child h
  end.

Fixpoint run_ops (ops : list TreeOp) (h : heap) : option heap :=
  match ops with
  | [] => Some h
  | op :: ops => h' ← run_op op h; run_ops ops h'
  end.
End tree.

(** A nullable pointer argument that is null or points to a live object. *)
Definition null_or_live (h : heap) (p : option ptr) : Prop :=
  match p with None => True | Some q => is_Some (h !! q) end.

(** The receiver and the arguments of the call are live objects (a null
    argument is allowed where the method checks for it). *)
Definition op_live (h : heap) (op : TreeOp) : Prop :=
  match op with
  | CallSetParent this parent => is_Some (h !! this) /\ null_or_live h parent
  | CallAddChild this child => is_Some (h !! this) /\ null_or_live h child
  | CallDetachParent this => is_Some (h !! this)
  | CallDetachChild this child =>
      is_Some (h !! this) /\ match child with Some c => is_Some (h !! c) | None => False end
  end.

(** [n] is in the child set of the object at [p]. *)
Definition child_of (h : heap) (n p : ptr) : Prop :=
  match h !! p with
  | Some q => n ∈ GameObject.__childs q
  | None => False
  end.

(** The parent recorded in the object at [n] is [p]. *)
Definition parent_of (h : heap) (n p : ptr) : Prop :=
  match h !! n with
  | Some o => GameObject.__parent o = Some p
  | None => False
  end.

(** The tree invariant at one object: its parent lists it as a child, each
    of its children names it as parent, and its child set has no
    duplicate. *)
Definition node_ok (h : heap) (n : ptr) (o : GameObject.t) : Prop :=
  match GameObject.__parent o with
  | Some p => child_of h n p
  | None => True
  end
  /\ Forall (fun c => parent_of h c n) (GameObject.__childs o)
  /\ NoDup (GameObject.__childs o).

Definition tree_inv (h : heap) : Prop := map_Forall (node_ok h) h.

(** No child set lists an element twice. *)
Definition all_nodup (h : heap) : Prop :=
  forall p q, h !! p = Some q -> NoDup (GameObject.__childs q).

(** The invariant and the liveness conditions are decidable, so they can be
    evaluated on a concrete store. *)
#[global] Instance null_or_live_dec h p : Decision (null_or_live h p).
Proof. destruct p; simpl; apply _. Defined.

#[global] Instance op_live_dec h op : Decision (op_live h op).
Proof. destruct op as [? ?|? ?|?|? [?|]]; simpl; apply _. Defined.

#[global] Instance child_of_dec h n p : Decision (child_of h n p).
Proof. unfold child_of. destruct (h !! p); apply _. Defined.

#[global] Instance parent_of_dec h n p : Decision (parent_of h n p).
Proof. unfold parent_of. destruct (h !! n); apply _. Defined.

#[global] Instance node_ok_dec h n o : Decision (node_ok h n o).
Proof. unfold node_ok. destruct (GameObject.__parent o); apply _. Defined.

#[global] Instance tree_inv_dec h : Decision (tree_inv h).
Proof. unfold tree_inv. apply _. Defined.

(** ** Engine_Input.h: MouseButtonEventArgs *)

Module MouseButtonEventArgs.
(** [Button] is the numeric value of the [MouseButton] enumerator. *)
Record t := mk {
  LocalPosition : Point.t;
  Button : Z;
  Clicks : Z;
  IsDownEvent : bool;
  IsUpEvent : bool;
  IsPressed : bool;
  IsReleased : bool
}.

(** The member initialisers ([MouseButton::Unknown] is 0). *)
Definition default : t := mk Point.Zero 0 0 false false false false.

Definition with_LocalPosition (p : Point.t) (a : t) : t :=
  mk p (Button a) (Clicks a) (IsDownEvent a) (IsUpEvent a) (IsPressed a) (IsReleased a).
End MouseButtonEventArgs.

(** ** Engine_GameObject.h: raising events *)

(** One invocation of a virtual hook or of an event caller, with the
    receiver and the argument it is given. *)
Inductive Hook :=
  | Script_OnEarlyUpdate (script target : ptr)
  | GameObject_OnUpdate (this : ptr)
  | Script_OnUpdate (script target : ptr)
  | UpdateEvent_Call (sender : ptr)
  | Script_OnLateUpdate (script target : ptr)
  | GameObject_OnGlobalMouseDown (this : ptr) (args : MouseButtonEventArgs.t)
  | GlobalMouseDownEvent_Call (sender : ptr) (args : MouseButtonEventArgs.t)
  | GameObject_OnMouseDown (this : ptr) (args : MouseButtonEventArgs.t)
  | MouseDownEvent_Call (sender : ptr) (args : MouseButtonEventArgs.t).

(** [for (auto& pair : __scripts) if (pair.second) pair.second->hook(this);] *)
Definition for_each_script (hook : ptr -> Hook) (scripts : list (N * option ptr)) : list Hook :=
  omap (fun pair : N * option ptr => hook <$> pair.2) scripts.

(** [void RaiseUpdateEvent(bool recursive = true)]. The recursion follows
    the child pointers, so it is bounded by [fuel]; [None] when the fuel
    runs out or a pointer dangles. The children are raised with the default
    argument, [recursive = true]. *)
Fixpoint RaiseUpdateEvent (fuel : nat) (h : heap) (this : ptr) (recursive : bool)
    : option (list Hook) :=
  match fuel with
  | O => None
  | S fuel =>
      o ← h !! this;
      let early := for_each_script (fun s => Script_OnEarlyUpdate s this) (GameObject.__scripts o) in
      let self :=
        GameObject_OnUpdate this
          :: for_each_script (fun s => Script_OnUpdate s this) (GameObject.__scripts o)
          ++ [UpdateEvent_Call this] in
      if negb recursive then Some (early ++ self)
      else
        kids ← mapM (fun child => RaiseUpdateEvent fuel h child true) (GameObject.__childs o);
        let late := for_each_script (fun s => Script_OnLateUpdate s this) (GameObject.__scripts o) in
        Some (early ++ self ++ concat kids ++ late)
  end.

(** The Game Objects whose own update hook runs, in order. *)
Definition update_order (trace : list Hook) : list ptr :=
  omap (fun e => match e with GameObject_OnUpdate n => Some n | _ => None end) trace.

(** [void RaiseMouseDownEvent(MouseButtonEventArgs* args, bool recursive = true)]. *)
Fixpoint RaiseMouseDownEvent (fuel : nat) (h : heap) (this : ptr)
    (args : option MouseButtonEventArgs.t) (recursive : bool) : option (list Hook) :=
  match fuel with
  | O => None
  | S fuel =>
      o ← h !! this;
      let tmp := default MouseButtonEventArgs.default args in
      let global := [GameObject_OnGlobalMouseDown this tmp; GlobalMouseDownEvent_Call this tmp] in
      let hit :=
        if Rectangle.IsContain (Rectangle.of_point_size Point.Zero (GameObject.Size o))
             (MouseButtonEventArgs.LocalPosition tmp)
        then [GameObject_OnMouseDown this tmp; MouseDownEvent_Call this tmp]
        else [] in
      if recursive then
        kids ← mapM (fun child =>
            c ← h !! child;
            if negb (GameObject.Enabled c) || negb (GameObject.HandleInput c) then Some []
            else
              let child_area :=
                Rectangle.LocalToGlobal (GameObject.GetArea o) (GameObject.GetArea c)
                  (GameObject.Alignment c) in
              let child_args :=
                MouseButtonEventArgs.with_LocalPosition
                  (Point.sub_assign (MouseButtonEventArgs.LocalPosition tmp)
                     (Rectangle.TopLeft child_area)) tmp in
              RaiseMouseDownEvent fuel h child (Some child_args) recursive)
          (GameObject.__childs o);
        Some (global ++ hit ++ concat kids)
      else Some (global ++ hit)
  end.

(** The hooks of one Game Object without scripts, when its update is raised. *)
Definition own_update (n : ptr) : list Hook := [GameObject_OnUpdate n; UpdateEvent_Call n].

(** [p->member = value;] for a public member of the object at [p]. *)
Definition assign (p : ptr) (f : GameObject.t -> GameObject.t) (h : heap) : option heap :=
  o ← h !! p; Some (<[p := f o]> h).

(** The tree of the update-order scenario: R with the children B then C,
    and B with the child D. *)
Definition update_scenario `{UnorderedSetImpl} (r b c d : ptr) : option heap :=
  let h := GameObject_new d (GameObject_new c (GameObject_new b (GameObject_new r ∅))) in
  h ← AddChild r (Some b) h;
  h ← AddChild r (Some c) h;
  AddChild b (Some d) h.


(** ** Engine_GameObject.h: detaching and searching children *)

(** A range-based [for] whose body updates the state [s] and has no
    defined result when it dereferences a pointer that is not live. *)
Fixpoint for_each {A S : Type} (body : A -> S -> option S) (l : list A) (s : S) : option S :=
  match l with
  | [] => Some s
  | x :: l => s' ← body x s; for_each body l s'
  end.

(** [void DetachAllChilds()]: the parent pointer of every child is
    cleared directly, then the child set is cleared. *)
Definition DetachAllChilds (this : ptr) (h : heap) : option heap :=
  o ← h !! this;
  h ← for_each (fun child h => assign child (GameObject.with_parent None) h)
               (GameObject.__childs o) h;
  assign this (GameObject.with_childs []) h.

(** [size_t DetachChildIf(predicate)] for a [std::function] from
    [GameObject* obj] to [bool]:
    an empty [std::function] is [None]. The first loop collects the
    positions of the children the predicate accepts (the child set holds
    no null pointer, every insertion being of a [this]); the second loop
    clears the parent of each such child, counts it and erases it. *)
Definition DetachChildIf (this : ptr) (predicate : option (ptr -> bool)) (h : heap)
    : option (nat * heap) :=
  match predicate with
  | None => Some (0%nat, h)
  | Some predicate =>
      o ← h !! this;
      let remove_pos := filter (fun obj => predicate obj = true) (GameObject.__childs o) in
      for_each (fun obj '(count, h) =>
                  h ← assign obj (GameObject.with_parent None) h;
                  h ← assign this (fun t => GameObject.with_childs
                                              (uset.erase obj (GameObject.__childs t)) t) h;
                  Some (S count, h))
               remove_pos (0%nat, h)
  end.

(** The loop of [IsContainChild] for [recursive = true]: each child is
    compared with [child] and then asked [obj->IsContainChild(child)],
    with the default argument [recursive = false]. *)
Fixpoint IsContainChild_loop (h : heap) (child : ptr) (objs : list ptr) : option bool :=
  match objs with
  | [] => Some false
  | obj :: objs =>
      if decide (obj = child) then Some true
      else
        o ← h !! obj;
        if uset.contains child (GameObject.__childs o) then Some true
        else IsContainChild_loop h child objs
  end.

(** [bool IsContainChild(GameObject* child, bool recursive = false) const]. *)
Definition IsContainChild (h : heap) (this : ptr) (child : option ptr) (recursive : bool)
    : option bool :=
  o ← h !! this;
  match child with
  | None => Some false
  | Some child =>
      if negb recursive then Some (uset.contains child (GameObject.__childs o))
      else IsContainChild_loop h child (GameObject.__childs o)
  end.

(** ** Engine_GameObject.h: GameScene *)

(** [index < 0 || index >= __layers.size()] for an [int] index. *)
Definition out_of_range (index : Z) (size : nat) : bool :=
  (index <? 0) || (index >=? Z.of_nat size).

(** [v[i]] for a [std::vector] and an [int] index: there is no element, and
    no defined result, outside [0 .. size-1]. *)
Definition vector_at {A} (v : list A) (i : Z) : option A :=
  if i <? 0 then None else v !! Z.to_nat i.

Module GameScene.
(** The layers; the name and the background are not modelled. *)
Record t := mk { __layers : list (list ptr) }.

(** [__layers = std::vector<std::unordered_set<GameObject*>>(1)]. *)
Definition default : t := mk [[]].

Definition CountLayer (s : t) : nat := length (__layers s).

(** [int AddLayer(int index = -1)]: the scene afterwards. *)
Definition AddLayer (index : Z) (s : t) : t :=
  let size := length (__layers s) in
  let target_index := if out_of_range index size then Z.of_nat size else index in
  mk (take (Z.to_nat target_index) (__layers s)
        ++ [] :: drop (Z.to_nat target_index) (__layers s)).

(** [void RemoveLayer(int index = -1)]. *)
Definition RemoveLayer (index : Z) (s : t) : t :=
  let size := length (__layers s) in
  if Nat.eqb size 1 then mk (<[0%nat := []]> (__layers s))
  else
    let target_index := if out_of_range index size then Z.of_nat size - 1 else index in
    mk (delete (Z.to_nat target_index) (__layers s)).

(** [size_t Count(int layer_index) const], as written. *)
Definition Count (layer_index : Z) (s : t) : option nat :=
  if out_of_range layer_index (length (__layers s))
  then length <$> vector_at (__layers s) layer_index
  else Some 0%nat.

(** [void ClearLayer(int layer_index)]. *)
Definition ClearLayer (layer_index : Z) (s : t) : t :=
  if out_of_range layer_index (length (__layers s)) then s
  else mk (<[Z.to_nat layer_index := []]> (__layers s)).

(** [bool IsLayerContain(GameObject* obj, int layer_index, bool recursive = false)]
    with [recursive] left at its default. *)
Definition IsLayerContain (obj : option ptr) (layer_index : Z) (s : t) : bool :=
  match obj with
  | None => false
  | Some o =>
      if out_of_range layer_index (length (__layers s)) then false
      else from_option (uset.contains o) false (vector_at (__layers s) layer_index)
  end.

(** The layer [Add] inserts into. *)
Definition curr_layer (layer : Z) (size : nat) : Z :=
  if out_of_range layer size then Z.of_nat size - 1 else layer.

(** [void Add(GameObject* obj, int layer = -1)]. *)
Definition Add `{UnorderedSetImpl} (obj : option ptr) (layer : Z) (s : t) : option t :=
  match obj with
  | None => Some s
  | Some o =>
      let target := curr_layer layer (length (__layers s)) in
      let erased := uset.erase o <$> __layers s in
      set ← vector_at erased target;
      Some (mk (<[Z.to_nat target := uset.insert o set]> erased))
  end.

(** [void Remove(GameObject* obj)]. *)
Definition Remove (obj : option ptr) (s : t) : t :=
  match obj with
  | None => s
  | Some o => mk (uset.erase o <$> __layers s)
  end.

(** [void Clear()]. *)
Definition Clear (s : t) : t := mk ((fun _ => []) <$> __layers s).

(** The loop of [GetGameObjectLayer]: [i] is the [int] counter; it is
    compared with the [size_t] layer count after conversion, so a counter
    that has become negative ends the loop like one that has reached the
    count. *)
Fixpoint GetGameObjectLayer_loop (o : ptr) (size : nat) (i : Z) (rest : list (list ptr)) : Z :=
  match rest with
  | [] => -1
  | layer :: rest =>
      if out_of_range i size then -1
      else if uset.contains o layer then i
      else GetGameObjectLayer_loop o size (Int.add i 1) rest
  end.

(** [int GetGameObjectLayer(GameObject* obj) const]. *)
Definition GetGameObjectLayer (obj : option ptr) (s : t) : Z :=
  match obj with
  | None => -1
  | Some o => GetGameObjectLayer_loop o (length (__layers s)) 0 (__layers s)
  end.

(** [size_t Count() const]. *)
Definition Count_all (s : t) : nat :=
  foldl (fun result layer => (result + length layer)%nat) 0%nat (__layers s).

(** [void SwapLayer(int layer_index1, int layer_index2)]. *)
Definition SwapLayer (layer_index1 layer_index2 : Z) (s : t) : t :=
  if bool_decide (layer_index1 = layer_index2) then s
  else if out_of_range layer_index1 (length (__layers s)) then s
  else if out_of_range layer_index2 (length (__layers s)) then s
  else
    let i1 := Z.to_nat layer_index1 in
    let i2 := Z.to_nat layer_index2 in
    mk (<[i2 := __layers s !!! i1]> (<[i1 := __layers s !!! i2]> (__layers s))).

(** The inner loop of [IsContain] for [recursive = true]: each Game Object
    of the layer is asked [__obj->IsContainChild(obj)], with the default
    argument [recursive = false]. *)
Fixpoint IsContain_children (h : heap) (o : ptr) (layer : list ptr) : option bool :=
  match layer with
  | [] => Some false
  | __obj :: layer =>
      IsContainChild h __obj (Some o) false ≫= fun b : bool =>
      if b then Some true else IsContain_children h o layer
  end.

Fixpoint IsContain_loop (h : heap) (o : ptr) (recursive : bool) (layers : list (list ptr))
    : option bool :=
  match layers with
  | [] => Some false
  | layer :: layers =>
      if uset.contains o layer then Some true
      else if negb recursive then IsContain_loop h o recursive layers
      else
        IsContain_children h o layer ≫= fun b : bool =>
        if b then Some true else IsContain_loop h o recursive layers
  end.

(** [bool IsContain(GameObject* obj, bool recursive = false) const]. *)
Definition IsContain (h : heap) (obj : option ptr) (recursive : bool) (s : t) : option bool :=
  match obj with
  | None => Some false
  | Some o => IsContain_loop h o recursive (__layers s)
  end.

(** The body of the outer loop of [RemoveIf] for one layer: the Game
    Objects the predicate accepts are collected, then each is counted and
    erased (a layer holds no null pointer, [Add] refusing one). *)
Definition RemoveIf_layer (predicate : ptr -> bool) (count : nat) (layer : list ptr)
    : nat * list ptr :=
  let remove_objs := filter (fun obj => predicate obj = true) layer in
  foldl (fun '((count, layer) : nat * list ptr) obj => (S count, uset.erase obj layer))
        (count, layer) remove_objs.

Fixpoint RemoveIf_layers (predicate : ptr -> bool) (count : nat) (layers : list (list ptr))
    : nat * list (list ptr) :=
  match layers with
  | [] => (count, [])
  | layer :: layers =>
      let '(count, layer) := RemoveIf_layer predicate count layer in
      let '(count, layers) := RemoveIf_layers predicate count layers in
      (count, layer :: layers)
  end.

(** [size_t RemoveIf(predicate)] for a [std::function] from
    [GameObject* obj] to [bool]; an empty one is [None]. The count and the
    scene afterwards. *)
Definition RemoveIf (predicate : option (ptr -> bool)) (s : t) : nat * t :=
  match predicate with
  | None => (0%nat, s)
  | Some predicate =>
      let '(count, layers) := RemoveIf_layers predicate 0 (__layers s) in
      (count, mk layers)
  end.
End GameScene.

(** A call of one of the scene methods that change the layers. *)
Inductive SceneOp :=
  | CallAdd (obj : option ptr) (layer : Z)
  | CallRemove (obj : option ptr)
  | CallClearLayer (layer_index : Z)
  | CallClear
  | CallAddLayer (index : Z)
  | CallRemoveLayer (index : Z).

Definition run_scene_op `{UnorderedSetImpl} (op : SceneOp) (s : GameScene.t)
    : option GameScene.t :=
  match op with
  | CallAdd obj layer => GameScene.Add obj layer s
  | CallRemove obj => Some (GameScene.Remove obj s)
  | CallClearLayer i => Some (GameScene.ClearLayer i s)
  | CallClear => Some (GameScene.Clear s)
  | CallAddLayer i => Some (GameScene.AddLayer i s)
  | CallRemoveLayer i => Some (GameScene.RemoveLayer i s)
  end.

Fixpoint run_scene_ops `{UnorderedSetImpl} (ops : list SceneOp) (s : GameScene.t)
    : option GameScene.t :=
  match ops with
  | [] => Some s
  | op :: ops => s' ← run_scene_op op s; run_scene_ops ops s'
  end.

(** The scene invariant: there is at least one layer, and listing the
    layers one after the other names no Game Object twice (no object is in
    two layers, nor twice in one). *)
Definition scene_inv (s : GameScene.t) : Prop :=
  GameScene.__layers s <> [] /\ NoDup (mjoin (GameScene.__layers s)).

#[global] Instance scene_inv_dec s : Decision (scene_inv s).
Proof. unfold scene_inv. apply _. Defined.

(** ** Engine_GameObject.h: the static members of GameScene *)

Module SceneRegistry.
Record t := mk {
  __is_initialize : bool;
  __curr_scene : option ptr;
  __created_scenes : list ptr
}.

(** The initialisers of the static members. *)
Definition initial : t := mk false None [].

Definition with_is_initialize (b : bool) (g : t) : t :=
  mk b (__curr_scene g) (__created_scenes g).
Definition with_curr_scene (p : option ptr) (g : t) : t :=
  mk (__is_initialize g) p (__created_scenes g).
Definition with_created_scenes (l : list ptr) (g : t) : t :=
  mk (__is_initialize g) (__curr_scene g) l.
End SceneRegistry.

(** The result of a call that may throw, with the static members as the
    call leaves them. *)
Inductive outcome :=
  | Returned (g : SceneRegistry.t)
  | Thrown (what : string) (g : SceneRegistry.t).

(** [static bool IsInitialized()]. *)
Definition IsInitialized (g : SceneRegistry.t) : bool :=
  bool_decide (is_Some (SceneRegistry.__curr_scene g))
  && negb (bool_decide (SceneRegistry.__created_scenes g = [])).

Definition not_initialized_message : string :=
  "The Game Scene must be initialized successfully before creating a Game Scene!".

(** The body shared by [GameScene()], [GameScene(const GameScene&)] and
    [GameScene(GameScene* scene)], for the scene under construction at [this]. *)
Definition GameScene_construct `{UnorderedSetImpl} (this : ptr) (g : SceneRegistry.t) : outcome :=
  if negb (SceneRegistry.__is_initialize g) && negb (IsInitialized g)
  then Thrown not_initialized_message g
  else Returned (SceneRegistry.with_created_scenes
                   (uset.insert this (SceneRegistry.__created_scenes g)) g).

(** [static GameScene* GetCurrentScene()]. *)
Definition GetCurrentScene (g : SceneRegistry.t) : option ptr :=
  if negb (IsInitialized g) then None else SceneRegistry.__curr_scene g.

(** [static void SetCurrentScene(GameScene* scene)]. *)
Definition SetCurrentScene (scene : option ptr) (g : SceneRegistry.t) : SceneRegistry.t :=
  if IsInitialized g && bool_decide (is_Some scene)
  then SceneRegistry.with_curr_scene scene g
  else g.

(** [static bool Initialize()], [fresh] being the address [new GameScene()]
    returns. The destructors of the old scenes run while [__is_initialize]
    is set and leave the static members alone. *)
Definition Initialize `{UnorderedSetImpl} (fresh : ptr) (g : SceneRegistry.t)
    : bool * SceneRegistry.t :=
  let g := SceneRegistry.with_is_initialize true g in
  let g := SceneRegistry.with_created_scenes [] g in
  match GameScene_construct fresh g with
  | Thrown _ g => (false, g)
  | Returned g =>
      let g := SceneRegistry.with_curr_scene (Some fresh) g in
      let g := SceneRegistry.with_created_scenes
                 (uset.insert fresh (SceneRegistry.__created_scenes g)) g in
      (true, SceneRegistry.with_is_initialize false g)
  end.

(** [static void Deinitialize()]. *)
Definition Deinitialize (g : SceneRegistry.t) : SceneRegistry.t :=
  let g := SceneRegistry.with_is_initialize true g in
  let g := SceneRegistry.with_created_scenes [] g in
  let g := SceneRegistry.with_curr_scene None g in
  SceneRegistry.with_is_initialize false g.

(** ** Engine_Math.h: Interpolation *)

#[local] Open Scope Qc_scope.

(** The rational [n / d] as a time or a ratio. *)
Definition ratio (n : Z) (d : positive) : Qc := Q2Qc (n # d).

Module Interpolation.
(** [ENGINE_FAST_CLAMP(0, 1, value)]. *)
Definition Clamp01 (value : Qc) : Qc :=
  if decide (value < 0) then 0 else if decide (1 < value) then 1 else value.

Definition InverseLinear (start end_ value : Qc) : Qc :=
  Clamp01 ((value - start) / (end_ - start)).








End Interpolation.

(** ** Engine_Animation.h: AnimationScript *)

Module AnimationScript.
Record t := mk {
  __is_started : bool;
  __is_played : bool;
  __delay : Qc;
  __duration : Qc;
  __time : Qc;
  ResetOnFinish : bool;
  Repeated : bool
}.

(** The member initialisers. *)
Definition default : t := mk false false 0 (ratio 1 100) 0 true false.

Definition with_is_started (b : bool) (s : t) : t :=
  mk b (__is_played s) (__delay s) (__duration s) (__time s) (ResetOnFinish s) (Repeated s).
Definition with_is_played (b : bool) (s : t) : t :=
  mk (__is_started s) b (__delay s) (__duration s) (__time s) (ResetOnFinish s) (Repeated s).
Definition with_delay (d : Qc) (s : t) : t :=
  mk (__is_started s) (__is_played s) d (__duration s) (__time s) (ResetOnFinish s) (Repeated s).
Definition with_duration (d : Qc) (s : t) : t :=
  mk (__is_started s) (__is_played s) (__delay s) d (__time s) (ResetOnFinish s) (Repeated s).
Definition with_time (x : Qc) (s : t) : t :=
  mk (__is_started s) (__is_played s) (__delay s) (__duration s) x (ResetOnFinish s) (Repeated s).

Definition with_ResetOnFinish (b : bool) (s : t) : t :=
  mk (__is_started s) (__is_played s) (__delay s) (__duration s) (__time s) b (Repeated s).

Definition SetDuration (Duration : Qc) (s : t) : t :=
  with_duration (if decide (Duration < ratio 1 100) then ratio 1 100 else Duration) s.
Definition SetDelay (Delay : Qc) (s : t) : t :=
  with_delay (if decide (Delay < 0) then 0 else Delay) s.

Definition PlayAnimation (s : t) : t := with_is_started true s.
Definition PauseAnimation (s : t) : t := with_is_started false s.
Definition ResetAnimation (s : t) : t := with_is_played false (with_time 0 s).
Definition StopAnimation (s : t) : t := with_is_started false (ResetAnimation s).


(** One invocation of a virtual animation hook or of an animation event
    caller. [OnUpdateAnimation] carries its [AnimationTime] argument. *)
Inductive Callback :=
  | OnDelayAnimation
  | DelayAnimationEvent_Call
  | OnStartAnimation
  | StartAnimationEvent_Call
  | OnUpdateAnimation (AnimationTime : Qc)
  | UpdateAnimationEvent_Call
  | OnStopAnimation
  | StopAnimationEvent_Call.

(** [void OnUpdate(Engine::GameObject* Target) override], for the value
    [delta] of [Application::GetDeltaTime()]: the script afterwards and
    the callbacks made, in order. *)
Definition OnUpdate (delta : Qc) (s : t) : t * list Callback :=
  if negb (__is_started s) then (s, [])
  else
    let s := with_time (__time s + delta) s in
    if decide (__time s < __delay s)
    then (s, [OnDelayAnimation; DelayAnimationEvent_Call])
    else
      let starting := negb (__is_played s) && bool_decide (__delay s <= __time s) in
      let s := if starting then with_is_played true s else s in
      let start_calls := if starting then [OnStartAnimation; StartAnimationEvent_Call] else [] in
      let end_time := __delay s + __duration s in
      let update_calls :=
        [OnUpdateAnimation (Interpolation.InverseLinear (__delay s) end_time (__time s));
         UpdateAnimationEvent_Call] in
      if decide (end_time < __time s)
      then
        let s := with_is_started false s in
        let s := if ResetOnFinish s || Repeated s then ResetAnimation s else s in
        let s := if Repeated s then PlayAnimation s else s in
        (s, start_calls ++ update_calls ++ [OnStopAnimation; StopAnimationEvent_Call])
      else (s, start_calls ++ update_calls)
.




Definition with_Repeated (b : bool) (s : t) : t :=
  mk (__is_started s) (__is_played s) (__delay s) (__duration s) (__time s)
     (ResetOnFinish s) b.


(** A use of the public interface of the script: a control method, a write
    to one of the two public flags, or a frame tick. *)
Inductive Op :=
  | CallSetDuration (Duration : Qc)
  | CallSetDelay (Delay : Qc)
  | CallPlayAnimation
  | CallPauseAnimation
  | CallResetAnimation
  | CallStopAnimation
  | WriteResetOnFinish (b : bool)
  | WriteRepeated (b : bool)
  | CallOnUpdate (delta : Qc).

Definition run_op (op : Op) (s : t) : t :=
  match op with
  | CallSetDuration d => SetDuration d s
  | CallSetDelay d => SetDelay d s
  | CallPlayAnimation => PlayAnimation s
  | CallPauseAnimation => PauseAnimation s
  | CallResetAnimation => ResetAnimation s
  | CallStopAnimation => StopAnimation s
  | WriteResetOnFinish b => with_ResetOnFinish b s
  | WriteRepeated b => with_Repeated b s
  | CallOnUpdate delta => fst (OnUpdate delta s)
  end.

Definition run_ops (ops : list Op) (s : t) : t := foldl (fun s op => run_op op s) s ops.

End AnimationScript.


#[local] Close Scope Qc_scope.

(** [virtual ~GameScene()] for the scene at [this]; [fresh] is the address
    [new GameScene()] returns when the current scene is the one being
    destroyed. An exception of that constructor leaves the destructor. *)
Definition GameScene_destroy `{UnorderedSetImpl} (this fresh : ptr) (g : SceneRegistry.t)
    : outcome :=
  if negb (SceneRegistry.__is_initialize g) && IsInitialized g
  then
    let replaced :=
      if bool_decide (SceneRegistry.__curr_scene g = Some this)
      then match GameScene_construct fresh g with
           | Returned g => Returned (SceneRegistry.with_curr_scene (Some fresh) g)
           | Thrown what g => Thrown what g
           end
      else Returned g in
    match replaced with
    | Returned g =>
        Returned (SceneRegistry.with_created_scenes
                    (uset.erase this (SceneRegistry.__created_scenes g)) g)
    | Thrown what g => Thrown what g
    end
  else Returned g.
(** ** Engine_Renderer.h and Engine_GameObject.h: the render event *)

Module RenderEventArgs.
Record t := mk { TargetArea : Rectangle.t }.

(** The member initialiser, [Rectangle::Empty]. *)
Definition default : t := mk Rectangle.Empty.
End RenderEventArgs.

(** One invocation of the render hook or of the render event caller, with
    the receiver and the argument it is given. *)
Inductive RenderHook :=
  | GameObject_OnRender (this : ptr) (args : RenderEventArgs.t)
  | RenderEvent_Call (sender : ptr) (args : RenderEventArgs.t).

(** [void RaiseRenderEvent(RenderEventArgs* args, bool recursive = true)]. *)
Fixpoint RaiseRenderEvent (fuel : nat) (h : heap) (this : ptr)
    (args : option RenderEventArgs.t) (recursive : bool) : option (list RenderHook) :=
  match fuel with
  | O => None
  | S fuel =>
      o ← h !! this;
      let tmp := default RenderEventArgs.default args in
      let self := [GameObject_OnRender this tmp; RenderEvent_Call this tmp] in
      if recursive then
        kids ← mapM (fun child =>
            c ← h !! child;
            if negb (GameObject.Enabled c) then Some []
            else
              let child_args :=
                RenderEventArgs.mk
                  (Rectangle.LocalToGlobal (RenderEventArgs.TargetArea tmp)
                     (GameObject.GetArea c) (GameObject.Alignment c)) in
              RaiseRenderEvent fuel h child (Some child_args) recursive)
          (GameObject.__childs o);
        Some (self ++ concat kids)
      else Some self
  end.

(** ** Engine.h: what the application does with one Game Object of the
    current scene *)

(** The action [Application::Start] passes to [curr_scene->ForEach] in
    every frame, for a window of size [window_size]: the update hooks and
    the render hooks it causes. *)
Definition frame_scene_object (fuel : nat) (h : heap) (window_size : Size.t) (obj : ptr)
    : option (list Hook * list RenderHook) :=
  o ← h !! obj;
  if negb (GameObject.Enabled o) then Some ([], [])
  else
    updates ← RaiseUpdateEvent fuel h obj true;
    let render_args :=
      RenderEventArgs.mk
        (Rectangle.LocalToGlobal (Rectangle.of_point_size Point.Zero window_size)
           (GameObject.GetArea o) (GameObject.Alignment o)) in
    renders ← RaiseRenderEvent fuel h obj (Some render_args) true;
    Some (updates, renders).

(** The action [Application::HandleWindowEvent] passes to
    [curr_scene->ForEach] for an [SDL_MOUSEBUTTONDOWN] event with the
    arguments [button_args]. *)
Definition mouse_down_scene_object (fuel : nat) (h : heap) (window_size : Size.t)
    (button_args : MouseButtonEventArgs.t) (obj : ptr) : option (list Hook) :=
  o ← h !! obj;
  if negb (GameObject.Enabled o) || negb (GameObject.HandleInput o) then Some []
  else
    let child_area :=
      Rectangle.LocalToGlobal (Rectangle.of_point_size Point.Zero window_size)
        (GameObject.GetArea o) (GameObject.Alignment o) in
    let child_args :=
      MouseButtonEventArgs.with_LocalPosition
        (Point.sub_assign (MouseButtonEventArgs.LocalPosition button_args)
           (Rectangle.TopLeft child_area)) button_args in
    RaiseMouseDownEvent fuel h obj (Some child_args) true.
(** A Game Object as the scenarios of the input handling use it: enabled,
    handling input, aligned top-left, with a size that is not negative and
    coordinates small enough for the sums the engine forms. *)
Definition plain_object (o : GameObject.t) : Prop :=
  GameObject.Enabled o = true /\ GameObject.HandleInput o = true
  /\ GameObject.Alignment o = RectangleAlignment.TopLeft
  /\ Rectangle.small_rect (GameObject.GetArea o)
  /\ 0 <= Size.Width (GameObject.Size o) /\ 0 <= Size.Height (GameObject.Size o).
(** ** Engine_GameObject.h: the lifetime of Game Objects *)

(** An invocation of [GameScript::OnStop] made while a Game Object is
    destroyed. *)
Inductive ScriptHook :=
  | Script_OnStop (script target : ptr).

Module World.
(** The live Game Objects and Game Scenes with the static members that
    track them: [GameObject::__is_destroy_all],
    [GameObject::__created_game_objs] and [GameScene::__created_scenes]. *)
Record t := mk {
  objects : heap;
  __is_destroy_all : bool;
  __created_game_objs : list ptr;
  scenes : gmap ptr GameScene.t;
  __created_scenes : list ptr
}.

Definition with_objects (h : heap) (w : t) : t :=
  mk h (__is_destroy_all w) (__created_game_objs w) (scenes w) (__created_scenes w).
Definition with_is_destroy_all (b : bool) (w : t) : t :=
  mk (objects w) b (__created_game_objs w) (scenes w) (__created_scenes w).
Definition with_created_game_objs (l : list ptr) (w : t) : t :=
  mk (objects w) (__is_destroy_all w) l (scenes w) (__created_scenes w).
Definition with_scenes (ss : gmap ptr GameScene.t) (w : t) : t :=
  mk (objects w) (__is_destroy_all w) (__created_game_objs w) ss (__created_scenes w).
End World.

(** [GameScene::ForEachScene(action)] for an action that replaces the
    scene it is given by [action scene]. *)
Definition ForEachScene (action : GameScene.t -> GameScene.t) (w : World.t) : option World.t :=
  ss ← for_each (fun scene ss => s ← ss !! scene; Some (<[scene := action s]> ss))
                (World.__created_scenes w) (World.scenes w);
  Some (World.with_scenes ss w).

(** [GameObject() { GameObject::__created_game_objs.insert(this); }] for
    the object allocated at [this]. *)
Definition GameObject_construct `{UnorderedSetImpl} (this : ptr) (w : World.t) : World.t :=
  World.with_created_game_objs (uset.insert this (World.__created_game_objs w))
    (World.with_objects (GameObject_new this (World.objects w)) w).

(** [delete obj]: the body of [GameObject::~GameObject()], then the
    storage of the object is released. The scripts are not kept in a store
    of their own; their [OnStop] calls are returned. *)
Definition GameObject_delete `{UnorderedSetImpl} (this : ptr) (w : World.t)
    : option (list ScriptHook * World.t) :=
  h ← DetachAllChilds this (World.objects w);
  h ← DetachParent this h;
  o ← h !! this;
  if World.__is_destroy_all w
  then Some ([], World.with_objects (delete this h) w)
  else
    let stops :=
      omap (fun pair : N * option ptr => (fun s => Script_OnStop s this) <$> pair.2)
           (GameObject.__scripts o) in
    h ← assign this (GameObject.with_scripts []) h;
    let w := World.with_objects h w in
    let w := World.with_created_game_objs (uset.erase this (World.__created_game_objs w)) w in
    w ← ForEachScene (GameScene.Remove (Some this)) w;
    Some (stops, World.with_objects (delete this (World.objects w)) w).

(** [static void DestoryAllCreatedGameObjects()]. *)
Definition DestoryAllCreatedGameObjects `{UnorderedSetImpl} (w : World.t) : option World.t :=
  let w := World.with_is_destroy_all true w in
  w ← for_each (fun obj w => snd <$> GameObject_delete obj w)
               (World.__created_game_objs w) w;
  let w := World.with_created_game_objs [] w in
  w ← ForEachScene GameScene.Clear w;
  Some (World.with_is_destroy_all false w).

(** The store of a running program: the objects form a well-formed tree,
    the created set lists exactly the live objects, every created scene is
    live, and no destroy-all is in progress. *)
Definition world_inv (w : World.t) : Prop :=
  tree_inv (World.objects w)
  /\ NoDup (World.__created_game_objs w)
  /\ (forall p, p ∈ World.__created_game_objs w <-> is_Some (World.objects w !! p))
  /\ Forall (fun s => is_Some (World.scenes w !! s)) (World.__created_scenes w)
  /\ World.__is_destroy_all w = false.

(** * Properties *)

Lemma wrap_add_l (a b : Z) : Int.wrap (Int.wrap a + b) = Int.wrap (a + b).
Proof.
  unfold Int.wrap.
  replace ((a + Int.half_modulus) mod Int.modulus - Int.half_modulus + b + Int.half_modulus)
    with ((a + Int.half_modulus) mod Int.modulus + b) by lia.
  replace (a + b + Int.half_modulus) with ((a + Int.half_modulus) + b) by lia.
  rewrite Zplus_mod_idemp_l. reflexivity.
Qed.



(** A value that fits an [int] is stored unchanged, so without overflow the
    [int] sums above are the mathematical ones. *)
Lemma wrap_in_range (z : Z) : Int.in_range z -> Int.wrap z = z.
Proof.
  unfold Int.in_range, Int.wrap, Int.half_modulus, Int.modulus. intros Hz.
  rewrite Z.mod_small; lia.
Qed.

Lemma LocalToGlobal_TopLeft_no_overflow (p c : Rectangle.t) :
  Int.in_range (Rectangle.LeftSide p + Rectangle.LeftSide c) ->
  Int.in_range (Rectangle.TopSide p + Rectangle.TopSide c) ->
  Rectangle.X (Rectangle.LocalToGlobal p c RectangleAlignment.TopLeft)
    = Rectangle.LeftSide p + Rectangle.LeftSide c
  /\ Rectangle.Y (Rectangle.LocalToGlobal p c RectangleAlignment.TopLeft)
    = Rectangle.TopSide p + Rectangle.TopSide c.
Proof.
  intros Hx Hy. simpl. unfold Int.add. rewrite !wrap_in_range by assumption. auto.
Qed.

(** A parent and a child stored with negative dimensions: the accessors
    resolve the sides before anything is added. *)
Example LocalToGlobal_negative_dimensions :
  Rectangle.LocalToGlobal (Rectangle.mk 10 10 (-5) 20) (Rectangle.mk 2 3 (-4) (-6))
    RectangleAlignment.TopLeft = Rectangle.mk 5 8 4 6
  /\ Rectangle.LocalToGlobal (Rectangle.mk 10 10 (-5) 20) (Rectangle.mk 2 3 (-4) (-6))
       RectangleAlignment.MiddleCenter = Rectangle.mk 5 15 4 6.
Proof. split; vm_compute; reflexivity. Qed.

(** ** The unordered set *)

Section uset_facts.
Context `{UnorderedSetImpl}.

Lemma elem_of_uset_erase (x y : ptr) (l : list ptr) :
  y ∈ uset.erase x l <-> y ∈ l /\ y <> x.
Proof. unfold uset.erase. rewrite list_elem_of_filter. tauto. Qed.

Lemma NoDup_uset_erase (x : ptr) (l : list ptr) :
  NoDup l -> NoDup (uset.erase x l).
Proof. apply NoDup_filter. Qed.

Lemma elem_of_uset_insert (x y : ptr) (l : list ptr) :
  y ∈ uset.insert x l <-> y = x \/ y ∈ l.
Proof.
  unfold uset.insert. destruct (decide (x ∈ l)) as [Hin|Hout].
  - split; [auto | intros [->|]; assumption].
  - rewrite (bucket_insert_perm x l). apply elem_of_cons.
Qed.

Lemma NoDup_uset_insert (x : ptr) (l : list ptr) :
  NoDup l -> NoDup (uset.insert x l).
Proof.
  intros Hl. unfold uset.insert. destruct (decide (x ∈ l)) as [Hin|Hout]; [assumption |].
  rewrite (bucket_insert_perm x l). apply NoDup_cons. auto.
Qed.
End uset_facts.

(** ** The Game Object tree *)

(** The invariant says that the two directions of the parent/child link
    agree everywhere. *)
Lemma tree_inv_links (h : heap) :
  tree_inv h <->
  (forall n p, parent_of h n p <-> child_of h n p)
  /\ (forall p q, h !! p = Some q -> NoDup (GameObject.__childs q)).
Proof.
  unfold tree_inv. rewrite map_Forall_lookup. unfold node_ok. split.
  - intros Hinv. split.
    + intros n p. split.
      * unfold parent_of. destruct (h !! n) as [o|] eqn:Hn; [|tauto].
        intros Hp. destruct (Hinv n o Hn) as (Hup & _ & _).
        rewrite Hp in Hup. exact Hup.
      * unfold child_of. destruct (h !! p) as [q|] eqn:Hp; [|tauto].
        intros Hc. destruct (Hinv p q Hp) as (_ & Hdown & _).
        rewrite Forall_forall in Hdown. auto.
    + intros p q Hp. apply (Hinv p q Hp).
  - intros [Hlink Hnd] n o Hn. split; [|split].
    + destruct (GameObject.__parent o) as [p|] eqn:Hp; [|exact I].
      apply Hlink. unfold parent_of. rewrite Hn. exact Hp.
    + apply Forall_forall. intros c Hc. apply Hlink.
      unfold child_of. rewrite Hn. exact Hc.
    + eauto.
Qed.

(** What a write to one member of one object changes in the links. *)
Lemma child_of_with_childs (h : heap) (p : ptr) (q : GameObject.t) (l : list ptr) (n x : ptr) :
  child_of (<[p := GameObject.with_childs l q]> h) n x
  <-> if decide (x = p) then n ∈ l else child_of h n x.
Proof.
  unfold child_of. destruct (decide (x = p)) as [->|Hne].
  - rewrite lookup_insert_eq. reflexivity.
  - rewrite lookup_insert_ne by congruence. reflexivity.
Qed.

Lemma parent_of_with_childs (h : heap) (p : ptr) (q : GameObject.t) (l : list ptr) (n x : ptr) :
  h !! p = Some q ->
  parent_of (<[p := GameObject.with_childs l q]> h) n x <-> parent_of h n x.
Proof.
  intros Hp. unfold parent_of. destruct (decide (n = p)) as [->|Hne].
  - rewrite lookup_insert_eq, Hp. reflexivity.
  - rewrite lookup_insert_ne by congruence. reflexivity.
Qed.

Lemma child_of_with_parent (h : heap) (t : ptr) (o : GameObject.t) (v : option ptr) (n x : ptr) :
  h !! t = Some o ->
  child_of (<[t := GameObject.with_parent v o]> h) n x <-> child_of h n x.
Proof.
  intros Ht. unfold child_of. destruct (decide (x = t)) as [->|Hne].
  - rewrite lookup_insert_eq, Ht. reflexivity.
  - rewrite lookup_insert_ne by congruence. reflexivity.
Qed.

Lemma parent_of_with_parent (h : heap) (t : ptr) (o : GameObject.t) (v : option ptr) (n x : ptr) :
  parent_of (<[t := GameObject.with_parent v o]> h) n x
  <-> if decide (n = t) then v = Some x else parent_of h n x.
Proof.
  unfold parent_of. destruct (decide (n = t)) as [->|Hne].
  - rewrite lookup_insert_eq. reflexivity.
  - rewrite lookup_insert_ne by congruence. reflexivity.
Qed.

(** Constructing a Game Object keeps the invariant: the new object has no
    parent and no child, and no live object can refer to its address. *)
Lemma tree_inv_empty : tree_inv ∅.
Proof. unfold tree_inv. apply map_Forall_empty. Qed.

Lemma tree_inv_new (h : heap) (p : ptr) :
  tree_inv h -> h !! p = None -> tree_inv (GameObject_new p h).
Proof.
  intros [Hlink Hnd]%tree_inv_links Hfresh. apply tree_inv_links.
  unfold GameObject_new. split.
  - intros n x. unfold parent_of, child_of in *.
    destruct (decide (n = p)) as [->|Hn], (decide (x = p)) as [->|Hx];
      rewrite ?lookup_insert_eq, ?lookup_insert_ne by congruence; simpl.
    + split; [discriminate | intros Hin; inversion Hin].
    + specialize (Hlink p x). rewrite Hfresh in Hlink.
      split; [discriminate |]. intros Hc. apply Hlink in Hc. contradiction.
    + specialize (Hlink n p). rewrite Hfresh in Hlink.
      split; [intros Hp; apply Hlink in Hp; contradiction | intros Hin; inversion Hin].
    + apply Hlink.
  - intros x q. destruct (decide (x = p)) as [->|Hx].
    + rewrite lookup_insert_eq. intros [= <-]. constructor.
    + rewrite lookup_insert_ne by congruence. apply Hnd.
Qed.

Lemma child_of_live (h : heap) (n p : ptr) : child_of h n p -> is_Some (h !! p).
Proof. unfold child_of. destruct (h !! p); [eauto | tauto]. Qed.

Lemma all_nodup_with_childs (h : heap) (p : ptr) (q : GameObject.t) (l : list ptr) :
  all_nodup h -> NoDup l -> all_nodup (<[p := GameObject.with_childs l q]> h).
Proof.
  intros Hnd Hl x y. destruct (decide (x = p)) as [->|Hne].
  - rewrite lookup_insert_eq. intros [= <-]. exact Hl.
  - rewrite lookup_insert_ne by congruence. apply Hnd.
Qed.

Lemma all_nodup_with_parent (h : heap) (t : ptr) (o : GameObject.t) (v : option ptr) :
  all_nodup h -> h !! t = Some o -> all_nodup (<[t := GameObject.with_parent v o]> h).
Proof.
  intros Hnd Ht x y. destruct (decide (x = t)) as [->|Hne].
  - rewrite lookup_insert_eq. intros [= <-]. simpl. exact (Hnd t o Ht).
  - rewrite lookup_insert_ne by congruence. apply Hnd.
Qed.

Lemma live_dom (h h' : heap) (x : ptr) :
  dom h' = dom h -> is_Some (h !! x) -> is_Some (h' !! x).
Proof. intros Hd Hx. apply elem_of_dom. rewrite Hd. apply elem_of_dom. exact Hx. Qed.

Lemma null_or_live_dom (h h' : heap) (p : option ptr) :
  dom h' = dom h -> null_or_live h p -> null_or_live h' p.
Proof. destruct p; simpl; [apply live_dom | auto]. Qed.

Lemma op_live_dom (h h' : heap) (op : TreeOp) :
  dom h' = dom h -> op_live h op -> op_live h' op.
Proof.
  intros Hd. destruct op as [t p|t c|t|t [c|]]; simpl;
    intuition eauto using live_dom, null_or_live_dom.
Qed.

Section tree_facts.
Context `{UnorderedSetImpl}.

(** First statement of [SetParent]: afterwards [this] is in no child set
    at all, and nothing else has changed. *)
Lemma SetParent_erase_old_spec (h : heap) (this : ptr) :
  tree_inv h -> is_Some (h !! this) ->
  exists h1, SetParent_erase_old this h = Some h1
    /\ dom h1 = dom h
    /\ all_nodup h1
    /\ (forall n x, parent_of h1 n x <-> parent_of h n x)
    /\ (forall n x, child_of h1 n x <-> child_of h n x /\ n <> this).
Proof.
  intros [Hlink Hnd]%tree_inv_links [o Ho].
  assert (Honly : forall x, child_of h this x -> GameObject.__parent o = Some x).
  { intros x Hx. apply Hlink in Hx. unfold parent_of in Hx. rewrite Ho in Hx. exact Hx. }
  unfold SetParent_erase_old. rewrite Ho. simpl.
  destruct (GameObject.__parent o) as [p|] eqn:Hp.
  - assert (Hc : child_of h this p).
    { apply Hlink. unfold parent_of. rewrite Ho. exact Hp. }
    destruct (child_of_live _ _ _ Hc) as [q Hq]. rewrite Hq. simpl.
    eexists. split; [reflexivity |]. split; [|split; [|split]].
    + apply dom_insert_lookup_L. eauto.
    + apply all_nodup_with_childs; [exact Hnd |].
      apply NoDup_uset_erase. exact (Hnd p q Hq).
    + intros n x. apply parent_of_with_childs. exact Hq.
    + intros n x. rewrite child_of_with_childs.
      destruct (decide (x = p)) as [->|Hne].
      * rewrite elem_of_uset_erase. unfold child_of. rewrite Hq. reflexivity.
      * split; [|tauto]. intros Hx. split; [exact Hx |].
        intros ->. apply Honly in Hx. congruence.
  - exists h. split; [reflexivity |]. split; [reflexivity |].
    split; [exact Hnd |]. split; [reflexivity |].
    intros n x. split; [|tauto]. intros Hx. split; [exact Hx |].
    intros ->. apply Honly in Hx. discriminate.
Qed.

(** Second statement: only the parent recorded in [this] changes. *)
Lemma SetParent_assign_spec (h : heap) (this : ptr) (parent : option ptr) :
  all_nodup h -> is_Some (h !! this) ->
  exists h2, SetParent_assign this parent h = Some h2
    /\ dom h2 = dom h
    /\ all_nodup h2
    /\ (forall n x, parent_of h2 n x
          <-> if decide (n = this) then parent = Some x else parent_of h n x)
    /\ (forall n x, child_of h2 n x <-> child_of h n x).
Proof.
  intros Hnd [o Ho]. unfold SetParent_assign. rewrite Ho. simpl.
  eexists. split; [reflexivity |]. split; [|split; [|split]].
  - apply dom_insert_lookup_L. eauto.
  - apply all_nodup_with_parent; assumption.
  - intros n x. apply parent_of_with_parent.
  - intros n x. apply child_of_with_parent. exact Ho.
Qed.

(** Third statement: [this] enters the child set of the new parent. *)
Lemma SetParent_insert_new_spec (h : heap) (this : ptr) (parent : option ptr) :
  all_nodup h -> null_or_live h parent ->
  exists h3, SetParent_insert_new this parent h = Some h3
    /\ dom h3 = dom h
    /\ all_nodup h3
    /\ (forall n x, parent_of h3 n x <-> parent_of h n x)
    /\ (forall n x, child_of h3 n x
          <-> child_of h n x \/ (n = this /\ parent = Some x)).
Proof.
  intros Hnd Hlive. unfold SetParent_insert_new. destruct parent as [p|].
  - destruct Hlive as [q Hq]. rewrite Hq. simpl.
    eexists. split; [reflexivity |]. split; [|split; [|split]].
    + apply dom_insert_lookup_L. eauto.
    + apply all_nodup_with_childs; [exact Hnd |].
      apply NoDup_uset_insert. exact (Hnd p q Hq).
    + intros n x. apply parent_of_with_childs. exact Hq.
    + intros n x. rewrite child_of_with_childs.
      destruct (decide (x = p)) as [->|Hne].
      * rewrite elem_of_uset_insert. unfold child_of. rewrite Hq.
        split; [intros [->|]; auto | intros [|[-> _]]; auto].
      * split; [auto |]. intros [|[_ [= ->]]]; [assumption | congruence].
  - exists h. split; [reflexivity |]. split; [reflexivity |].
    split; [exact Hnd |]. split; [reflexivity |].
    intros n x. split; [auto |]. intros [|[_ [=]]]. assumption.
Qed.

(** The whole of [SetParent]: it is defined on live arguments, keeps the
    invariant and the set of live objects, and [this] is in no child set
    from the end of the first statement to the start of the third. *)
Lemma SetParent_spec (h : heap) (this : ptr) (parent : option ptr) :
  tree_inv h -> is_Some (h !! this) -> null_or_live h parent ->
  exists h1 h2 h3,
    SetParent_erase_old this h = Some h1
    /\ SetParent_assign this parent h1 = Some h2
    /\ SetParent_insert_new this parent h2 = Some h3
    /\ SetParent this parent h = Some h3
    /\ (forall p, ~ child_of h1 this p)
    /\ (forall p, ~ child_of h2 this p)
    /\ (forall p, child_of h3 this p <-> parent = Some p)
    /\ tree_inv h3 /\ dom h3 = dom h.
Proof.
  intros Hinv Hthis Hparent.
  destruct (SetParent_erase_old_spec h this Hinv Hthis)
    as (h1 & E1 & D1 & N1 & P1 & C1).
  destruct (SetParent_assign_spec h1 this parent N1 (live_dom _ _ _ D1 Hthis))
    as (h2 & E2 & D2 & N2 & P2 & C2).
  assert (D12 : dom h2 = dom h) by congruence.
  destruct (SetParent_insert_new_spec h2 this parent N2
              (null_or_live_dom _ _ _ D12 Hparent))
    as (h3 & E3 & D3 & N3 & P3 & C3).
  apply tree_inv_links in Hinv as [Hlink _].
  exists h1, h2, h3.
  split; [exact E1 |]. split; [exact E2 |]. split; [exact E3 |].
  split; [unfold SetParent; rewrite E1; simpl; rewrite E2; exact E3 |].
  split; [intros p Hp; apply C1 in Hp; tauto |].
  split; [intros p Hp; apply C2, C1 in Hp; tauto |].
  split; [intros p; rewrite C3, C2, C1; tauto |].
  split; [|congruence].
  apply tree_inv_links. split; [|exact N3].
  intros n x. rewrite P3, P2, C3, C2, C1, <- Hlink.
  destruct (decide (n = this)) as [->|Hne]; [tauto | rewrite P1; tauto].
Qed.

Lemma run_op_spec (h : heap) (op : TreeOp) :
  tree_inv h -> op_live h op ->
  exists h', run_op op h = Some h' /\ tree_inv h' /\ dom h' = dom h.
Proof.
  intros Hinv Hlive. destruct op as [t p|t c|t|t c]; simpl in *.
  - destruct Hlive as [Ht Hp].
    destruct (SetParent_spec h t p Hinv Ht Hp) as (? & ? & h3 & ?). exists h3. tauto.
  - destruct Hlive as [Ht Hc]. destruct c as [c|]; simpl.
    + destruct (SetParent_spec h c (Some t) Hinv Hc Ht) as (? & ? & h3 & ?).
      exists h3. tauto.
    + exists h. auto.
  - destruct (SetParent_spec h t None Hinv Hlive I) as (? & ? & h3 & ?).
    exists h3. tauto.
  - destruct Hlive as [Ht Hc]. destruct c as [c|]; [|contradiction]. simpl.
    destruct (SetParent_spec h c None Hinv Hc I) as (? & ? & h3 & ?).
    exists h3. tauto.
Qed.

Lemma run_ops_spec (ops : list TreeOp) (h : heap) :
  tree_inv h -> Forall (op_live h) ops ->
  exists h', run_ops ops h = Some h' /\ tree_inv h' /\ dom h' = dom h.
Proof.
  revert h. induction ops as [|op ops IH]; intros h Hinv Hlive.
  - exists h. auto.
  - apply Forall_cons in Hlive as [Hop Hops].
    destruct (run_op_spec h op Hinv Hop) as (h1 & E1 & I1 & D1).
    destruct (IH h1 I1) as (h' & E' & I' & D').
    { eapply Forall_impl; [exact Hops |]. intros ?. apply op_live_dom. exact D1. }
    exists h'. simpl. rewrite E1. simpl. split; [exact E' |].
    split; [exact I' | congruence].
Qed.

(** C1. From a store that satisfies the tree invariant (every store of
    constructed objects does, see [tree_inv_empty] and [tree_inv_new]),
    every sequence of
    SetParent / AddChild / DetachParent / DetachChild calls on live
    objects is defined and leads to a store in which: a node whose parent
    is P is in P's child set; no node is in the child sets of two
    different parents; and a further SetParent removes the node from
    every child set in its first statement, before the third statement
    inserts it into the child set of the new parent. *)
Theorem tree_invariant_preserved (h : heap) (ops : list TreeOp) :
  tree_inv h -> Forall (op_live h) ops ->
  exists h',
    run_ops ops h = Some h'
    /\ (forall n p, parent_of h' n p -> child_of h' n p)
    /\ (forall n p1 p2, child_of h' n p1 -> child_of h' n p2 -> p1 = p2)
    /\ (forall this parent,
          is_Some (h' !! this) -> null_or_live h' parent ->
          exists h1 h2 h3,
            SetParent_erase_old this h' = Some h1
            /\ SetParent_assign this parent h1 = Some h2
            /\ SetParent_insert_new this parent h2 = Some h3
            /\ SetParent this parent h' = Some h3
            /\ (forall p, ~ child_of h1 this p)
            /\ (forall p, ~ child_of h2 this p)
            /\ (forall p, child_of h3 this p <-> parent = Some p)).
Proof.
  intros Hinv Hlive.
  destruct (run_ops_spec ops h Hinv Hlive) as (h' & E & I' & _).
  exists h'. split; [exact E |].
  pose proof I' as [Hlink _]%tree_inv_links.
  split; [|split].
  - intros n p. apply Hlink.
  - intros n p1 p2 H1%Hlink H2%Hlink. unfold parent_of in H1, H2.
    destruct (h' !! n); [congruence | contradiction].
  - intros this parent Ht Hp.
    destruct (SetParent_spec h' this parent I' Ht Hp)
      as (h1 & h2 & h3 & ? & ? & ? & ? & ? & ? & ? & _).
    exists h1, h2, h3. auto 10.
Qed.
End tree_facts.

(** The theorem at a store of three constructed objects and six calls. *)
Lemma tree_invariant_preserved_witness :
  let h := GameObject_new 3 (GameObject_new 2 (GameObject_new 1 ∅)) in
  let ops := [CallAddChild 1 (Some 2%positive); CallAddChild 1 (Some 3%positive);
              CallSetParent 3 (Some 2%positive); CallDetachChild 1 (Some 2%positive);
              CallSetParent 2 (Some 3%positive); CallDetachParent 3] in
  tree_inv h /\ Forall (op_live h) ops
  /\ exists h', @run_ops front_impl ops h = Some h'
       /\ (forall n p, parent_of h' n p -> child_of h' n p)
       /\ (forall n p1 p2, child_of h' n p1 -> child_of h' n p2 -> p1 = p2).
Proof.
  intros h ops.
  assert (Hinv : tree_inv h) by (apply (bool_decide_unpack _); vm_compute; exact I).
  assert (Hlive : Forall (op_live h) ops) by (apply (bool_decide_unpack _); vm_compute; exact I).
  split; [exact Hinv |]. split; [exact Hlive |].
  destruct (@tree_invariant_preserved front_impl h ops Hinv Hlive) as (h' & E & Hup & Huniq & _).
  exists h'. auto.
Defined.

(** ** Raising events *)

Section event_facts.
Context `{UnorderedSetImpl}.

Lemma uset_insert_empty (x : ptr) : uset.insert x [] = [x].
Proof.
  unfold uset.insert. destruct (decide (x ∈ [])) as [Hin|_].
  - inversion Hin.
  - apply Permutation_singleton_r, bucket_insert_perm.
Qed.

Lemma uset_insert_second (x y : ptr) :
  x <> y -> uset.insert x [y] = [y; x] \/ uset.insert x [y] = [x; y].
Proof.
  intros Hne. unfold uset.insert. destruct (decide (x ∈ [y])) as [Hin|_].
  - apply list_elem_of_singleton in Hin. contradiction.
  - pose proof (bucket_insert_perm x [y]) as Hperm.
    symmetry in Hperm. apply Permutation_length_2_inv in Hperm. tauto.
Qed.

(** [AddChild] of a child that has no parent yet. *)
Lemma AddChild_detached (h : heap) (p c : ptr) (op oc : GameObject.t) :
  h !! p = Some op -> h !! c = Some oc -> p <> c ->
  GameObject.__parent oc = None ->
  AddChild p (Some c) h =
    Some (<[p := GameObject.with_childs (uset.insert c (GameObject.__childs op)) op]>
            (<[c := GameObject.with_parent (Some p) oc]> h)).
Proof.
  intros Hp Hc Hne Hroot.
  unfold AddChild, SetParent, SetParent_erase_old. rewrite Hc. simpl.
  rewrite Hroot. simpl. unfold SetParent_assign. rewrite Hc. simpl.
  rewrite lookup_insert_ne by congruence. rewrite Hp. reflexivity.
Qed.

(** The store of the update scenario: the child set of R holds B and C in
    one of the two possible iteration orders. *)
Lemma update_scenario_store (r b c d : ptr) :
  NoDup [r; b; c; d] ->
  exists h kids,
    update_scenario r b c d = Some h
    /\ (kids = [b; c] \/ kids = [c; b])
    /\ h !! r = Some (GameObject.with_childs kids GameObject.default)
    /\ h !! b = Some (GameObject.with_childs [d]
                        (GameObject.with_parent (Some r) GameObject.default))
    /\ h !! c = Some (GameObject.with_parent (Some r) GameObject.default)
    /\ h !! d = Some (GameObject.with_parent (Some b) GameObject.default).
Proof.
  intros Hnd.
  assert (r <> b /\ r <> c /\ r <> d /\ b <> c /\ b <> d /\ c <> d)
    as (Hrb & Hrc & Hrd & Hbc & Hbd & Hcd)
    by (rewrite !NoDup_cons, !not_elem_of_cons in Hnd; intuition congruence).
  unfold update_scenario, GameObject_new.
  rewrite (AddChild_detached _ r b GameObject.default GameObject.default);
    [|by simplify_map_eq..|done|done].
  cbn [mbind option_bind GameObject.__childs GameObject.default].
  rewrite uset_insert_empty.
  rewrite (AddChild_detached _ r c (GameObject.with_childs [b] GameObject.default)
             GameObject.default);
    [|by simplify_map_eq..|done|done].
  cbn [mbind option_bind GameObject.__childs GameObject.with_childs].
  rewrite (AddChild_detached _ b d (GameObject.with_parent (Some r) GameObject.default)
             GameObject.default);
    [|by simplify_map_eq..|done|done].
  cbn [mbind option_bind GameObject.__childs GameObject.with_parent GameObject.default].
  rewrite uset_insert_empty.
  eexists _, (uset.insert c [b]). split; [reflexivity |].
  split; [apply uset_insert_second; congruence |].
  repeat split; by simplify_map_eq.
Qed.

(** C2 (amended). In the scenario tree, R.RaiseUpdateEvent(true) returns
    and runs the update hooks depth-first: R first, and D directly after
    B, before any other sibling. B and C are visited in the iteration
    order of R's unordered child set, which the insertion order does not
    determine: the order is R, B, D, C or R, C, B, D. *)
Theorem update_order_depth_first (r b c d : ptr) :
  NoDup [r; b; c; d] ->
  exists h order,
    update_scenario r b c d = Some h
    /\ (order = [r; b; d; c] \/ order = [r; c; b; d])
    /\ forall n,
         RaiseUpdateEvent (3 + n) h r true = Some (flat_map own_update order)
         /\ update_order <$> RaiseUpdateEvent (3 + n) h r true = Some order.
Proof.
  intros Hnd.
  destruct (update_scenario_store r b c d Hnd) as (h & kids & E & Hk & Lr & Lb & Lc & Ld).
  destruct Hk as [-> | ->];
    [exists h, [r; b; d; c] | exists h, [r; c; b; d]];
    (split; [exact E |]); (split; [auto |]);
    intros n; change (3 + n)%nat with (S (S (S n)));
    simpl; rewrite Lr; simpl; rewrite Lb, Lc; simpl; rewrite Ld; simpl;
    split; reflexivity.
Qed.

Lemma not_elem_of_for_each_script (hook : ptr -> Hook) (e : Hook) (l : list (N * option ptr)) :
  (forall s, hook s <> e) -> e ∉ for_each_script hook l.
Proof.
  intros Hne Hin. unfold for_each_script in Hin.
  apply list_elem_of_omap in Hin as ([k [s|]] & _ & Heq); simpl in Heq; [|discriminate].
  injection Heq as Heq. exact (Hne s Heq).
Qed.

(** C3 (the code at the failing input). A non-recursive RaiseUpdateEvent
    on a live Game Object returns after the Update event: the trace is
    the scripts' OnEarlyUpdate, the object's OnUpdate, the scripts'
    OnUpdate and the Update event, and no script's OnLateUpdate is in
    it, whereas the recursive call ends with the scripts' OnLateUpdate. *)
Theorem RaiseUpdateEvent_not_recursive_no_late
    (n : nat) (h : heap) (this : ptr) (o : GameObject.t) :
  h !! this = Some o ->
  let early := for_each_script (fun s => Script_OnEarlyUpdate s this) (GameObject.__scripts o) in
  let self :=
    GameObject_OnUpdate this
      :: for_each_script (fun s => Script_OnUpdate s this) (GameObject.__scripts o)
      ++ [UpdateEvent_Call this] in
  let late := for_each_script (fun s => Script_OnLateUpdate s this) (GameObject.__scripts o) in
  RaiseUpdateEvent (S n) h this false = Some (early ++ self)
  /\ (forall s t, Script_OnLateUpdate s t ∉ early ++ self)
  /\ RaiseUpdateEvent (S n) h this true =
       (kids ← mapM (fun child => RaiseUpdateEvent n h child true) (GameObject.__childs o);
        Some (early ++ self ++ concat kids ++ late)).
Proof.
  intros Ho early self late. simpl. rewrite Ho. simpl.
  split; [reflexivity |]. split; [|reflexivity].
  intros s t. subst early self.
  rewrite elem_of_app, elem_of_cons, elem_of_app, list_elem_of_singleton.
  intros [Hin|[Heq|[Hin|Heq]]]; try discriminate.
  - revert Hin. apply not_elem_of_for_each_script. discriminate.
  - revert Hin. apply not_elem_of_for_each_script. discriminate.
Qed.


End event_facts.

(** C2 (as stated) fails: with a child set that links a new element in
    front of the others, B is added before C and yet the update hooks run
    in the order R, C, B, D. *)
Lemma update_order_not_insertion_order :
  exists h,
    @update_scenario front_impl 1 2 3 4 = Some h
    /\ update_order <$> RaiseUpdateEvent 3 h 1 true = Some [1; 3; 2; 4]%positive
    /\ update_order <$> RaiseUpdateEvent 3 h 1 true <> Some [1; 2; 4; 3]%positive.
Proof.
  eexists. split; [vm_compute; reflexivity |].
  split; [vm_compute; reflexivity | vm_compute; discriminate].
Qed.

(** The theorem at four concrete addresses, with a child set that iterates
    in insertion order. *)
Lemma update_order_depth_first_witness :
  NoDup [1; 2; 3; 4]%positive
  /\ exists h order,
      @update_scenario back_impl 1 2 3 4 = Some h
      /\ (order = [1; 2; 4; 3]%positive \/ order = [1; 3; 2; 4]%positive)
      /\ forall n,
           RaiseUpdateEvent (3 + n) h 1 true = Some (flat_map own_update order)
           /\ update_order <$> RaiseUpdateEvent (3 + n) h 1 true = Some order.
Proof.
  assert (Hnd : NoDup [1; 2; 3; 4]%positive) by (apply (bool_decide_unpack _); vm_compute; exact I).
  split; [exact Hnd |].
  exact (@update_order_depth_first back_impl 1 2 3 4 Hnd).
Defined.


(** The failing input: one Game Object with one script, raised with
    [recursive = false]. *)
Lemma RaiseUpdateEvent_not_recursive_no_late_witness :
  RaiseUpdateEvent 1 (<[1%positive := GameObject.with_scripts [(7%N, Some 9%positive)] GameObject.default]> ∅) 1 false
  = Some [Script_OnEarlyUpdate 9 1; GameObject_OnUpdate 1; Script_OnUpdate 9 1; UpdateEvent_Call 1].
Proof.
  apply (RaiseUpdateEvent_not_recursive_no_late 0
           (<[1%positive := GameObject.with_scripts [(7%N, Some 9%positive)] GameObject.default]> ∅)
           1 (GameObject.with_scripts [(7%N, Some 9%positive)] GameObject.default)).
  reflexivity.
Defined.

(** ** Scenes and layers *)

Lemma join_lookup_unique (l : list (list ptr)) (i j : nat) (a b : list ptr) (o : ptr) :
  NoDup (mjoin l) -> l !! i = Some a -> l !! j = Some b -> o ∈ a -> o ∈ b -> i = j.
Proof.
  revert i j. induction l as [|x l IH]; intros i j Hnd Hi Hj Ha Hb; [discriminate |].
  simpl in Hnd. apply NoDup_app in Hnd as (_ & Hdisj & Hl).
  assert (Hin : forall k c, l !! k = Some c -> o ∈ c -> o ∈ mjoin l).
  { intros k c Hk Hc. apply list_elem_of_join. exists c. split; [exact Hc |].
    apply list_elem_of_lookup. eauto. }
  destruct i as [|i], j as [|j]; simpl in Hi, Hj.
  - reflexivity.
  - injection Hi as <-. exfalso. exact (Hdisj o Ha (Hin j b Hj Hb)).
  - injection Hj as <-. exfalso. exact (Hdisj o Hb (Hin i a Hi Ha)).
  - f_equal. eauto.
Qed.

Lemma join_delete (l : list (list ptr)) (k : nat) (x : list ptr) :
  l !! k = Some x -> mjoin l ≡ₚ x ++ mjoin (delete k l).
Proof. intros Hk. rewrite (delete_Permutation l k x Hk) at 1. reflexivity. Qed.

Lemma join_insert (l : list (list ptr)) (k : nat) (x y : list ptr) :
  l !! k = Some x -> mjoin (<[k := y]> l) ≡ₚ y ++ mjoin (delete k l).
Proof.
  intros Hk. assert (Hlt : (k < length l)%nat) by (apply lookup_lt_is_Some; eauto).
  rewrite insert_take_drop by exact Hlt. rewrite delete_take_drop.
  rewrite !join_app. simpl. rewrite !(assoc app).
  apply Permutation_app_tail, Permutation_app_comm.
Qed.

Lemma join_erase (o : ptr) (l : list (list ptr)) :
  mjoin (uset.erase o <$> l) = uset.erase o (mjoin l).
Proof.
  induction l as [|x l IH]; [reflexivity |].
  csimpl. rewrite IH. unfold uset.erase. rewrite filter_app. reflexivity.
Qed.

Lemma join_clear (l : list (list ptr)) : mjoin ((fun _ => []) <$> l) = @nil ptr.
Proof. induction l as [|x l IH]; [reflexivity | exact IH]. Qed.

Lemma NoDup_join_delete (l : list (list ptr)) (k : nat) :
  NoDup (mjoin l) -> NoDup (mjoin (delete k l)).
Proof.
  intros Hnd. destruct (l !! k) as [x|] eqn:Hk.
  - rewrite (join_delete l k x Hk) in Hnd. apply NoDup_app in Hnd. tauto.
  - rewrite delete_take_drop. rewrite drop_ge, take_ge.
    + rewrite app_nil_r. exact Hnd.
    + apply lookup_ge_None. exact Hk.
    + apply lookup_ge_None in Hk. lia.
Qed.

Lemma NoDup_join_insert_nil (l : list (list ptr)) (k : nat) :
  NoDup (mjoin l) -> NoDup (mjoin (<[k := []]> l)).
Proof.
  intros Hnd. destruct (l !! k) as [x|] eqn:Hk.
  - rewrite (join_insert l k x [] Hk). simpl. apply NoDup_join_delete. exact Hnd.
  - rewrite list_insert_ge; [exact Hnd |]. apply lookup_ge_None. exact Hk.
Qed.

Section scene_facts.
Context `{UnorderedSetImpl}.

Lemma uset_insert_perm (x : ptr) (l : list ptr) : x ∉ l -> uset.insert x l ≡ₚ x :: l.
Proof.
  intros Hx. unfold uset.insert. destruct (decide (x ∈ l)); [contradiction |].
  apply bucket_insert_perm.
Qed.

Lemma out_of_range_false (i : Z) (size : nat) :
  out_of_range i size = false <-> 0 <= i < Z.of_nat size.
Proof. unfold out_of_range. rewrite orb_false_iff. lia. Qed.

Lemma curr_layer_in_range (layer : Z) (size : nat) :
  size <> 0%nat -> 0 <= GameScene.curr_layer layer size < Z.of_nat size.
Proof.
  intros Hsize. unfold GameScene.curr_layer.
  destruct (out_of_range layer size) eqn:Hr; [lia |].
  apply out_of_range_false. exact Hr.
Qed.

(** [Add] of a Game Object: defined on a scene with a layer, keeps the
    invariant, and leaves the object in the target layer only. *)
Lemma Add_spec (o : ptr) (layer : Z) (s : GameScene.t) :
  scene_inv s ->
  exists s',
    GameScene.Add (Some o) layer s = Some s'
    /\ scene_inv s'
    /\ forall i, GameScene.IsLayerContain (Some o) i s' = true
                 <-> i = GameScene.curr_layer layer (GameScene.CountLayer s).
Proof.
  intros [Hne Hnd]. destruct s as [l]. simpl in *.
  unfold GameScene.Add, GameScene.CountLayer. simpl.
  assert (Hlen : length l <> 0%nat) by (destruct l; [contradiction | discriminate]).
  pose proof (curr_layer_in_range layer (length l) Hlen) as Hrange.
  set (target := GameScene.curr_layer layer (length l)) in *.
  assert (HT : (Z.to_nat target < length l)%nat) by lia.
  destruct (lookup_lt_is_Some_2 l _ HT) as [a Ha].
  assert (He : (uset.erase o <$> l) !! Z.to_nat target = Some (uset.erase o a)).
  { rewrite list_lookup_fmap, Ha. reflexivity. }
  unfold vector_at. destruct (target <? 0) eqn:Hneg; [lia |].
  rewrite He. simpl. eexists. split; [reflexivity |]. split; [split |].
  - simpl. intros Hnil. apply (f_equal length) in Hnil.
    rewrite length_insert, length_fmap in Hnil. contradiction.
  - simpl. rewrite (join_insert _ _ _ _ He).
    rewrite uset_insert_perm by (rewrite elem_of_uset_erase; tauto).
    simpl. rewrite <- (join_delete _ _ _ He), join_erase.
    apply NoDup_cons. split.
    + rewrite elem_of_uset_erase. tauto.
    + apply NoDup_uset_erase. exact Hnd.
  - intros i. unfold GameScene.IsLayerContain. simpl.
    rewrite length_insert, length_fmap.
    destruct (out_of_range i (length l)) eqn:Hi.
    { split; [discriminate |]. intros ->.
      apply out_of_range_false in Hrange. congruence. }
    apply out_of_range_false in Hi. unfold vector_at.
    destruct (i <? 0) eqn:Hineg; [lia |].
    destruct (decide (Z.to_nat i = Z.to_nat target)) as [Heq|Hneq].
    + rewrite Heq, list_lookup_insert_eq by (rewrite length_fmap; exact HT).
      simpl. unfold uset.contains. rewrite bool_decide_eq_true, elem_of_uset_insert.
      split; [intros _; lia | auto].
    + rewrite list_lookup_insert_ne by congruence. rewrite list_lookup_fmap.
      split; [|intros ->; contradiction].
      destruct (l !! Z.to_nat i) as [b|]; simpl; [|discriminate].
      unfold uset.contains. rewrite bool_decide_eq_true, elem_of_uset_erase. tauto.
Qed.

Lemma run_scene_op_spec (op : SceneOp) (s : GameScene.t) :
  scene_inv s -> exists s', run_scene_op op s = Some s' /\ scene_inv s'.
Proof.
  intros Hinv. destruct op as [[o|] layer|[o|]|i| |i|i]; simpl.
  - destruct (Add_spec o layer s Hinv) as (s' & ? & ? & _). eauto.
  - eauto.
  - eexists. split; [reflexivity |]. destruct Hinv as [Hne Hnd]. split; simpl.
    + destruct (GameScene.__layers s); [contradiction | discriminate].
    + rewrite join_erase. apply NoDup_uset_erase. exact Hnd.
  - eauto.
  - eexists. split; [reflexivity |]. unfold GameScene.ClearLayer.
    destruct (out_of_range i _); [exact Hinv |].
    destruct Hinv as [Hne Hnd]. split; simpl.
    + intros Hnil. apply (f_equal length) in Hnil. rewrite length_insert in Hnil.
      destruct (GameScene.__layers s); [contradiction | discriminate].
    + apply NoDup_join_insert_nil. exact Hnd.
  - eexists. split; [reflexivity |]. destruct Hinv as [Hne Hnd]. split; simpl.
    + destruct (GameScene.__layers s); [contradiction | discriminate].
    + rewrite join_clear. constructor.
  - eexists. split; [reflexivity |]. destruct Hinv as [Hne Hnd]. split; simpl.
    + intros Hnil. apply app_eq_nil in Hnil as [_ ?]. discriminate.
    + rewrite join_app. simpl. rewrite <- join_app, take_drop. exact Hnd.
  - eexists. split; [reflexivity |]. destruct Hinv as [Hne Hnd].
    unfold GameScene.RemoveLayer.
    destruct (Nat.eqb (length (GameScene.__layers s)) 1) eqn:Hone; split; simpl.
    + intros Hnil. apply (f_equal length) in Hnil. rewrite length_insert in Hnil.
      destruct (GameScene.__layers s); [contradiction | discriminate].
    + apply NoDup_join_insert_nil. exact Hnd.
    + apply Nat.eqb_neq in Hone. intros Hnil. apply (f_equal length) in Hnil.
      destruct (GameScene.__layers s) as [|x [|y l]]; [contradiction | contradiction |].
      rewrite delete_take_drop in Hnil. simpl in Hnil.
      destruct (Z.to_nat _); simpl in Hnil; discriminate.
    + apply NoDup_join_delete. exact Hnd.
Qed.

Lemma run_scene_ops_spec (ops : list SceneOp) (s : GameScene.t) :
  scene_inv s -> exists s', run_scene_ops ops s = Some s' /\ scene_inv s'.
Proof.
  revert s. induction ops as [|op ops IH]; intros s Hinv; [eauto |].
  destruct (run_scene_op_spec op s Hinv) as (s1 & E1 & I1).
  destruct (IH s1 I1) as (s' & E' & I').
  exists s'. simpl. rewrite E1. simpl. auto.
Qed.

Lemma IsLayerContain_lookup (o : ptr) (i : Z) (s : GameScene.t) :
  GameScene.IsLayerContain (Some o) i s = true ->
  0 <= i /\ exists a, GameScene.__layers s !! Z.to_nat i = Some a /\ o ∈ a.
Proof.
  unfold GameScene.IsLayerContain.
  destruct (out_of_range i _) eqn:Hi; [discriminate |].
  apply out_of_range_false in Hi. unfold vector_at.
  destruct (i <? 0) eqn:Hneg; [lia |].
  destruct (GameScene.__layers s !! Z.to_nat i) as [a|]; simpl; [|discriminate].
  unfold uset.contains. rewrite bool_decide_eq_true. intros Ho.
  split; [lia | eauto].
Qed.

Lemma scene_inv_unique (s : GameScene.t) (o : ptr) (i j : Z) :
  scene_inv s ->
  GameScene.IsLayerContain (Some o) i s = true ->
  GameScene.IsLayerContain (Some o) j s = true -> i = j.
Proof.
  intros [_ Hnd] (Hi & a & Ha & Hoa)%IsLayerContain_lookup
    (Hj & b & Hb & Hob)%IsLayerContain_lookup.
  pose proof (join_lookup_unique _ _ _ _ _ _ Hnd Ha Hb Hoa Hob). lia.
Qed.

(** C8. From a scene that satisfies the scene invariant (a constructed
    scene does), every sequence of Add / Remove / ClearLayer calls (and of
    Clear / AddLayer / RemoveLayer calls) is defined and leads to a scene
    in which no Game Object is in two layers; and a further Add(obj,
    layer) is defined and leaves the object in exactly one layer: the
    layer [layer] when 0 <= layer < CountLayer(), the last layer
    otherwise. *)
Theorem scene_object_in_one_layer (s : GameScene.t) (ops : list SceneOp) :
  scene_inv s ->
  exists s',
    run_scene_ops ops s = Some s'
    /\ (forall o i j,
          GameScene.IsLayerContain (Some o) i s' = true ->
          GameScene.IsLayerContain (Some o) j s' = true -> i = j)
    /\ (forall obj layer,
          exists s'',
            GameScene.Add (Some obj) layer s' = Some s''
            /\ (forall i,
                  GameScene.IsLayerContain (Some obj) i s'' = true
                  <-> i = if decide (0 <= layer < Z.of_nat (GameScene.CountLayer s'))
                          then layer
                          else Z.of_nat (GameScene.CountLayer s') - 1)
            /\ (forall o i j,
                  GameScene.IsLayerContain (Some o) i s'' = true ->
                  GameScene.IsLayerContain (Some o) j s'' = true -> i = j)).
Proof.
  intros Hinv. destruct (run_scene_ops_spec ops s Hinv) as (s' & E & I').
  exists s'. split; [exact E |]. split.
  - intros o i j. apply scene_inv_unique. exact I'.
  - intros obj layer. destruct (Add_spec obj layer s' I') as (s'' & E' & I'' & Hin).
    exists s''. split; [exact E' |]. split.
    + intros i. rewrite Hin. unfold GameScene.curr_layer.
      destruct (out_of_range layer (GameScene.CountLayer s')) eqn:Hr;
        destruct (decide (0 <= layer < Z.of_nat (GameScene.CountLayer s'))) as [Hd|Hd];
        try reflexivity.
      * apply out_of_range_false in Hd. unfold GameScene.CountLayer in *. congruence.
      * apply out_of_range_false in Hr. contradiction.
    + intros o i j. apply scene_inv_unique. exact I''.
Qed.
End scene_facts.

(** The theorem at a constructed scene and a run that adds two layers and
    moves an object between layers. *)
Lemma scene_object_in_one_layer_witness :
  scene_inv GameScene.default
  /\ exists s',
      @run_scene_ops front_impl
        [CallAddLayer (-1); CallAddLayer 0; CallAdd (Some 7%positive) 0;
         CallAdd (Some 8%positive) 1; CallAdd (Some 7%positive) 5;
         CallClearLayer 1; CallRemove (Some 7%positive)]
        GameScene.default = Some s'
      /\ (forall o i j,
            GameScene.IsLayerContain (Some o) i s' = true ->
            GameScene.IsLayerContain (Some o) j s' = true -> i = j)
      /\ (forall obj layer,
            exists s'',
              @GameScene.Add front_impl (Some obj) layer s' = Some s''
              /\ (forall i,
                    GameScene.IsLayerContain (Some obj) i s'' = true
                    <-> i = if decide (0 <= layer < Z.of_nat (GameScene.CountLayer s'))
                            then layer
                            else Z.of_nat (GameScene.CountLayer s') - 1)
              /\ (forall o i j,
                    GameScene.IsLayerContain (Some o) i s'' = true ->
                    GameScene.IsLayerContain (Some o) j s'' = true -> i = j)).
Proof.
  assert (Hinv : scene_inv GameScene.default)
    by (apply (bool_decide_unpack _); vm_compute; exact I).
  split; [exact Hinv |].
  exact (@scene_object_in_one_layer front_impl GameScene.default _ Hinv).
Defined.

(** C10 (the code as written). The condition of [Count(int)] is the wrong
    way round: for an index inside [0, CountLayer()) the result is 0
    whatever the layer holds, and for a negative or too large index the
    layer storage is indexed out of bounds, which has no defined result.
    With one Game Object in layer 0, [Count(0)] is 0 and [Count(-1)] and
    [Count(1)] index outside the vector. *)
Theorem Count_layer_condition_inverted (s : GameScene.t) (layer_index : Z) :
  GameScene.Count layer_index s =
    (if decide (0 <= layer_index < Z.of_nat (GameScene.CountLayer s))
     then Some 0%nat else None)
  /\ GameScene.Count 0 (GameScene.mk [[7%positive]]) = Some 0%nat
  /\ GameScene.Count (-1) (GameScene.mk [[7%positive]]) = None
  /\ GameScene.Count 1 (GameScene.mk [[7%positive]]) = None.
Proof.
  split; [|repeat split; reflexivity].
  unfold GameScene.Count, GameScene.CountLayer, out_of_range, vector_at.
  destruct (decide (0 <= layer_index < Z.of_nat (length (GameScene.__layers s)))) as [Hin|Hout].
  - destruct (layer_index <? 0) eqn:H1; [lia |].
    destruct (layer_index >=? Z.of_nat (length (GameScene.__layers s))) eqn:H2; [lia |].
    reflexivity.
  - destruct (layer_index <? 0) eqn:H1; [reflexivity |].
    destruct (layer_index >=? Z.of_nat (length (GameScene.__layers s))) eqn:H2; [|lia].
    simpl. rewrite (proj2 (lookup_ge_None _ _)) by lia. reflexivity.
Qed.

(** ** The scene subsystem *)

Section registry_facts.
Context `{UnorderedSetImpl}.

Lemma IsInitialized_false (g : SceneRegistry.t) :
  IsInitialized g = false
  <-> SceneRegistry.__curr_scene g = None \/ SceneRegistry.__created_scenes g = [].
Proof.
  unfold IsInitialized. rewrite andb_false_iff, negb_false_iff.
  rewrite bool_decide_eq_false, bool_decide_eq_true.
  rewrite <- eq_None_not_Some. reflexivity.
Qed.

Lemma uset_insert_not_nil (x : ptr) (l : list ptr) : uset.insert x l <> [].
Proof.
  intros Hnil. assert (Hx : x ∈ uset.insert x l) by (apply elem_of_uset_insert; auto).
  rewrite Hnil in Hx. inversion Hx.
Qed.

(** C9. Outside Initialize/Deinitialize, with no current scene or with no
    registered scene, constructing a GameScene throws and leaves the
    registry as it was, while the other static entry points signal
    nothing: GetCurrentScene returns null and SetCurrentScene does
    nothing. When the subsystem is initialized the constructor returns
    and the new scene is registered. The subsystem is initialized after
    Initialize, and is not initialized at program start nor after
    Deinitialize. *)
Theorem GameScene_construct_requires_initialized (this : ptr) (g : SceneRegistry.t) :
  (SceneRegistry.__is_initialize g = false ->
   SceneRegistry.__curr_scene g = None \/ SceneRegistry.__created_scenes g = [] ->
   GameScene_construct this g = Thrown not_initialized_message g
   /\ GetCurrentScene g = None
   /\ forall scene, SetCurrentScene scene g = g)
  /\ (IsInitialized g = true ->
      exists g',
        GameScene_construct this g = Returned g'
        /\ this ∈ SceneRegistry.__created_scenes g'
        /\ (forall x, x ∈ SceneRegistry.__created_scenes g
                      -> x ∈ SceneRegistry.__created_scenes g')
        /\ IsInitialized g' = true)
  /\ (forall fresh,
        fst (Initialize fresh g) = true
        /\ IsInitialized (snd (Initialize fresh g)) = true
        /\ SceneRegistry.__is_initialize (snd (Initialize fresh g)) = false)
  /\ IsInitialized SceneRegistry.initial = false
  /\ SceneRegistry.__is_initialize SceneRegistry.initial = false
  /\ IsInitialized (Deinitialize g) = false
  /\ SceneRegistry.__is_initialize (Deinitialize g) = false.
Proof.
  split; [|split; [|split; [|repeat split; reflexivity]]].
  - intros Hflag Hnot%IsInitialized_false.
    unfold GameScene_construct, GetCurrentScene, SetCurrentScene.
    rewrite Hflag, Hnot. simpl. auto.
  - intros Hinit. unfold GameScene_construct. rewrite Hinit, andb_false_r.
    eexists. split; [reflexivity |]. simpl.
    split; [apply elem_of_uset_insert; auto |].
    split; [intros x Hx; apply elem_of_uset_insert; auto |].
    unfold IsInitialized in *. simpl.
    apply andb_true_iff in Hinit as [-> _]. simpl.
    apply negb_true_iff, bool_decide_eq_false, uset_insert_not_nil.
  - intros fresh. unfold Initialize, GameScene_construct. simpl.
    split; [reflexivity |]. split; [|reflexivity].
    unfold IsInitialized. simpl.
    apply negb_true_iff, bool_decide_eq_false, uset_insert_not_nil.
Qed.
End registry_facts.

(** The theorem at program start, and after [Initialize]. *)
Lemma GameScene_construct_requires_initialized_witness :
  @GameScene_construct front_impl 5 SceneRegistry.initial
    = Thrown not_initialized_message SceneRegistry.initial
  /\ exists g',
      @GameScene_construct front_impl 5 (snd (@Initialize front_impl 4 SceneRegistry.initial))
        = Returned g'
      /\ 5%positive ∈ SceneRegistry.__created_scenes g'.
Proof.
  pose proof (@GameScene_construct_requires_initialized front_impl 5 SceneRegistry.initial)
    as (Hthrow & _).
  pose proof (@GameScene_construct_requires_initialized front_impl 5
                (snd (@Initialize front_impl 4 SceneRegistry.initial)))
    as (_ & Hret & _).
  split.
  - apply Hthrow; [reflexivity | left; reflexivity].
  - destruct (Hret eq_refl) as (g' & E & Hin & _). exists g'. auto.
Defined.

(** ** The animation script *)

Section animation_facts.
Import AnimationScript.
#[local] Open Scope Qc_scope.
















End animation_facts.




(** * Further properties of the modelled code *)

(** ** Engine_Structure.h: rectangles *)

(** Replace the innermost stored values by the mathematical ones, where the
    value provably fits an [int]. *)
Ltac unwrap :=
  repeat match goal with
  | |- context [Int.wrap ?z] =>
      lazymatch z with context [Int.wrap _] => fail | _ => idtac end;
      rewrite (wrap_in_range z) by (unfold Int.in_range, Int.half_modulus; lia)
  end.

Ltac unfold_sides :=
  unfold Rectangle.LeftSide, Rectangle.RightSide, Rectangle.TopSide, Rectangle.BottomSide,
    Int.add, Int.sub in *.

(** The sides of a rectangle without the stored-value wrapping. *)
Lemma small_sides (r : Rectangle.t) :
  Rectangle.small_rect r ->
  Rectangle.LeftSide r = (if Rectangle.Width r <? 0
                          then Rectangle.X r + Rectangle.Width r + 1 else Rectangle.X r)
  /\ Rectangle.RightSide r = (if Rectangle.Width r >? 0
                              then Rectangle.X r + Rectangle.Width r - 1 else Rectangle.X r)
  /\ Rectangle.TopSide r = (if Rectangle.Height r <? 0
                            then Rectangle.Y r + Rectangle.Height r + 1 else Rectangle.Y r)
  /\ Rectangle.BottomSide r = (if Rectangle.Height r >? 0
                               then Rectangle.Y r + Rectangle.Height r - 1 else Rectangle.Y r).
Proof.
  unfold Rectangle.small_rect, Rectangle.small. intros (HX & HY & HW & HH).
  unfold_sides. repeat split;
    match goal with |- (if ?c then _ else _) = _ => destruct c end;
    try reflexivity; unwrap; reflexivity.
Qed.

(** X1. For a rectangle far from the [int] limits, whatever the signs of
    its width and height: the left side is not right of the right side and
    the top side is not below the bottom side; the rectangle spans |Width|
    columns and |Height| rows, but one column or row when that dimension is
    0; and it contains its own position point, even when its area is
    empty. *)
Theorem Rectangle_sides_ordered (r : Rectangle.t) :
  Rectangle.small_rect r ->
  Rectangle.LeftSide r <= Rectangle.RightSide r
  /\ Rectangle.TopSide r <= Rectangle.BottomSide r
  /\ Rectangle.RightSide r - Rectangle.LeftSide r + 1 = Z.max (Z.abs (Rectangle.Width r)) 1
  /\ Rectangle.BottomSide r - Rectangle.TopSide r + 1 = Z.max (Z.abs (Rectangle.Height r)) 1
  /\ Rectangle.IsContain r (Rectangle.GetPosition r) = true.
Proof.
  intros Hs. destruct (small_sides r Hs) as (HL & HR & HT & HB).
  unfold Rectangle.IsContain, Rectangle.GetPosition. simpl.
  rewrite HL, HR, HT, HB.
  destruct (Z.ltb_spec (Rectangle.Width r) 0), (Z.gtb_spec (Rectangle.Width r) 0),
    (Z.ltb_spec (Rectangle.Height r) 0), (Z.gtb_spec (Rectangle.Height r) 0);
    try lia; (repeat split; try lia);
    rewrite !andb_true_iff; repeat split; lia.
Qed.

Lemma Rectangle_sides_ordered_witness :
  Rectangle.LeftSide (Rectangle.mk 10 4 (-5) 0) <= Rectangle.RightSide (Rectangle.mk 10 4 (-5) 0)
  /\ Rectangle.IsContain (Rectangle.mk 10 4 (-5) 0) (Point.mk 10 4) = true.
Proof.
  assert (Hs : Rectangle.small_rect (Rectangle.mk 10 4 (-5) 0))
    by (unfold Rectangle.small_rect, Rectangle.small; simpl; lia).
  destruct (Rectangle_sides_ordered _ Hs) as (H1 & _ & _ & _ & H5). split; assumption.
Defined.

(** X2. Local and global positions convert back and forth: for a point
    whose coordinates fit an [int], [GlobalToLocal] undoes
    [LocalToGlobal] and [LocalToGlobal] undoes [GlobalToLocal], for every
    rectangle (also when the intermediate sum wraps around). *)
Theorem LocalToGlobal_GlobalToLocal_inverse (r : Rectangle.t) (p : Point.t) :
  Int.in_range (Point.X p) -> Int.in_range (Point.Y p) ->
  Rectangle.GlobalToLocal r (Rectangle.LocalToGlobal_point r p) = p
  /\ Rectangle.LocalToGlobal_point r (Rectangle.GlobalToLocal r p) = p.
Proof.
  intros Hx Hy. destruct p as [x y].
  unfold Rectangle.GlobalToLocal, Rectangle.LocalToGlobal_point. simpl in *.
  assert (Hback : forall a b, Int.in_range a -> Int.sub (Int.add a b) b = a).
  { intros a b Ha. unfold Int.sub, Int.add.
    replace (Int.wrap (a + b) - b) with (Int.wrap (a + b) + (- b)) by lia.
    rewrite wrap_add_l. replace (a + b + - b) with a by lia. apply wrap_in_range, Ha. }
  assert (Hforth : forall a b, Int.in_range a -> Int.add (Int.sub a b) b = a).
  { intros a b Ha. unfold Int.sub, Int.add.
    rewrite wrap_add_l. replace (a - b + b) with a by lia. apply wrap_in_range, Ha. }
  rewrite !Hback, !Hforth by assumption. auto.
Qed.

Lemma LocalToGlobal_GlobalToLocal_inverse_witness :
  Rectangle.GlobalToLocal (Rectangle.mk 10 4 (-5) 7)
    (Rectangle.LocalToGlobal_point (Rectangle.mk 10 4 (-5) 7) (Point.mk 3 (-2)))
  = Point.mk 3 (-2).
Proof.
  apply (LocalToGlobal_GlobalToLocal_inverse (Rectangle.mk 10 4 (-5) 7) (Point.mk 3 (-2)));
    unfold Int.in_range, Int.half_modulus; simpl; lia.
Defined.

Lemma small_sides_bounds (r : Rectangle.t) :
  Rectangle.small_rect r ->
  Rectangle.LeftSide r <= Rectangle.RightSide r
  /\ Rectangle.TopSide r <= Rectangle.BottomSide r
  /\ - 2 ^ 29 <= Rectangle.LeftSide r /\ Rectangle.RightSide r <= 2 ^ 29
  /\ - 2 ^ 29 <= Rectangle.TopSide r /\ Rectangle.BottomSide r <= 2 ^ 29.
Proof.
  intros Hs. destruct (small_sides r Hs) as (HL & HR & HT & HB).
  destruct Hs as (HX & HY & HW & HH). unfold Rectangle.small in *.
  rewrite HL, HR, HT, HB.
  destruct (Z.ltb_spec (Rectangle.Width r) 0), (Z.gtb_spec (Rectangle.Width r) 0),
    (Z.ltb_spec (Rectangle.Height r) 0), (Z.gtb_spec (Rectangle.Height r) 0); lia.
Qed.

(** Containment in a rectangle built from its four sides, the left and top
    ones stored as position and the extent as a positive size. *)
Lemma IsContain_of_sides (l t r b : Z) (p : Point.t) :
  l <= r -> t <= b -> - 2 ^ 29 <= l -> r <= 2 ^ 29 -> - 2 ^ 29 <= t -> b <= 2 ^ 29 ->
  Rectangle.IsContain
    (Rectangle.mk l t (Int.add (Int.sub r l) 1) (Int.add (Int.sub b t) 1)) p
  = (Point.X p >=? l) && (Point.X p <=? r) && (Point.Y p >=? t) && (Point.Y p <=? b).
Proof.
  intros. unfold Rectangle.IsContain. unfold_sides. simpl. unwrap.
  destruct (Z.ltb_spec (r - l + 1) 0), (Z.gtb_spec (r - l + 1) 0),
    (Z.ltb_spec (b - t + 1) 0), (Z.gtb_spec (b - t + 1) 0); lia.
Qed.

Lemma IsContain_iff (r : Rectangle.t) (p : Point.t) :
  Rectangle.IsContain r p = true
  <-> Rectangle.LeftSide r <= Point.X p <= Rectangle.RightSide r
      /\ Rectangle.TopSide r <= Point.Y p <= Rectangle.BottomSide r.
Proof. unfold Rectangle.IsContain. rewrite !andb_true_iff. lia. Qed.

(** X3. For two rectangles with non-empty area, far from the [int]
    limits, in any orientation: when they share a point, [Intersect]
    returns the rectangle that contains exactly the points contained in
    both; when they share none, it returns [Rectangle::Empty]. *)
Theorem Intersect_contains_common_points (r1 r2 : Rectangle.t) :
  Rectangle.small_rect r1 -> Rectangle.small_rect r2 ->
  Rectangle.IsEmptyArea r1 = false -> Rectangle.IsEmptyArea r2 = false ->
  ((exists q, Rectangle.IsContain r1 q = true /\ Rectangle.IsContain r2 q = true) ->
   forall p, Rectangle.IsContain (Rectangle.Intersect r1 r2) p
             = Rectangle.IsContain r1 p && Rectangle.IsContain r2 p)
  /\ ((forall q, Rectangle.IsContain r1 q = true -> Rectangle.IsContain r2 q = false) ->
      Rectangle.Intersect r1 r2 = Rectangle.Empty).
Proof.
  intros Hs1 Hs2 He1 He2.
  pose proof (small_sides_bounds r1 Hs1) as (? & ? & ? & ? & ? & ?).
  pose proof (small_sides_bounds r2 Hs2) as (? & ? & ? & ? & ? & ?).
  unfold Rectangle.Intersect. rewrite He1, He2. cbn [orb].
  unfold Rectangle.TopLeft, Rectangle.BottomRight. cbn [Point.X Point.Y].
  set (l1 := Rectangle.LeftSide r1) in *. set (t1 := Rectangle.TopSide r1) in *.
  set (x1 := Rectangle.RightSide r1) in *. set (b1 := Rectangle.BottomSide r1) in *.
  set (l2 := Rectangle.LeftSide r2) in *. set (t2 := Rectangle.TopSide r2) in *.
  set (x2 := Rectangle.RightSide r2) in *. set (b2 := Rectangle.BottomSide r2) in *.
  assert (HM : forall a b, Rectangle.ENGINE_MAX a b = Z.max a b).
  { intros a b. unfold Rectangle.ENGINE_MAX. destruct (Z.gtb_spec b a); lia. }
  assert (Hm : forall a b, Rectangle.ENGINE_MIN a b = Z.min a b).
  { intros a b. unfold Rectangle.ENGINE_MIN. destruct (Z.ltb_spec b a); lia. }
  rewrite !HM, !Hm. split.
  - intros (q & Hq1 & Hq2). apply IsContain_iff in Hq1, Hq2.
    fold l1 t1 x1 b1 in Hq1. fold l2 t2 x2 b2 in Hq2.
    destruct (Z.ltb_spec (Z.min x1 x2) (Z.max l1 l2)); [lia |].
    destruct (Z.ltb_spec (Z.min b1 b2) (Z.max t1 t2)); [lia |]. cbn [orb].
    intros p. rewrite IsContain_of_sides by lia.
    apply Bool.eq_iff_eq_true. rewrite (andb_true_iff (Rectangle.IsContain r1 p)).
    rewrite !IsContain_iff. fold l1 t1 x1 b1 l2 t2 x2 b2. lia.
  - intros Hno.
    destruct (Z.ltb_spec (Z.min x1 x2) (Z.max l1 l2)); [reflexivity |].
    destruct (Z.ltb_spec (Z.min b1 b2) (Z.max t1 t2)); [reflexivity |].
    exfalso.
    specialize (Hno (Point.mk (Z.max l1 l2) (Z.max t1 t2))).
    assert (Hin : Rectangle.IsContain r1 (Point.mk (Z.max l1 l2) (Z.max t1 t2)) = true).
    { apply IsContain_iff. simpl. fold l1 t1 x1 b1. lia. }
    apply Hno in Hin. apply not_true_iff_false in Hin. apply Hin.
    apply IsContain_iff. simpl. fold l2 t2 x2 b2. lia.
Qed.

Lemma Intersect_contains_common_points_witness :
  Rectangle.IsContain
    (Rectangle.Intersect (Rectangle.mk 10 10 (-6) 4) (Rectangle.mk 7 12 5 (-3)))
    (Point.mk 8 11)
  = Rectangle.IsContain (Rectangle.mk 10 10 (-6) 4) (Point.mk 8 11)
    && Rectangle.IsContain (Rectangle.mk 7 12 5 (-3)) (Point.mk 8 11).
Proof.
  assert (H1 : Rectangle.small_rect (Rectangle.mk 10 10 (-6) 4))
    by (unfold Rectangle.small_rect, Rectangle.small; simpl; lia).
  assert (H2 : Rectangle.small_rect (Rectangle.mk 7 12 5 (-3)))
    by (unfold Rectangle.small_rect, Rectangle.small; simpl; lia).
  assert (Hq : exists q, Rectangle.IsContain (Rectangle.mk 10 10 (-6) 4) q = true
                         /\ Rectangle.IsContain (Rectangle.mk 7 12 5 (-3)) q = true)
    by (exists (Point.mk 8 11); split; reflexivity).
  exact (proj1 (Intersect_contains_common_points _ _ H1 H2 eq_refl eq_refl) Hq (Point.mk 8 11)).
Defined.

Lemma ENGINE_MAX_max (a b : Z) : Rectangle.ENGINE_MAX a b = Z.max a b.
Proof. unfold Rectangle.ENGINE_MAX. destruct (Z.gtb_spec b a); lia. Qed.

Lemma ENGINE_MIN_min (a b : Z) : Rectangle.ENGINE_MIN a b = Z.min a b.
Proof. unfold Rectangle.ENGINE_MIN. destruct (Z.ltb_spec b a); lia. Qed.

Lemma FromTwoPoint_IsContain (a b p : Point.t) :
  Rectangle.small_point a -> Rectangle.small_point b ->
  Rectangle.IsContain (Rectangle.FromTwoPoint a b) p
  = (Point.X p >=? Z.min (Point.X a) (Point.X b))
    && (Point.X p <=? Z.max (Point.X a) (Point.X b))
    && (Point.Y p >=? Z.min (Point.Y a) (Point.Y b))
    && (Point.Y p <=? Z.max (Point.Y a) (Point.Y b)).
Proof.
  unfold Rectangle.small_point, Rectangle.small. intros [Hax Hay] [Hbx Hby].
  rewrite <- (IsContain_of_sides _ _ _ _ p) by lia.
  unfold Rectangle.FromTwoPoint. rewrite !ENGINE_MIN_min.
  f_equal. f_equal; unfold Int.abs, Int.neg, Int.add, Int.sub; unwrap.
  - destruct (Z.ltb_spec (Point.X b - Point.X a) 0); unwrap; f_equal; lia.
  - destruct (Z.ltb_spec (Point.Y b - Point.Y a) 0); unwrap; f_equal; lia.
Qed.

(** X4. For two points far from the [int] limits, [FromTwoPoint] is the
    bounding box of the two points: it contains exactly the points between
    them on both axes, so it contains both points, it does not depend on
    the order of the two, and its area is never empty (for equal points it
    is the 1x1 rectangle at that point). *)
Theorem FromTwoPoint_bounding_box (a b : Point.t) :
  Rectangle.small_point a -> Rectangle.small_point b ->
  (forall p, Rectangle.IsContain (Rectangle.FromTwoPoint a b) p = true
             <-> Z.min (Point.X a) (Point.X b) <= Point.X p <= Z.max (Point.X a) (Point.X b)
                 /\ Z.min (Point.Y a) (Point.Y b) <= Point.Y p <= Z.max (Point.Y a) (Point.Y b))
  /\ Rectangle.IsContain (Rectangle.FromTwoPoint a b) a = true
  /\ Rectangle.IsContain (Rectangle.FromTwoPoint a b) b = true
  /\ Rectangle.FromTwoPoint a b = Rectangle.FromTwoPoint b a
  /\ Rectangle.IsEmptyArea (Rectangle.FromTwoPoint a b) = false.
Proof.
  intros Ha Hb.
  assert (Hc : forall p, Rectangle.IsContain (Rectangle.FromTwoPoint a b) p = true
             <-> Z.min (Point.X a) (Point.X b) <= Point.X p <= Z.max (Point.X a) (Point.X b)
                 /\ Z.min (Point.Y a) (Point.Y b) <= Point.Y p <= Z.max (Point.Y a) (Point.Y b)).
  { intros p. rewrite FromTwoPoint_IsContain by assumption. lia. }
  split; [exact Hc |]. split; [apply Hc; lia |]. split; [apply Hc; lia |].
  unfold Rectangle.small_point, Rectangle.small in *. destruct Ha, Hb.
  unfold Rectangle.FromTwoPoint, Rectangle.IsEmptyArea. rewrite !ENGINE_MIN_min. simpl.
  unfold Int.abs, Int.neg, Int.add, Int.sub. unwrap.
  destruct (Z.ltb_spec (Point.X b - Point.X a) 0), (Z.ltb_spec (Point.X a - Point.X b) 0),
    (Z.ltb_spec (Point.Y b - Point.Y a) 0), (Z.ltb_spec (Point.Y a - Point.Y b) 0);
    unwrap; (split; [f_equal; lia | lia]).
Qed.

Lemma FromTwoPoint_bounding_box_witness :
  Rectangle.FromTwoPoint (Point.mk 7 (-2)) (Point.mk 3 5)
  = Rectangle.FromTwoPoint (Point.mk 3 5) (Point.mk 7 (-2)).
Proof.
  apply (FromTwoPoint_bounding_box (Point.mk 7 (-2)) (Point.mk 3 5));
    unfold Rectangle.small_point, Rectangle.small; simpl; lia.
Defined.

Lemma Union_point_IsContain (r : Rectangle.t) (q p : Point.t) :
  Rectangle.small_rect r -> Rectangle.small_point q ->
  Rectangle.IsEmptyArea r = false ->
  Rectangle.IsContain (Rectangle.Union_point r q) p
  = (Point.X p >=? Z.min (Rectangle.LeftSide r) (Point.X q))
    && (Point.X p <=? Z.max (Rectangle.RightSide r) (Point.X q))
    && (Point.Y p >=? Z.min (Rectangle.TopSide r) (Point.Y q))
    && (Point.Y p <=? Z.max (Rectangle.BottomSide r) (Point.Y q)).
Proof.
  intros Hs Hq He. pose proof (small_sides_bounds r Hs) as (? & ? & ? & ? & ? & ?).
  unfold Rectangle.small_point, Rectangle.small in Hq. destruct Hq.
  unfold Rectangle.Union_point. rewrite He, !ENGINE_MIN_min, !ENGINE_MAX_max.
  apply IsContain_of_sides; lia.
Qed.

(** X5. [Union] of a rectangle and a point, far from the [int] limits: the
    result contains the point and the rectangle's position; when the
    rectangle's area is not empty it is the bounding box of the rectangle
    and the point. When the area is empty the rectangle counts only as its
    position point. *)
Theorem Union_point_bounding_box (r : Rectangle.t) (q : Point.t) :
  Rectangle.small_rect r -> Rectangle.small_point q ->
  Rectangle.IsContain (Rectangle.Union_point r q) q = true
  /\ Rectangle.IsContain (Rectangle.Union_point r q) (Rectangle.GetPosition r) = true
  /\ (Rectangle.IsEmptyArea r = false ->
      forall p, Rectangle.IsContain (Rectangle.Union_point r q) p = true
                <-> Z.min (Rectangle.LeftSide r) (Point.X q) <= Point.X p
                    <= Z.max (Rectangle.RightSide r) (Point.X q)
                    /\ Z.min (Rectangle.TopSide r) (Point.Y q) <= Point.Y p
                       <= Z.max (Rectangle.BottomSide r) (Point.Y q))
  /\ (Rectangle.IsEmptyArea r = true ->
      Rectangle.Union_point r q = Rectangle.FromTwoPoint (Rectangle.GetPosition r) q).
Proof.
  intros Hs Hq.
  assert (Hpos : Rectangle.small_point (Rectangle.GetPosition r)).
  { destruct Hs as (? & ? & _). split; assumption. }
  assert (Hown : Rectangle.IsContain r (Rectangle.GetPosition r) = true).
  { destruct (small_sides r Hs) as (HL & HR & HT & HB).
    apply IsContain_iff. rewrite HL, HR, HT, HB. simpl.
    destruct Hs as (? & ? & ? & ?). unfold Rectangle.small in *.
    destruct (Z.ltb_spec (Rectangle.Width r) 0), (Z.gtb_spec (Rectangle.Width r) 0),
      (Z.ltb_spec (Rectangle.Height r) 0), (Z.gtb_spec (Rectangle.Height r) 0); lia. }
  destruct (Rectangle.IsEmptyArea r) eqn:He.
  - unfold Rectangle.Union_point. rewrite He.
    rewrite !FromTwoPoint_IsContain by assumption.
    split; [lia |]. split; [lia |]. split; [discriminate | reflexivity].
  - apply IsContain_iff in Hown.
    split; [rewrite Union_point_IsContain by assumption; lia |].
    split; [rewrite Union_point_IsContain by assumption; simpl in *; lia |].
    split; [|discriminate].
    intros _ p. rewrite Union_point_IsContain by assumption. lia.
Qed.

Lemma Union_point_bounding_box_witness :
  Rectangle.IsContain (Rectangle.Union_point (Rectangle.mk 4 4 (-3) 2) (Point.mk 9 0))
    (Point.mk 9 0) = true.
Proof.
  assert (Hr : Rectangle.small_rect (Rectangle.mk 4 4 (-3) 2))
    by (unfold Rectangle.small_rect, Rectangle.small; simpl; lia).
  assert (Hq : Rectangle.small_point (Point.mk 9 0))
    by (unfold Rectangle.small_point, Rectangle.small; simpl; lia).
  exact (proj1 (Union_point_bounding_box _ _ Hr Hq)).
Defined.

(** X6. [Union] of two rectangles with non-empty area, far from the [int]
    limits, in any orientation, is their bounding box: it contains exactly
    the points between the outermost sides, hence every point of either
    rectangle. *)
Theorem Union_bounding_box (r1 r2 : Rectangle.t) :
  Rectangle.small_rect r1 -> Rectangle.small_rect r2 ->
  Rectangle.IsEmptyArea r1 = false -> Rectangle.IsEmptyArea r2 = false ->
  (forall p, Rectangle.IsContain (Rectangle.Union r1 r2) p = true
             <-> Z.min (Rectangle.LeftSide r1) (Rectangle.LeftSide r2) <= Point.X p
                 <= Z.max (Rectangle.RightSide r1) (Rectangle.RightSide r2)
                 /\ Z.min (Rectangle.TopSide r1) (Rectangle.TopSide r2) <= Point.Y p
                    <= Z.max (Rectangle.BottomSide r1) (Rectangle.BottomSide r2))
  /\ (forall p, Rectangle.IsContain r1 p = true \/ Rectangle.IsContain r2 p = true ->
                Rectangle.IsContain (Rectangle.Union r1 r2) p = true).
Proof.
  intros Hs1 Hs2 He1 He2.
  pose proof (small_sides_bounds r1 Hs1) as (? & ? & ? & ? & ? & ?).
  pose proof (small_sides_bounds r2 Hs2) as (? & ? & ? & ? & ? & ?).
  assert (Hc : forall p, Rectangle.IsContain (Rectangle.Union r1 r2) p
    = (Point.X p >=? Z.min (Rectangle.LeftSide r1) (Rectangle.LeftSide r2))
      && (Point.X p <=? Z.max (Rectangle.RightSide r1) (Rectangle.RightSide r2))
      && (Point.Y p >=? Z.min (Rectangle.TopSide r1) (Rectangle.TopSide r2))
      && (Point.Y p <=? Z.max (Rectangle.BottomSide r1) (Rectangle.BottomSide r2))).
  { intros p. unfold Rectangle.Union. rewrite He1, He2, !ENGINE_MIN_min, !ENGINE_MAX_max.
    apply IsContain_of_sides; lia. }
  split.
  - intros p. rewrite Hc. lia.
  - intros p Hp. rewrite Hc. rewrite !IsContain_iff in Hp. lia.
Qed.

Lemma Union_bounding_box_witness :
  Rectangle.IsContain
    (Rectangle.Union (Rectangle.mk 4 4 (-3) 2) (Rectangle.mk 10 0 2 (-2))) (Point.mk 11 (-1))
  = true.
Proof.
  assert (H1 : Rectangle.small_rect (Rectangle.mk 4 4 (-3) 2))
    by (unfold Rectangle.small_rect, Rectangle.small; simpl; lia).
  assert (H2 : Rectangle.small_rect (Rectangle.mk 10 0 2 (-2)))
    by (unfold Rectangle.small_rect, Rectangle.small; simpl; lia).
  assert (Hp : Rectangle.IsContain (Rectangle.mk 4 4 (-3) 2) (Point.mk 11 (-1)) = true
               \/ Rectangle.IsContain (Rectangle.mk 10 0 2 (-2)) (Point.mk 11 (-1)) = true)
    by (right; reflexivity).
  exact (proj2 (Union_bounding_box _ _ H1 H2 eq_refl eq_refl) (Point.mk 11 (-1)) Hp).
Defined.

(** X7. [IsContain(const Rectangle&)] tests the two corners only, and that
    decides containment of the whole rectangle: for a rectangle [r] far
    from the [int] limits, the test succeeds exactly when every point of
    [r] is a point of [this]. *)
Theorem IsContain_rect_all_points (this r : Rectangle.t) :
  Rectangle.small_rect r ->
  Rectangle.IsContain_rect this r = true
  <-> forall p, Rectangle.IsContain r p = true -> Rectangle.IsContain this p = true.
Proof.
  intros Hs. pose proof (small_sides_bounds r Hs) as (Hlr & Htb & _).
  unfold Rectangle.IsContain_rect, Rectangle.TopLeft, Rectangle.BottomRight.
  cbn [Point.X Point.Y]. rewrite !andb_true_iff, !Z.geb_le, !Z.leb_le. split.
  - intros Hcorners p Hp. apply IsContain_iff in Hp. apply IsContain_iff. lia.
  - intros Hall.
    assert (Htl : Rectangle.IsContain this
                    (Point.mk (Rectangle.LeftSide r) (Rectangle.TopSide r)) = true).
    { apply Hall, IsContain_iff. simpl. lia. }
    assert (Hbr : Rectangle.IsContain this
                    (Point.mk (Rectangle.RightSide r) (Rectangle.BottomSide r)) = true).
    { apply Hall, IsContain_iff. simpl. lia. }
    apply IsContain_iff in Htl, Hbr. simpl in Htl, Hbr. lia.
Qed.

Lemma IsContain_rect_all_points_witness :
  Rectangle.IsContain_rect (Rectangle.mk 0 0 10 10) (Rectangle.mk 8 8 (-3) (-3)) = true
  <-> forall p, Rectangle.IsContain (Rectangle.mk 8 8 (-3) (-3)) p = true ->
                Rectangle.IsContain (Rectangle.mk 0 0 10 10) p = true.
Proof.
  apply (IsContain_rect_all_points (Rectangle.mk 0 0 10 10) (Rectangle.mk 8 8 (-3) (-3))).
  unfold Rectangle.small_rect, Rectangle.small; simpl; lia.
Defined.

Lemma abs_small (z : Z) : Rectangle.small z -> Int.abs z = Z.abs z.
Proof.
  unfold Rectangle.small, Int.abs, Int.neg. intros Hz.
  destruct (Z.ltb_spec z 0); unwrap; lia.
Qed.

(** X8. Alignment anchors, for a parent and a child far from the [int]
    limits with non-zero dimensions, in any orientation. With
    [BottomRight] the child's right and bottom sides are the parent's right
    and bottom sides moved by the child's local left and top offsets. With
    [MiddleCenter] the margins left and right of the child (and above and
    below), taken without the local offset, differ by at most one. *)
Theorem LocalToGlobal_anchors (p c : Rectangle.t) :
  Rectangle.small_rect p -> Rectangle.small_rect c ->
  Rectangle.Width p <> 0 -> Rectangle.Height p <> 0 ->
  Rectangle.Width c <> 0 -> Rectangle.Height c <> 0 ->
  let br := Rectangle.LocalToGlobal p c RectangleAlignment.BottomRight in
  let mc := Rectangle.LocalToGlobal p c RectangleAlignment.MiddleCenter in
  Rectangle.RightSide br = Rectangle.RightSide p + Rectangle.LeftSide c
  /\ Rectangle.BottomSide br = Rectangle.BottomSide p + Rectangle.TopSide c
  /\ -1 <= (Rectangle.LeftSide mc - Rectangle.LeftSide c - Rectangle.LeftSide p)
           - (Rectangle.RightSide p - (Rectangle.RightSide mc - Rectangle.LeftSide c)) <= 1
  /\ -1 <= (Rectangle.TopSide mc - Rectangle.TopSide c - Rectangle.TopSide p)
           - (Rectangle.BottomSide p - (Rectangle.BottomSide mc - Rectangle.TopSide c)) <= 1.
Proof.
  intros Hp Hc Hwp Hhp Hwc Hhc br mc. subst br mc.
  destruct (small_sides p Hp) as (HLp & HRp & HTp & HBp).
  destruct (small_sides c Hc) as (HLc & _ & HTc & _).
  pose proof (small_sides_bounds p Hp) as (? & ? & ? & ? & ? & ?).
  pose proof (small_sides_bounds c Hc) as (? & ? & ? & ? & ? & ?).
  destruct Hp as (HpX & HpY & HpW & HpH), Hc as (HcX & HcY & HcW & HcH).
  unfold Rectangle.LocalToGlobal, Rectangle.half_gap, Rectangle.full_gap.
  rewrite !abs_small by assumption.
  unfold Rectangle.small in *.
  set (Lp := Rectangle.LeftSide p) in *. set (Tp := Rectangle.TopSide p) in *.
  set (Lc := Rectangle.LeftSide c) in *. set (Tc := Rectangle.TopSide c) in *.
  rewrite HRp, HBp.
  unfold Rectangle.RightSide, Rectangle.BottomSide, Rectangle.LeftSide, Rectangle.TopSide.
  cbn [Rectangle.X Rectangle.Y Rectangle.Width Rectangle.Height].
  unfold Int.add, Int.sub, Int.div.
  pose proof (Z.quot_rem (Z.abs (Rectangle.Width p) - Z.abs (Rectangle.Width c)) 2 ltac:(lia)).
  pose proof (Z.quot_rem (Z.abs (Rectangle.Height p) - Z.abs (Rectangle.Height c)) 2 ltac:(lia)).
  pose proof (Z.rem_bound_abs (Z.abs (Rectangle.Width p) - Z.abs (Rectangle.Width c)) 2 ltac:(lia)).
  pose proof (Z.rem_bound_abs (Z.abs (Rectangle.Height p) - Z.abs (Rectangle.Height c)) 2 ltac:(lia)).
  unwrap.
  destruct (Z.gtb_spec (Z.abs (Rectangle.Width c)) 0); [|lia].
  destruct (Z.gtb_spec (Z.abs (Rectangle.Height c)) 0); [|lia].
  destruct (Z.ltb_spec (Z.abs (Rectangle.Width c)) 0); [lia |].
  destruct (Z.ltb_spec (Z.abs (Rectangle.Height c)) 0); [lia |].
  unwrap.
  destruct (Z.ltb_spec (Rectangle.Width p) 0), (Z.gtb_spec (Rectangle.Width p) 0),
    (Z.ltb_spec (Rectangle.Height p) 0), (Z.gtb_spec (Rectangle.Height p) 0); try lia.
Qed.

Lemma LocalToGlobal_anchors_witness :
  Rectangle.RightSide
    (Rectangle.LocalToGlobal (Rectangle.mk 10 10 (-100) 50) (Rectangle.mk 3 4 20 (-7))
       RectangleAlignment.BottomRight)
  = Rectangle.RightSide (Rectangle.mk 10 10 (-100) 50)
    + Rectangle.LeftSide (Rectangle.mk 3 4 20 (-7)).
Proof.
  apply (LocalToGlobal_anchors (Rectangle.mk 10 10 (-100) 50) (Rectangle.mk 3 4 20 (-7)));
    first [ discriminate
          | unfold Rectangle.small_rect, Rectangle.small; simpl; lia ].
Defined.

(** ** Engine_Math.h: interpolation *)



Section interpolation_facts.
#[local] Open Scope Qc_scope.













End interpolation_facts.



(** ** Engine_Animation.h: controls, repetition and replay *)

Section animation_controls.
Import AnimationScript.
#[local] Open Scope Qc_scope.








End animation_controls.

(** ** Engine_Animation.h: one play-through *)

Section animation_play_through.
Import AnimationScript.
#[local] Open Scope Qc_scope.







End animation_play_through.

(** ** Engine_GameObject.h: detaching children *)

Lemma with_parent_idem (v : option ptr) (o : GameObject.t) :
  GameObject.with_parent v (GameObject.with_parent v o) = GameObject.with_parent v o.
Proof. reflexivity. Qed.

Lemma dom_lookup_fmap (h h' : heap) (f : ptr -> GameObject.t -> GameObject.t) :
  (forall n, h' !! n = f n <$> h !! n) -> dom h' = dom h.
Proof.
  intros Hl. apply set_eq. intros n. rewrite !elem_of_dom, Hl, fmap_is_Some. reflexivity.
Qed.

Lemma assign_live (h : heap) (p : ptr) (o : GameObject.t) (f : GameObject.t -> GameObject.t) :
  h !! p = Some o -> assign p f h = Some (<[p := f o]> h).
Proof. intros Hp. unfold assign. rewrite Hp. reflexivity. Qed.

(** The first loop of [DetachAllChilds]. *)
Lemma clear_parents_spec (cs : list ptr) (h : heap) :
  Forall (fun c => is_Some (h !! c)) cs ->
  exists h1,
    for_each (fun child h => assign child (GameObject.with_parent None) h) cs h = Some h1
    /\ forall n, h1 !! n
         = (fun q => if bool_decide (n ∈ cs) then GameObject.with_parent None q else q)
             <$> h !! n.
Proof.
  revert h. induction cs as [|c cs IH]; intros h Hlive.
  - exists h. split; [reflexivity |]. intros n.
    rewrite bool_decide_eq_false_2 by apply not_elem_of_nil.
    destruct (h !! n); reflexivity.
  - apply Forall_cons in Hlive as [[oc Hc] Hcs].
    destruct (IH (<[c := GameObject.with_parent None oc]> h)) as (h1 & E & Hl).
    { eapply Forall_impl; [exact Hcs |]. intros x Hx. simpl.
      apply lookup_insert_is_Some'. auto. }
    exists h1. split.
    { cbn [for_each]. rewrite (assign_live h c oc _ Hc). exact E. }
    intros n. rewrite Hl. destruct (decide (n = c)) as [->|Hne].
    + rewrite lookup_insert_eq, Hc. simpl. f_equal.
      rewrite (bool_decide_eq_true_2 (c ∈ c :: cs)) by (left; reflexivity).
      destruct (bool_decide (c ∈ cs)); reflexivity.
    + rewrite lookup_insert_ne by congruence.
      rewrite (bool_decide_ext (n ∈ c :: cs) (n ∈ cs)); [reflexivity |].
      rewrite elem_of_cons. tauto.
Qed.

Lemma tree_inv_childs_live (h : heap) (p : ptr) (q : GameObject.t) :
  tree_inv h -> h !! p = Some q ->
  Forall (fun c => is_Some (h !! c)) (GameObject.__childs q).
Proof.
  intros Hinv Hp. destruct (Hinv p q Hp) as (_ & Hdown & _).
  eapply Forall_impl; [exact Hdown |]. intros c Hc. simpl in Hc.
  unfold parent_of in Hc. destruct (h !! c); [eauto | contradiction].
Qed.

(** The store after [DetachAllChilds], object by object. *)
Lemma DetachAllChilds_lookup (h : heap) (this : ptr) (o : GameObject.t) :
  tree_inv h -> h !! this = Some o ->
  exists h',
    DetachAllChilds this h = Some h'
    /\ forall n, h' !! n
         = (fun q =>
              let q := if bool_decide (n ∈ GameObject.__childs o)
                       then GameObject.with_parent None q else q in
              if bool_decide (n = this) then GameObject.with_childs [] q else q)
             <$> h !! n.
Proof.
  intros Hinv Hthis.
  destruct (clear_parents_spec (GameObject.__childs o) h
              (tree_inv_childs_live h this o Hinv Hthis)) as (h1 & E & Hl).
  unfold DetachAllChilds. rewrite Hthis. simpl. rewrite E. simpl.
  unfold assign. rewrite Hl, Hthis. simpl. eexists. split; [reflexivity |].
  intros n. destruct (decide (n = this)) as [->|Hne].
  - rewrite lookup_insert_eq, Hthis. simpl.
    rewrite (bool_decide_eq_true_2 (this = this)) by reflexivity. reflexivity.
  - rewrite lookup_insert_ne by congruence. rewrite Hl.
    rewrite (bool_decide_eq_false_2 (n = this)) by exact Hne. reflexivity.
Qed.

(** The links after [DetachAllChilds]: exactly the links to [this] as
    parent are gone. *)
Lemma DetachAllChilds_links (h : heap) (this : ptr) (o : GameObject.t) :
  tree_inv h -> h !! this = Some o ->
  exists h',
    DetachAllChilds this h = Some h'
    /\ tree_inv h' /\ dom h' = dom h
    /\ (forall n x, parent_of h' n x <-> parent_of h n x /\ x <> this)
    /\ (forall n x, child_of h' n x <-> child_of h n x /\ x <> this).
Proof.
  intros Hinv Hthis.
  destruct (DetachAllChilds_lookup h this o Hinv Hthis) as (h' & E & Hl).
  exists h'. split; [exact E |].
  pose proof Hinv as [Hlink Hnd]%tree_inv_links.
  assert (Hkid : forall n, n ∈ GameObject.__childs o <-> parent_of h n this).
  { intros n. rewrite Hlink. unfold child_of. rewrite Hthis. reflexivity. }
  assert (Hpar : forall n x, parent_of h' n x <-> parent_of h n x /\ x <> this).
  { intros n x. unfold parent_of at 1. rewrite Hl.
    destruct (h !! n) as [q|] eqn:Hn; simpl.
    - assert (Hq : forall y, parent_of h n y <-> GameObject.__parent q = Some y).
      { intros y. unfold parent_of. rewrite Hn. reflexivity. }
      destruct (bool_decide_reflect (n ∈ GameObject.__childs o)) as [Hin|Hin];
        rewrite Hkid, Hq in Hin; rewrite Hq;
        destruct (bool_decide (n = this)); simpl.
      + split; [discriminate | intros [Hx Hne]; congruence].
      + split; [discriminate | intros [Hx Hne]; congruence].
      + split; [intros Hx; split; [exact Hx | congruence] | tauto].
      + split; [intros Hx; split; [exact Hx | congruence] | tauto].
    - unfold parent_of. rewrite Hn. tauto. }
  assert (Hch : forall n x, child_of h' n x <-> child_of h n x /\ x <> this).
  { intros n x. unfold child_of. rewrite Hl.
    destruct (h !! x) as [q|] eqn:Hx; simpl; [|tauto].
    destruct (bool_decide_reflect (x = this)) as [Heq|Hne];
      destruct (bool_decide (x ∈ GameObject.__childs o)); simpl;
      rewrite ?elem_of_nil; tauto. }
  split; [|split; [|split; [exact Hpar | exact Hch]]].
  - apply tree_inv_links. split.
    + intros n x. rewrite Hpar, Hch, Hlink. reflexivity.
    + intros p q. rewrite Hl. destruct (h !! p) as [q0|] eqn:Hp; [|discriminate].
      simpl. intros [= <-]. specialize (Hnd p q0 Hp).
      destruct (bool_decide (p = this)), (bool_decide (p ∈ GameObject.__childs o));
        simpl; first [exact Hnd | constructor].
  - apply (dom_lookup_fmap h h' _ Hl).
Qed.

(** X17. [DetachAllChilds] on a live Game Object of a well-formed tree is
    defined and keeps the tree well-formed: afterwards the object has no
    child, every former child has no parent, and every other parent-child
    link of the store is as before. *)
Theorem DetachAllChilds_orphans_children (h : heap) (this : ptr) (o : GameObject.t) :
  tree_inv h -> h !! this = Some o ->
  exists h',
    DetachAllChilds this h = Some h'
    /\ tree_inv h'
    /\ (exists o', h' !! this = Some o' /\ GameObject.__childs o' = [])
    /\ (forall c, c ∈ GameObject.__childs o ->
          exists q, h' !! c = Some q /\ GameObject.__parent q = None)
    /\ (forall n x, x <> this ->
          (parent_of h' n x <-> parent_of h n x) /\ (child_of h' n x <-> child_of h n x)).
Proof.
  intros Hinv Hthis.
  destruct (DetachAllChilds_links h this o Hinv Hthis) as (h' & E & Hinv' & Hd & Hpar & Hch).
  exists h'. split; [exact E |]. split; [exact Hinv' |]. split; [|split].
  - assert (Hlive : is_Some (h' !! this)) by (apply (live_dom h); eauto).
    destruct Hlive as [o' Ho']. exists o'. split; [exact Ho' |].
    destruct (GameObject.__childs o') as [|c l] eqn:Hc; [reflexivity |].
    exfalso. assert (Hin : child_of h' c this).
    { unfold child_of. rewrite Ho', Hc. left. }
    apply Hch in Hin. tauto.
  - intros c Hc.
    pose proof (tree_inv_childs_live h this o Hinv Hthis) as Hlive.
    rewrite Forall_forall in Hlive.
    assert (Hlive' : is_Some (h' !! c)) by (apply (live_dom h); auto).
    destruct Hlive' as [q Hq]. exists q. split; [exact Hq |].
    destruct (GameObject.__parent q) as [p|] eqn:Hp; [|reflexivity].
    exfalso. assert (Hpo : parent_of h' c p) by (unfold parent_of; rewrite Hq; exact Hp).
    apply Hpar in Hpo as [Hpo Hne].
    apply tree_inv_links in Hinv as [Hlink _].
    assert (Hpt : parent_of h c this).
    { apply Hlink. unfold child_of. rewrite Hthis. exact Hc. }
    unfold parent_of in Hpo, Hpt. destruct (h !! c); [congruence | contradiction].
  - intros n x Hne. rewrite Hpar, Hch. tauto.
Qed.

Lemma filter_not_in_nil (l : list ptr) : filter (fun y => y ∉ @nil ptr) l = l.
Proof.
  induction l as [|x l IH]; [reflexivity |].
  rewrite filter_cons_True by apply not_elem_of_nil. rewrite IH. reflexivity.
Qed.

Lemma filter_not_in_erase (r : ptr) (rs cs : list ptr) :
  filter (fun y => y ∉ rs) (uset.erase r cs) = filter (fun y => y ∉ r :: rs) cs.
Proof.
  unfold uset.erase. rewrite list_filter_filter. apply list_filter_iff.
  intros y. rewrite not_elem_of_cons. tauto.
Qed.

Lemma with_childs_same (o : GameObject.t) :
  GameObject.with_childs (GameObject.__childs o) o = o.
Proof. destruct o. reflexivity. Qed.

(** The second loop of [DetachChildIf], over the positions [rs]. *)
Lemma detach_loop_spec (this : ptr) (rs : list ptr) (h : heap) (count : nat) :
  is_Some (h !! this) -> Forall (fun c => is_Some (h !! c)) rs ->
  exists h',
    for_each (fun obj '(count, h) =>
                h ← assign obj (GameObject.with_parent None) h;
                h ← assign this (fun t => GameObject.with_childs
                                            (uset.erase obj (GameObject.__childs t)) t) h;
                Some (S count, h))
             rs (count, h) = Some ((length rs + count)%nat, h')
    /\ forall n, h' !! n
         = (fun q =>
              let q := if bool_decide (n ∈ rs) then GameObject.with_parent None q else q in
              if bool_decide (n = this)
              then GameObject.with_childs
                     (filter (fun y => y ∉ rs) (GameObject.__childs q)) q
              else q)
             <$> h !! n.
Proof.
  revert h count. induction rs as [|r rs IH]; intros h count Hthis Hlive.
  - exists h. split; [reflexivity |]. intros n.
    rewrite bool_decide_eq_false_2 by apply not_elem_of_nil.
    destruct (h !! n) as [q|]; [|reflexivity]. simpl. f_equal.
    destruct (bool_decide (n = this)); [|reflexivity].
    rewrite filter_not_in_nil. symmetry. apply with_childs_same.
  - apply Forall_cons in Hlive as [[q0 Hr] Hrs].
    set (h0 := <[r := GameObject.with_parent None q0]> h).
    assert (Hthis0 : is_Some (h0 !! this)) by (apply lookup_insert_is_Some'; auto).
    destruct Hthis0 as [t0 Ht0].
    set (h1 := <[this := GameObject.with_childs (uset.erase r (GameObject.__childs t0)) t0]> h0).
    assert (Hstep : forall n, h1 !! n
              = (fun q =>
                   let q := if bool_decide (n = r) then GameObject.with_parent None q else q in
                   if bool_decide (n = this)
                   then GameObject.with_childs (uset.erase r (GameObject.__childs q)) q
                   else q) <$> h !! n).
    { intros n. subst h1. destruct (decide (n = this)) as [->|Hnt].
      - rewrite lookup_insert_eq.
        rewrite (bool_decide_eq_true_2 (this = this)) by reflexivity.
        subst h0. destruct (decide (this = r)) as [->|Hne].
        + rewrite lookup_insert_eq in Ht0. injection Ht0 as <-.
          rewrite Hr. simpl.
          rewrite (bool_decide_eq_true_2 (r = r)) by reflexivity. reflexivity.
        + rewrite lookup_insert_ne in Ht0 by congruence. rewrite Ht0. simpl.
          rewrite (bool_decide_eq_false_2 (this = r)) by exact Hne. reflexivity.
      - rewrite lookup_insert_ne by congruence.
        rewrite (bool_decide_eq_false_2 (n = this)) by exact Hnt.
        subst h0. destruct (decide (n = r)) as [->|Hne].
        + rewrite lookup_insert_eq, Hr. simpl.
          rewrite (bool_decide_eq_true_2 (r = r)) by reflexivity. reflexivity.
        + rewrite lookup_insert_ne by congruence.
          rewrite (bool_decide_eq_false_2 (n = r)) by exact Hne.
          destruct (h !! n); reflexivity. }
    destruct (IH h1 (S count)) as (h' & E & Hl).
    { rewrite Hstep. apply fmap_is_Some. exact Hthis. }
    { eapply Forall_impl; [exact Hrs |]. intros x Hx. simpl.
      rewrite Hstep. apply fmap_is_Some. exact Hx. }
    exists h'. split.
    { cbn [for_each]. rewrite (assign_live h r q0 _ Hr). cbn [mbind option_bind].
      fold h0. rewrite (assign_live h0 this t0 _ Ht0). cbn [mbind option_bind].
      fold h1. rewrite E. f_equal. f_equal. simpl. lia. }
    intros n. rewrite Hl, Hstep. destruct (h !! n) as [q|]; [|reflexivity].
    simpl. f_equal.
    rewrite (bool_decide_ext (n ∈ r :: rs) (n = r \/ n ∈ rs)) by apply elem_of_cons.
    destruct q as [pa cs sc en hi po sz al].
    destruct (bool_decide_reflect (n = r)) as [Hnr|Hnr],
             (bool_decide_reflect (n ∈ rs)) as [Hin|Hin],
             (bool_decide_reflect (n = this)) as [Hnt|Hnt];
      first [rewrite (bool_decide_eq_true_2 (n = r \/ n ∈ rs)) by tauto
            |rewrite (bool_decide_eq_false_2 (n = r \/ n ∈ rs)) by tauto];
      unfold GameObject.with_parent, GameObject.with_childs; simpl;
      rewrite ?filter_not_in_erase; reflexivity.
Qed.

Lemma filter_iff_on (P1 P2 : ptr -> Prop) `{!forall x, Decision (P1 x)}
    `{!forall x, Decision (P2 x)} (l : list ptr) :
  (forall x, x ∈ l -> (P1 x <-> P2 x)) -> filter P1 l = filter P2 l.
Proof.
  induction l as [|x l IH]; intros Hext; [reflexivity |].
  assert (Hx : P1 x <-> P2 x) by (apply Hext; left).
  assert (Hl : filter P1 l = filter P2 l).
  { apply IH. intros y Hy. apply Hext. right. exact Hy. }
  destruct (decide (P1 x)) as [H1|H1].
  - rewrite !filter_cons_True by tauto. rewrite Hl. reflexivity.
  - rewrite !filter_cons_False by tauto. exact Hl.
Qed.

(** The links after [DetachChildIf]: exactly the links from an accepted
    child to [this] are gone. *)
Lemma DetachChildIf_links (predicate : ptr -> bool) (h : heap) (this : ptr) (o : GameObject.t) :
  tree_inv h -> h !! this = Some o ->
  exists h',
    DetachChildIf this (Some predicate) h
    = Some (length (filter (fun c => predicate c = true) (GameObject.__childs o)), h')
    /\ tree_inv h' /\ dom h' = dom h
    /\ (forall n x, parent_of h' n x
                    <-> parent_of h n x /\ ~ (x = this /\ predicate n = true))
    /\ (forall n x, child_of h' n x
                    <-> child_of h n x /\ ~ (x = this /\ predicate n = true))
    /\ (exists o', h' !! this = Some o'
                   /\ GameObject.__childs o'
                      = filter (fun c => predicate c <> true) (GameObject.__childs o)).
Proof.
  intros Hinv Hthis.
  set (rs := filter (fun c => predicate c = true) (GameObject.__childs o)).
  assert (Hrs : forall n, n ∈ rs <-> n ∈ GameObject.__childs o /\ predicate n = true).
  { intros n. subst rs. rewrite list_elem_of_filter. tauto. }
  destruct (detach_loop_spec this rs h 0) as (h' & E & Hl).
  { eauto. }
  { pose proof (tree_inv_childs_live h this o Hinv Hthis) as Hlive.
    rewrite Forall_forall in Hlive |- *. intros c Hc. apply Hlive, Hrs, Hc. }
  exists h'. split.
  { unfold DetachChildIf. rewrite Hthis. cbn [mbind option_bind]. fold rs.
    rewrite E. rewrite Nat.add_0_r. reflexivity. }
  pose proof Hinv as [Hlink Hnd]%tree_inv_links.
  assert (Hkid : forall n, n ∈ GameObject.__childs o <-> parent_of h n this).
  { intros n. rewrite Hlink. unfold child_of. rewrite Hthis. reflexivity. }
  assert (Hpar : forall n x, parent_of h' n x
                             <-> parent_of h n x /\ ~ (x = this /\ predicate n = true)).
  { intros n x. unfold parent_of at 1. rewrite Hl.
    destruct (h !! n) as [q|] eqn:Hn; simpl.
    - assert (Hq : forall y, parent_of h n y <-> GameObject.__parent q = Some y).
      { intros y. unfold parent_of. rewrite Hn. reflexivity. }
      destruct (bool_decide_reflect (n ∈ rs)) as [Hin|Hin];
        rewrite Hrs, Hkid, Hq in Hin; rewrite Hq;
        destruct (bool_decide (n = this)); simpl.
      + split; [discriminate |]. intros [Hx Hno]. exfalso.
        destruct Hin as [Hin1 Hin2]. apply Hno. split; [congruence | exact Hin2].
      + split; [discriminate |]. intros [Hx Hno]. exfalso.
        destruct Hin as [Hin1 Hin2]. apply Hno. split; [congruence | exact Hin2].
      + split; [|tauto]. intros Hx. split; [exact Hx |].
        intros [-> Hp]. tauto.
      + split; [|tauto]. intros Hx. split; [exact Hx |].
        intros [-> Hp]. tauto.
    - unfold parent_of. rewrite Hn. tauto. }
  assert (Hch : forall n x, child_of h' n x
                            <-> child_of h n x /\ ~ (x = this /\ predicate n = true)).
  { intros n x. unfold child_of. rewrite Hl.
    destruct (h !! x) as [q|] eqn:Hx; simpl; [|tauto].
    destruct (bool_decide_reflect (x = this)) as [Heq|Hne].
    - subst x. rewrite Hthis in Hx. injection Hx as <-.
      destruct (bool_decide (this ∈ rs)); simpl;
        rewrite list_elem_of_filter, Hrs; tauto.
    - destruct (bool_decide (x ∈ rs)); simpl; tauto. }
  split; [|split; [|split; [exact Hpar | split; [exact Hch |]]]].
  - apply tree_inv_links. split.
    + intros n x. rewrite Hpar, Hch, Hlink. reflexivity.
    + intros p q. rewrite Hl. destruct (h !! p) as [q0|] eqn:Hp; [|discriminate].
      simpl. intros [= <-]. specialize (Hnd p q0 Hp).
      destruct (bool_decide (p = this)), (bool_decide (p ∈ rs));
        simpl; first [exact Hnd | apply NoDup_filter; exact Hnd].
  - apply (dom_lookup_fmap h h' _ Hl).
  - eexists. split; [rewrite Hl, Hthis; reflexivity |].
    rewrite (bool_decide_eq_true_2 (this = this)) by reflexivity.
    assert (Hcs : GameObject.__childs
                    (if bool_decide (this ∈ rs) then GameObject.with_parent None o else o)
                  = GameObject.__childs o) by (destruct (bool_decide (this ∈ rs)); reflexivity).
    cbn [GameObject.with_childs GameObject.__childs]. rewrite Hcs.
    apply filter_iff_on. intros y Hy. rewrite Hrs. tauto.
Qed.

(** X18. [DetachChildIf] on a live Game Object of a well-formed tree
    detaches exactly the children the predicate accepts: the count it
    returns is the number of accepted children, the children left are the
    rejected ones in their old order, every accepted child has no parent
    afterwards, every other link is as before and the tree stays
    well-formed. An empty predicate returns 0 and changes nothing. *)
Theorem DetachChildIf_detaches_accepted
    (predicate : ptr -> bool) (h : heap) (this : ptr) (o : GameObject.t) :
  tree_inv h -> h !! this = Some o ->
  DetachChildIf this None h = Some (0%nat, h)
  /\ exists h' o',
       DetachChildIf this (Some predicate) h
       = Some (length (filter (fun c => predicate c = true) (GameObject.__childs o)), h')
       /\ tree_inv h'
       /\ h' !! this = Some o'
       /\ GameObject.__childs o'
          = filter (fun c => predicate c <> true) (GameObject.__childs o)
       /\ (forall c, c ∈ GameObject.__childs o -> predicate c = true ->
             exists q, h' !! c = Some q /\ GameObject.__parent q = None)
       /\ (forall n x, ~ (x = this /\ predicate n = true) ->
             (parent_of h' n x <-> parent_of h n x)
             /\ (child_of h' n x <-> child_of h n x)).
Proof.
  intros Hinv Hthis. split; [reflexivity |].
  destruct (DetachChildIf_links predicate h this o Hinv Hthis)
    as (h' & E & Hinv' & Hd & Hpar & Hch & o' & Ho' & Hleft).
  exists h', o'.
  split; [exact E |]. split; [exact Hinv' |]. split; [exact Ho' |].
  split; [exact Hleft |]. split.
  - intros c Hc Hp.
    pose proof (tree_inv_childs_live h this o Hinv Hthis) as Hlive.
    rewrite Forall_forall in Hlive.
    assert (Hlive' : is_Some (h' !! c)) by (apply (live_dom h); auto).
    destruct Hlive' as [q Hq]. exists q. split; [exact Hq |].
    destruct (GameObject.__parent q) as [p|] eqn:Hpq; [|reflexivity].
    exfalso. assert (Hpo : parent_of h' c p) by (unfold parent_of; rewrite Hq; exact Hpq).
    apply Hpar in Hpo as [Hpo Hno].
    apply tree_inv_links in Hinv as [Hlink _].
    assert (Hpt : parent_of h c this).
    { apply Hlink. unfold child_of. rewrite Hthis. exact Hc. }
    apply Hno. split; [|exact Hp].
    unfold parent_of in Hpo, Hpt. destruct (h !! c); [congruence | contradiction].
  - intros n x Hno. rewrite Hpar, Hch. tauto.
Qed.

(** ** Engine_GameObject.h: searching children *)

Lemma IsContainChild_loop_spec (h : heap) (child : ptr) (objs : list ptr) :
  Forall (fun c => is_Some (h !! c)) objs ->
  exists b,
    IsContainChild_loop h child objs = Some b
    /\ (b = true <-> child ∈ objs \/ exists k, k ∈ objs /\ child_of h child k).
Proof.
  induction objs as [|obj objs IH]; intros Hlive.
  - exists false. split; [reflexivity |]. split; [discriminate |].
    intros [Hin | (k & Hin & _)]; inversion Hin.
  - apply Forall_cons in Hlive as [[o Ho] Hobjs]. simpl.
    destruct (decide (obj = child)) as [->|Hne].
    { exists true. split; [reflexivity |]. split; [|reflexivity].
      intros _. left. left. }
    rewrite Ho. simpl. unfold uset.contains.
    destruct (bool_decide_reflect (child ∈ GameObject.__childs o)) as [Hin|Hin].
    { exists true. split; [reflexivity |]. split; [|reflexivity].
      intros _. right. exists obj. split; [left |].
      unfold child_of. rewrite Ho. exact Hin. }
    destruct (IH Hobjs) as (b & E & Hb). exists b. split; [exact E |].
    rewrite Hb, elem_of_cons. split.
    + intros [Hc | (k & Hk & Hck)]; [tauto |].
      right. exists k. split; [right; exact Hk | exact Hck].
    + intros [[Heq | Hc] | (k & Hk & Hck)]; [congruence | tauto |].
      apply elem_of_cons in Hk as [-> | Hk].
      * exfalso. apply Hin. unfold child_of in Hck. rewrite Ho in Hck. exact Hck.
      * right. exists k. tauto.
Qed.

(** X19. [IsContainChild]: a null argument is never contained; without
    [recursive] the answer is membership in the child set; with
    [recursive = true] the search asks each child without passing
    [recursive] on, so it finds exactly the children and the
    grandchildren of the Game Object and no deeper descendant. *)
Theorem IsContainChild_two_levels (h : heap) (this : ptr) (o : GameObject.t) (c : ptr) :
  tree_inv h -> h !! this = Some o ->
  (forall recursive, IsContainChild h this None recursive = Some false)
  /\ (exists b, IsContainChild h this (Some c) false = Some b
                /\ (b = true <-> child_of h c this))
  /\ (exists b, IsContainChild h this (Some c) true = Some b
                /\ (b = true <-> child_of h c this
                                 \/ exists k, child_of h k this /\ child_of h c k)).
Proof.
  intros Hinv Hthis. unfold IsContainChild. rewrite Hthis. simpl.
  split; [reflexivity |]. split.
  - eexists. split; [reflexivity |]. unfold uset.contains, child_of. rewrite Hthis.
    rewrite bool_decide_eq_true. reflexivity.
  - destruct (IsContainChild_loop_spec h c (GameObject.__childs o)
                (tree_inv_childs_live h this o Hinv Hthis)) as (b & E & Hb).
    exists b. split; [exact E |]. rewrite Hb. unfold child_of at 2 3.
    rewrite Hthis. reflexivity.
Qed.

(** A chain of four Game Objects: the great-grandchild is not found. *)
Lemma IsContainChild_two_levels_witness :
  let h := GameObject_new 4 (GameObject_new 3 (GameObject_new 2 (GameObject_new 1 ∅))) in
  exists h' o,
    @run_ops front_impl [CallAddChild 1 (Some 2%positive); CallAddChild 2 (Some 3%positive);
                         CallAddChild 3 (Some 4%positive)] h = Some h'
    /\ h' !! 1%positive = Some o
    /\ IsContainChild h' 1 (Some 3%positive) true = Some true
    /\ IsContainChild h' 1 (Some 4%positive) true = Some false
    /\ (exists b, IsContainChild h' 1 (Some 4%positive) true = Some b
                  /\ (b = true <-> child_of h' 4 1
                                   \/ exists k, child_of h' k 1 /\ child_of h' 4 k)).
Proof.
  intros h. eexists _, _.
  split; [vm_compute; reflexivity |]. split; [vm_compute; reflexivity |].
  split; [vm_compute; reflexivity |]. split; [vm_compute; reflexivity |].
  refine (proj2 (proj2 (IsContainChild_two_levels _ 1 _ 4 _ _))).
  - apply (@bool_decide_unpack _ (tree_inv_dec _)). vm_compute. exact I.
  - vm_compute. reflexivity.
Defined.

(** The two theorems on detaching, at the tree 1 -> {3, 2 -> {4}}. *)
Lemma DetachAllChilds_orphans_children_witness :
  let h : heap :=
    <[1%positive := GameObject.with_childs [3%positive; 2%positive] GameObject.default]>
      (<[2%positive := GameObject.with_parent (Some 1%positive)
                         (GameObject.with_childs [4%positive] GameObject.default)]>
         (<[3%positive := GameObject.with_parent (Some 1%positive) GameObject.default]>
            (<[4%positive := GameObject.with_parent (Some 2%positive) GameObject.default]> ∅))) in
  exists h', DetachAllChilds 1 h = Some h' /\ tree_inv h'.
Proof.
  intros h.
  assert (Hinv : tree_inv h) by (apply (bool_decide_unpack _); vm_compute; exact I).
  assert (Hthis : h !! 1%positive
                  = Some (GameObject.with_childs [3%positive; 2%positive] GameObject.default))
    by reflexivity.
  destruct (DetachAllChilds_orphans_children h 1 _ Hinv Hthis) as (h' & E & Hinv' & _).
  exists h'. split; [exact E | exact Hinv'].
Defined.

Lemma DetachChildIf_detaches_accepted_witness :
  let h : heap :=
    <[1%positive := GameObject.with_childs [3%positive; 2%positive] GameObject.default]>
      (<[2%positive := GameObject.with_parent (Some 1%positive)
                         (GameObject.with_childs [4%positive] GameObject.default)]>
         (<[3%positive := GameObject.with_parent (Some 1%positive) GameObject.default]>
            (<[4%positive := GameObject.with_parent (Some 2%positive) GameObject.default]> ∅))) in
  exists h', DetachChildIf 1 (Some (Pos.eqb 2)) h = Some (1%nat, h') /\ tree_inv h'.
Proof.
  intros h.
  assert (Hinv : tree_inv h) by (apply (bool_decide_unpack _); vm_compute; exact I).
  assert (Hthis : h !! 1%positive
                  = Some (GameObject.with_childs [3%positive; 2%positive] GameObject.default))
    by reflexivity.
  destruct (DetachChildIf_detaches_accepted (Pos.eqb 2) h 1 _ Hinv Hthis)
    as (_ & h' & o' & E & Hinv' & _).
  exists h'. split; [exact E | exact Hinv'].
Defined.

(** ** Engine_GameObject.h: destroying Game Objects *)

(** A loop that replaces the value at each key of a list by [f] of it. *)
Lemma for_each_update {V : Type} (f : V -> V) (ks : list ptr) (m : gmap ptr V) :
  (forall v, f (f v) = f v) ->
  Forall (fun k => is_Some (m !! k)) ks ->
  exists m',
    for_each (fun k m => v ← m !! k; Some (<[k := f v]> m)) ks m = Some m'
    /\ forall n, m' !! n = (fun v => if bool_decide (n ∈ ks) then f v else v) <$> m !! n.
Proof.
  intros Hidem. revert m. induction ks as [|k ks IH]; intros m Hlive.
  - exists m. split; [reflexivity |]. intros n.
    rewrite bool_decide_eq_false_2 by apply not_elem_of_nil.
    destruct (m !! n); reflexivity.
  - apply Forall_cons in Hlive as [[v Hk] Hks].
    destruct (IH (<[k := f v]> m)) as (m' & E & Hl).
    { eapply Forall_impl; [exact Hks |]. intros x Hx. simpl.
      apply lookup_insert_is_Some'. auto. }
    exists m'. split.
    { cbn [for_each]. rewrite Hk. exact E. }
    intros n. rewrite Hl. destruct (decide (n = k)) as [->|Hne].
    + rewrite lookup_insert_eq, Hk. simpl. f_equal.
      rewrite (bool_decide_eq_true_2 (k ∈ k :: ks)) by (left; reflexivity).
      destruct (bool_decide (k ∈ ks)); [apply Hidem | reflexivity].
    + rewrite lookup_insert_ne by congruence.
      rewrite (bool_decide_ext (n ∈ k :: ks) (n ∈ ks)); [reflexivity |].
      rewrite elem_of_cons. tauto.
Qed.

Lemma uset_erase_idem (x : ptr) (l : list ptr) : uset.erase x (uset.erase x l) = uset.erase x l.
Proof. unfold uset.erase. apply list_filter_filter_l. auto. Qed.

Lemma Remove_idem (obj : option ptr) (s : GameScene.t) :
  GameScene.Remove obj (GameScene.Remove obj s) = GameScene.Remove obj s.
Proof.
  destruct obj as [o|]; [|reflexivity]. unfold GameScene.Remove. simpl. f_equal.
  rewrite <- list_fmap_compose. apply list_fmap_ext. intros i l _. simpl.
  apply uset_erase_idem.
Qed.

Lemma Clear_idem (s : GameScene.t) : GameScene.Clear (GameScene.Clear s) = GameScene.Clear s.
Proof.
  unfold GameScene.Clear. simpl. f_equal. rewrite <- list_fmap_compose. reflexivity.
Qed.

(** [ForEachScene] over live scenes. *)
Lemma ForEachScene_spec (action : GameScene.t -> GameScene.t) (w : World.t) :
  (forall s, action (action s) = action s) ->
  Forall (fun s => is_Some (World.scenes w !! s)) (World.__created_scenes w) ->
  exists ss,
    ForEachScene action w = Some (World.with_scenes ss w)
    /\ forall n, ss !! n
         = (fun s => if bool_decide (n ∈ World.__created_scenes w) then action s else s)
             <$> World.scenes w !! n.
Proof.
  intros Hidem Hlive.
  destruct (for_each_update action (World.__created_scenes w) (World.scenes w) Hidem Hlive)
    as (ss & E & Hl).
  exists ss. split; [|exact Hl]. unfold ForEachScene. rewrite E. reflexivity.
Qed.

(** Releasing an object that has no parent and no child. *)
Lemma tree_inv_delete (h : heap) (this : ptr) :
  tree_inv h -> (forall x, ~ parent_of h this x) -> (forall c, ~ child_of h c this) ->
  tree_inv (delete this h)
  /\ (forall n x, parent_of (delete this h) n x <-> parent_of h n x)
  /\ (forall n x, child_of (delete this h) n x <-> child_of h n x).
Proof.
  intros [Hlink Hnd]%tree_inv_links Hnp Hnc.
  assert (Hpar : forall n x, parent_of (delete this h) n x <-> parent_of h n x).
  { intros n x. unfold parent_of at 1. destruct (decide (n = this)) as [->|Hne].
    - rewrite lookup_delete_eq. split; [tauto | intros Hp; exact (Hnp x Hp)].
    - rewrite lookup_delete_ne by congruence. reflexivity. }
  assert (Hch : forall n x, child_of (delete this h) n x <-> child_of h n x).
  { intros n x. unfold child_of at 1. destruct (decide (x = this)) as [->|Hne].
    - rewrite lookup_delete_eq. split; [tauto | intros Hc; exact (Hnc n Hc)].
    - rewrite lookup_delete_ne by congruence. reflexivity. }
  split; [|split; [exact Hpar | exact Hch]].
  apply tree_inv_links. split.
  - intros n x. rewrite Hpar, Hch. apply Hlink.
  - intros p q Hp. apply lookup_delete_Some in Hp as [_ Hp]. exact (Hnd p q Hp).
Qed.

Section destroy_facts.
Context `{UnorderedSetImpl}.

(** The links after [SetParent]. *)
Lemma SetParent_links (h : heap) (this : ptr) (parent : option ptr) :
  tree_inv h -> is_Some (h !! this) -> null_or_live h parent ->
  exists h3,
    SetParent this parent h = Some h3
    /\ tree_inv h3 /\ dom h3 = dom h
    /\ (forall n x, parent_of h3 n x
          <-> if decide (n = this) then parent = Some x else parent_of h n x).
Proof.
  intros Hinv Hthis Hparent.
  destruct (SetParent_erase_old_spec h this Hinv Hthis)
    as (h1 & E1 & D1 & N1 & P1 & C1).
  destruct (SetParent_assign_spec h1 this parent N1 (live_dom _ _ _ D1 Hthis))
    as (h2 & E2 & D2 & N2 & P2 & C2).
  assert (D12 : dom h2 = dom h) by congruence.
  destruct (SetParent_insert_new_spec h2 this parent N2
              (null_or_live_dom _ _ _ D12 Hparent))
    as (h3 & E3 & D3 & N3 & P3 & C3).
  destruct (SetParent_spec h this parent Hinv Hthis Hparent)
    as (h1' & h2' & h3' & E1' & E2' & E3' & E' & _ & _ & _ & Hinv' & D').
  assert (h1' = h1) by congruence. subst h1'.
  assert (h2' = h2) by congruence. subst h2'.
  assert (h3' = h3) by congruence. subst h3'.
  exists h3. split; [exact E' |]. split; [exact Hinv' |]. split; [exact D' |].
  intros n x. rewrite P3, P2. destruct (decide (n = this)); [reflexivity | apply P1].
Qed.

(** The store after [delete obj], in both modes of the destructor. *)
Lemma GameObject_delete_objects (this : ptr) (w : World.t) :
  tree_inv (World.objects w) -> is_Some (World.objects w !! this) ->
  Forall (fun s => is_Some (World.scenes w !! s)) (World.__created_scenes w) ->
  exists stops w',
    GameObject_delete this w = Some (stops, w')
    /\ tree_inv (World.objects w')
    /\ dom (World.objects w') = dom (World.objects w) ∖ {[this]}
    /\ (forall n x, parent_of (World.objects w') n x
          <-> parent_of (World.objects w) n x /\ n <> this /\ x <> this)
    /\ World.__is_destroy_all w' = World.__is_destroy_all w
    /\ World.__created_scenes w' = World.__created_scenes w
    /\ (if World.__is_destroy_all w
        then stops = [] /\ w' = World.with_objects (World.objects w') w
        else World.__created_game_objs w' = uset.erase this (World.__created_game_objs w)
             /\ forall n, World.scenes w' !! n
                  = (fun s => if bool_decide (n ∈ World.__created_scenes w)
                              then GameScene.Remove (Some this) s else s)
                      <$> World.scenes w !! n).
Proof.
  intros Hinv [o Hthis] Hscenes.
  destruct (DetachAllChilds_links _ this o Hinv Hthis) as (h1 & E1 & I1 & D1 & P1 & C1).
  assert (Hthis1 : is_Some (h1 !! this)) by (apply (live_dom (World.objects w)); eauto).
  destruct (SetParent_links h1 this None I1 Hthis1 I) as (h2 & E2 & I2 & D2 & P2).
  assert (Hthis2 : is_Some (h2 !! this)) by (apply (live_dom h1); eauto).
  destruct Hthis2 as [o2 Ho2].
  pose proof I2 as [L2 _]%tree_inv_links.
  assert (Hnp : forall x, ~ parent_of h2 this x).
  { intros x. rewrite P2. destruct (decide (this = this)); [discriminate | congruence]. }
  assert (Hnc : forall c, ~ child_of h2 c this).
  { intros c. rewrite <- L2, P2. destruct (decide (c = this)); [discriminate |].
    rewrite P1. tauto. }
  assert (Hrel : forall n x, parent_of h2 n x
                   <-> parent_of (World.objects w) n x /\ n <> this /\ x <> this).
  { intros n x. rewrite P2. destruct (decide (n = this)) as [->|Hne].
    - split; [discriminate | tauto].
    - rewrite P1. tauto. }
  unfold GameObject_delete. rewrite E1. cbn [mbind option_bind].
  unfold DetachParent. rewrite E2. cbn [mbind option_bind]. rewrite Ho2.
  cbn [mbind option_bind].
  destruct (World.__is_destroy_all w) eqn:Hflag.
  - destruct (tree_inv_delete h2 this I2 Hnp Hnc) as (I3 & P3 & C3).
    eexists _, _. split; [reflexivity |]. simpl.
    split; [exact I3 |]. split; [rewrite dom_delete_L; congruence |].
    split; [intros n x; rewrite P3; apply Hrel |].
    split; [exact Hflag |]. split; [reflexivity |]. split; reflexivity.
  - rewrite (assign_live h2 this o2 _ Ho2). cbn [mbind option_bind].
    set (h2s := <[this := GameObject.with_scripts [] o2]> h2).
    assert (Hsame : (forall n x, parent_of h2s n x <-> parent_of h2 n x)
                    /\ (forall n x, child_of h2s n x <-> child_of h2 n x)
                    /\ tree_inv h2s /\ dom h2s = dom h2).
    { assert (Hp : forall n x, parent_of h2s n x <-> parent_of h2 n x).
      { intros n x. unfold parent_of, h2s. destruct (decide (n = this)) as [->|Hne].
        - rewrite lookup_insert_eq, Ho2. reflexivity.
        - rewrite lookup_insert_ne by congruence. reflexivity. }
      assert (Hc : forall n x, child_of h2s n x <-> child_of h2 n x).
      { intros n x. unfold child_of, h2s. destruct (decide (x = this)) as [->|Hne].
        - rewrite lookup_insert_eq, Ho2. reflexivity.
        - rewrite lookup_insert_ne by congruence. reflexivity. }
      split; [exact Hp |]. split; [exact Hc |]. split.
      - apply tree_inv_links. split.
        + intros n x. rewrite Hp, Hc. apply L2.
        + intros p q. unfold h2s. destruct (decide (p = this)) as [->|Hne].
          * rewrite lookup_insert_eq. intros [= <-]. simpl.
            apply tree_inv_links in I2 as [_ N2]. exact (N2 this o2 Ho2).
          * rewrite lookup_insert_ne by congruence.
            apply tree_inv_links in I2 as [_ N2]. apply N2.
      - unfold h2s. apply dom_insert_lookup_L. eauto. }
    destruct Hsame as (Ps & Cs & Is & Ds).
    destruct (ForEachScene_spec (GameScene.Remove (Some this))
                (World.with_created_game_objs
                   (uset.erase this (World.__created_game_objs (World.with_objects h2s w)))
                   (World.with_objects h2s w)))
      as (ss & E3 & Hss).
    { apply Remove_idem. }
    { exact Hscenes. }
    rewrite E3. cbn [mbind option_bind].
    destruct (tree_inv_delete h2s this Is) as (I3 & P3 & C3).
    { intros x. rewrite Ps. apply Hnp. }
    { intros c. rewrite Cs. apply Hnc. }
    eexists _, _. split; [reflexivity |]. simpl.
    split; [exact I3 |]. split; [rewrite dom_delete_L; congruence |].
    split; [intros n x; rewrite P3, Ps; apply Hrel |].
    split; [exact Hflag |]. split; [reflexivity |]. split; [reflexivity | exact Hss].
Qed.
End destroy_facts.

Lemma IsLayerContain_Remove (o : ptr) (i : Z) (s : GameScene.t) :
  GameScene.IsLayerContain (Some o) i (GameScene.Remove (Some o) s) = false.
Proof.
  unfold GameScene.IsLayerContain, GameScene.Remove, vector_at. simpl.
  destruct (out_of_range i _); [reflexivity |].
  destruct (i <? 0); [reflexivity |].
  rewrite list_lookup_fmap. destruct (GameScene.__layers s !! Z.to_nat i); [|reflexivity].
  simpl. unfold uset.contains, uset.erase. apply bool_decide_eq_false_2.
  rewrite list_elem_of_filter. tauto.
Qed.

Lemma IsLayerContain_Clear (obj : option ptr) (i : Z) (s : GameScene.t) :
  GameScene.IsLayerContain obj i (GameScene.Clear s) = false.
Proof.
  unfold GameScene.IsLayerContain, GameScene.Clear, vector_at. simpl.
  destruct obj as [o|]; [|reflexivity].
  destruct (out_of_range i _); [reflexivity |].
  destruct (i <? 0); [reflexivity |].
  rewrite list_lookup_fmap. destruct (GameScene.__layers s !! Z.to_nat i); [|reflexivity].
  simpl. unfold uset.contains. apply bool_decide_eq_false_2. apply not_elem_of_nil.
Qed.

Section destroy_theorems.
Context `{UnorderedSetImpl}.

(** The stores of a running program: the empty store is one, and
    constructing a Game Object at an unused address leads to another. *)
Lemma world_inv_initial (scenes : gmap ptr GameScene.t) (created_scenes : list ptr) :
  Forall (fun s => is_Some (scenes !! s)) created_scenes ->
  world_inv (World.mk ∅ false [] scenes created_scenes).
Proof.
  intros Hsc. split; [apply tree_inv_empty |]. split; [constructor |].
  split; [|split; [exact Hsc | reflexivity]].
  intros p. simpl. rewrite lookup_empty. split; [intros Hp; inversion Hp |].
  intros [? ?]. discriminate.
Qed.

Lemma world_inv_construct (this : ptr) (w : World.t) :
  world_inv w -> World.objects w !! this = None ->
  world_inv (GameObject_construct this w).
Proof.
  intros (Hinv & Hnd & Hcr & Hsc & Hflag) Hfresh.
  assert (Hout : this ∉ World.__created_game_objs w).
  { intros Hin. apply Hcr in Hin as [? Hin]. congruence. }
  split; [apply tree_inv_new; assumption |]. simpl.
  split; [|split; [|split; [exact Hsc | exact Hflag]]].
  - rewrite uset_insert_perm by exact Hout. apply NoDup_cons. tauto.
  - intros p. rewrite elem_of_uset_insert, Hcr. unfold GameObject_new.
    rewrite lookup_insert_is_Some. split.
    + intros [-> | Hp]; [tauto |]. destruct (decide (this = p)); tauto.
    + intros [-> | [_ Hp]]; tauto.
Qed.

(** X20. Deleting a live Game Object of a running program is defined and
    leaves no dangling pointer: the object is no longer live nor in the
    created set, no remaining object names it as parent or lists it as
    child, its former children are still live and have no parent (they are
    not destroyed with it), every link between other objects is as before,
    no layer of any created scene contains it, and the store is again that
    of a running program. *)
Theorem GameObject_delete_no_dangling (this : ptr) (w : World.t) :
  world_inv w -> is_Some (World.objects w !! this) ->
  exists stops w',
    GameObject_delete this w = Some (stops, w')
    /\ world_inv w'
    /\ World.objects w' !! this = None
    /\ (this ∉ World.__created_game_objs w')
    /\ (forall n o, World.objects w' !! n = Some o ->
          GameObject.__parent o <> Some this /\ this ∉ GameObject.__childs o)
    /\ (forall c, child_of (World.objects w) c this -> c <> this ->
          exists q, World.objects w' !! c = Some q /\ GameObject.__parent q = None)
    /\ (forall n x, n <> this -> x <> this ->
          (parent_of (World.objects w') n x <-> parent_of (World.objects w) n x))
    /\ (forall s sc, s ∈ World.__created_scenes w -> World.scenes w' !! s = Some sc ->
          forall i, GameScene.IsLayerContain (Some this) i sc = false).
Proof.
  intros (Hinv & Hnd & Hcr & Hsc & Hflag) Hthis.
  destruct (GameObject_delete_objects this w Hinv Hthis Hsc)
    as (stops & w' & E & Hinv' & Hdom & Hrel & Hflag' & Hcs & Hmode).
  rewrite Hflag in Hmode. destruct Hmode as [Hcr' Hss].
  exists stops, w'. split; [exact E |].
  assert (Hgone : World.objects w' !! this = None).
  { apply not_elem_of_dom. rewrite Hdom, elem_of_difference, elem_of_singleton. tauto. }
  pose proof Hinv as [Hlink _]%tree_inv_links.
  pose proof Hinv' as [Hlink' _]%tree_inv_links.
  split; [|split; [exact Hgone |split; [|split; [|split; [|split]]]]].
  - split; [exact Hinv' |]. split; [rewrite Hcr'; apply NoDup_filter; exact Hnd |].
    split; [|split; [|congruence]].
    + intros p. rewrite Hcr'. unfold uset.erase. rewrite list_elem_of_filter, Hcr.
      rewrite <- !elem_of_dom, Hdom, elem_of_difference, elem_of_singleton. tauto.
    + rewrite Hcs. eapply Forall_impl; [exact Hsc |]. intros s Hs. simpl.
      rewrite Hss. apply fmap_is_Some. exact Hs.
  - rewrite Hcr'. unfold uset.erase. rewrite list_elem_of_filter. tauto.
  - intros n o Hn. split.
    + intros Hp. assert (Hpo : parent_of (World.objects w') n this).
      { unfold parent_of. rewrite Hn. exact Hp. }
      apply Hrel in Hpo. tauto.
    + intros Hc. assert (Hco : child_of (World.objects w') this n).
      { unfold child_of. rewrite Hn. exact Hc. }
      apply Hlink', Hrel in Hco. tauto.
  - intros c Hc Hne.
    assert (Hlive : is_Some (World.objects w' !! c)).
    { apply elem_of_dom. rewrite Hdom. apply elem_of_difference. split.
      - apply elem_of_dom. apply Hlink in Hc. unfold parent_of in Hc.
        destruct (World.objects w !! c); [eauto | contradiction].
      - rewrite elem_of_singleton. exact Hne. }
    destruct Hlive as [q Hq]. exists q. split; [exact Hq |].
    destruct (GameObject.__parent q) as [p|] eqn:Hp; [|reflexivity].
    exfalso. assert (Hpo : parent_of (World.objects w') c p).
    { unfold parent_of. rewrite Hq. exact Hp. }
    apply Hrel in Hpo as (Hpo & _ & Hpne). apply Hlink in Hc.
    unfold parent_of in Hpo, Hc. destruct (World.objects w !! c); [congruence | contradiction].
  - intros n x Hn Hx. rewrite Hrel. tauto.
  - intros s sc Hs Hlook i. rewrite Hss in Hlook.
    rewrite (bool_decide_eq_true_2 _ Hs) in Hlook.
    destruct (World.scenes w !! s) as [sc0|]; [|discriminate].
    injection Hlook as <-. apply IsLayerContain_Remove.
Qed.

(** The loop of [DestoryAllCreatedGameObjects]. *)
Lemma destroy_loop_spec (ks : list ptr) (w : World.t) :
  tree_inv (World.objects w) -> World.__is_destroy_all w = true ->
  Forall (fun s => is_Some (World.scenes w !! s)) (World.__created_scenes w) ->
  NoDup ks -> Forall (fun k => is_Some (World.objects w !! k)) ks ->
  exists h',
    for_each (fun obj w => snd <$> GameObject_delete obj w) ks w
    = Some (World.with_objects h' w)
    /\ tree_inv h'
    /\ dom h' = dom (World.objects w) ∖ list_to_set ks.
Proof.
  revert w. induction ks as [|k ks IH]; intros w Hinv Hflag Hsc Hnd Hlive.
  - exists (World.objects w). split; [destruct w; reflexivity |].
    split; [exact Hinv |]. simpl. apply set_eq. intros p.
    rewrite elem_of_difference, elem_of_empty. tauto.
  - apply NoDup_cons in Hnd as [Hk Hnd]. apply Forall_cons in Hlive as [Hkl Hlive].
    destruct (GameObject_delete_objects k w Hinv Hkl Hsc)
      as (stops & w1 & E & Hinv1 & Hdom1 & _ & Hflag1 & Hcs1 & Hmode).
    rewrite Hflag in Hmode. destruct Hmode as [_ Hw1].
    destruct (IH w1) as (h' & E' & Hinv' & Hdom').
    { exact Hinv1. }
    { congruence. }
    { rewrite Hw1. exact Hsc. }
    { exact Hnd. }
    { rewrite Forall_forall in Hlive |- *. intros x Hx. apply elem_of_dom.
      rewrite Hdom1. apply elem_of_difference. split; [apply elem_of_dom; auto |].
      intros ->%elem_of_singleton. contradiction. }
    exists h'. split; [|split; [exact Hinv' |]].
    + cbn [for_each]. rewrite E. cbn [fmap option_fmap option_map mbind option_bind snd].
      rewrite E'. rewrite Hw1. reflexivity.
    + rewrite Hdom', Hdom1. simpl. apply set_eq. intros p.
      rewrite !elem_of_difference, elem_of_union, elem_of_singleton. tauto.
Qed.

(** X21. [DestoryAllCreatedGameObjects] in a running program is defined,
    whatever the order in which the created set is iterated: no deleted
    object is touched again, afterwards no Game Object is live, the
    created set is empty, every layer of every created scene is empty, and
    the destroy-all flag is cleared again. *)
Theorem DestoryAllCreatedGameObjects_empties (w : World.t) :
  world_inv w ->
  exists w',
    DestoryAllCreatedGameObjects w = Some w'
    /\ World.objects w' = ∅
    /\ World.__created_game_objs w' = []
    /\ World.__is_destroy_all w' = false
    /\ World.__created_scenes w' = World.__created_scenes w
    /\ (forall s, s ∈ World.__created_scenes w ->
          exists sc, World.scenes w !! s = Some sc
                     /\ World.scenes w' !! s = Some (GameScene.Clear sc)
                     /\ forall obj i, GameScene.IsLayerContain obj i (GameScene.Clear sc) = false)
    /\ world_inv w'.
Proof.
  intros (Hinv & Hnd & Hcr & Hsc & Hflag).
  destruct (destroy_loop_spec (World.__created_game_objs w) (World.with_is_destroy_all true w))
    as (h' & E & Hinv' & Hdom); simpl; try assumption; try reflexivity.
  { rewrite Forall_forall. intros k Hk. apply Hcr. exact Hk. }
  assert (Hempty : h' = ∅).
  { apply dom_empty_iff_L. rewrite Hdom. simpl. apply set_eq. intros p.
    rewrite elem_of_difference, elem_of_list_to_set, elem_of_dom, Hcr, elem_of_empty. tauto. }
  subst h'.
  destruct (ForEachScene_spec GameScene.Clear
              (World.with_created_game_objs []
                 (World.with_objects ∅ (World.with_is_destroy_all true w))))
    as (ss & E2 & Hss).
  { apply Clear_idem. }
  { exact Hsc. }
  eexists. split.
  { unfold DestoryAllCreatedGameObjects. cbn zeta. simpl World.__created_game_objs.
    rewrite E. cbn [mbind option_bind]. rewrite E2. reflexivity. }
  simpl. split; [reflexivity |]. split; [reflexivity |]. split; [reflexivity |].
  split; [reflexivity |]. simpl in Hss. split.
  - intros s Hs. rewrite Forall_forall in Hsc. destruct (Hsc s Hs) as [sc Hsc0].
    exists sc. split; [exact Hsc0 |]. split.
    + rewrite Hss, Hsc0. simpl. rewrite (bool_decide_eq_true_2 _ Hs). reflexivity.
    + intros obj i. apply IsLayerContain_Clear.
  - split; [apply tree_inv_empty |]. simpl. split; [constructor |].
    split; [|split; [|reflexivity]].
    + intros p. rewrite lookup_empty. split; [intros Hp; inversion Hp | intros [? ?]; discriminate].
    + eapply Forall_impl; [exact Hsc |]. intros s Hs. simpl.
      rewrite Hss. apply fmap_is_Some. exact Hs.
Qed.
End destroy_theorems.

(** The two theorems at four Game Objects, 1 -> {3, 2 -> {4}}, and one
    scene with the layers {1, 3} and {2}. *)
Lemma GameObject_delete_no_dangling_witness :
  let h : heap :=
    <[1%positive := GameObject.with_childs [3%positive; 2%positive] GameObject.default]>
      (<[2%positive := GameObject.with_parent (Some 1%positive)
                         (GameObject.with_childs [4%positive] GameObject.default)]>
         (<[3%positive := GameObject.with_parent (Some 1%positive) GameObject.default]>
            (<[4%positive := GameObject.with_parent (Some 2%positive) GameObject.default]> ∅))) in
  let w := World.mk h false [1%positive; 2%positive; 3%positive; 4%positive]
             {[ 10%positive := GameScene.mk [[1%positive; 3%positive]; [2%positive]] ]}
             [10%positive] in
  exists stops w',
    @GameObject_delete front_impl 2 w = Some (stops, w')
    /\ world_inv w' /\ World.objects w' !! 2%positive = None.
Proof.
  intros h w.
  assert (Hw : world_inv w).
  { split; [apply (bool_decide_unpack _); vm_compute; exact I |].
    split; [apply (bool_decide_unpack _); vm_compute; exact I |].
    split; [|split; [apply (bool_decide_unpack _); vm_compute; exact I | reflexivity]].
    intros p. rewrite <- elem_of_dom. simpl. unfold h.
    rewrite !dom_insert_L, dom_empty_L.
    rewrite !elem_of_cons, elem_of_nil, !elem_of_union, !elem_of_singleton, elem_of_empty.
    tauto. }
  assert (Hlive : is_Some (World.objects w !! 2%positive)) by (eexists; reflexivity).
  destruct (@GameObject_delete_no_dangling front_impl 2 w Hw Hlive)
    as (stops & w' & E & Hw' & Hgone & _).
  exists stops, w'. split; [exact E |]. split; [exact Hw' | exact Hgone].
Defined.

Lemma DestoryAllCreatedGameObjects_empties_witness :
  let h : heap :=
    <[1%positive := GameObject.with_childs [3%positive; 2%positive] GameObject.default]>
      (<[2%positive := GameObject.with_parent (Some 1%positive)
                         (GameObject.with_childs [4%positive] GameObject.default)]>
         (<[3%positive := GameObject.with_parent (Some 1%positive) GameObject.default]>
            (<[4%positive := GameObject.with_parent (Some 2%positive) GameObject.default]> ∅))) in
  let w := World.mk h false [1%positive; 2%positive; 3%positive; 4%positive]
             {[ 10%positive := GameScene.mk [[1%positive; 3%positive]; [2%positive]] ]}
             [10%positive] in
  exists w', @DestoryAllCreatedGameObjects front_impl w = Some w' /\ World.objects w' = ∅.
Proof.
  intros h w.
  assert (Hw : world_inv w).
  { split; [apply (bool_decide_unpack _); vm_compute; exact I |].
    split; [apply (bool_decide_unpack _); vm_compute; exact I |].
    split; [|split; [apply (bool_decide_unpack _); vm_compute; exact I | reflexivity]].
    intros p. rewrite <- elem_of_dom. simpl. unfold h.
    rewrite !dom_insert_L, dom_empty_L.
    rewrite !elem_of_cons, elem_of_nil, !elem_of_union, !elem_of_singleton, elem_of_empty.
    tauto. }
  destruct (@DestoryAllCreatedGameObjects_empties front_impl w Hw) as (w' & E & Hempty & _).
  exists w'. split; [exact E | exact Hempty].
Defined.

(** ** Engine_GameObject.h: querying and editing scenes *)

Lemma IsLayerContain_iff (o : ptr) (i : Z) (s : GameScene.t) :
  GameScene.IsLayerContain (Some o) i s = true
  <-> 0 <= i /\ exists a, GameScene.__layers s !! Z.to_nat i = Some a /\ o ∈ a.
Proof.
  split; [apply IsLayerContain_lookup |].
  intros (Hi & a & Ha & Ho). unfold GameScene.IsLayerContain.
  assert (Hlt : (Z.to_nat i < length (GameScene.__layers s))%nat).
  { apply lookup_lt_is_Some. eauto. }
  assert (Hr : out_of_range i (length (GameScene.__layers s)) = false).
  { apply out_of_range_false. lia. }
  rewrite Hr. unfold vector_at. destruct (i <? 0) eqn:Hneg; [lia |].
  rewrite Ha. simpl. unfold uset.contains. apply bool_decide_eq_true_2. exact Ho.
Qed.

Lemma GetGameObjectLayer_loop_spec (o : ptr) (size : nat) (rest : list (list ptr)) (i : Z) :
  0 <= i -> i + Z.of_nat (length rest) <= Z.of_nat size -> Z.of_nat size < 2 ^ 31 ->
  (GameScene.GetGameObjectLayer_loop o size i rest = -1
   /\ forall k l, rest !! k = Some l -> o ∉ l)
  \/ (exists k l,
        rest !! k = Some l /\ o ∈ l
        /\ GameScene.GetGameObjectLayer_loop o size i rest = i + Z.of_nat k
        /\ forall j l', (j < k)%nat -> rest !! j = Some l' -> o ∉ l').
Proof.
  revert i. induction rest as [|layer rest IH]; intros i Hi Hlen Hsize.
  - left. split; [reflexivity |]. intros k l Hk. discriminate.
  - simpl in Hlen. cbn [GameScene.GetGameObjectLayer_loop].
    assert (Hr : out_of_range i size = false) by (apply out_of_range_false; lia).
    rewrite Hr. unfold uset.contains.
    destruct (bool_decide_reflect (o ∈ layer)) as [Hin|Hout].
    + right. exists 0%nat, layer. split; [reflexivity |]. split; [exact Hin |].
      split; [lia |]. intros j l' Hj. lia.
    + assert (Hadd : Int.add i 1 = i + 1).
      { unfold Int.add. apply wrap_in_range. unfold Int.in_range, Int.half_modulus. lia. }
      rewrite Hadd.
      destruct (IH (i + 1)) as [[E Hnone] | (k & l & Hk & Hl & E & Hbefore)];
        [lia | lia | exact Hsize | |].
      * left. split; [exact E |]. intros [|k] l Hk; simpl in Hk.
        -- injection Hk as <-. exact Hout.
        -- eauto.
      * right. exists (S k), l. split; [exact Hk |]. split; [exact Hl |].
        split; [lia |]. intros [|j] l' Hj Hl'; simpl in Hl'.
        -- injection Hl' as <-. exact Hout.
        -- apply (Hbefore j l'); [lia | exact Hl'].
Qed.

Lemma GetGameObjectLayer_spec (s : GameScene.t) (o : ptr) :
  Z.of_nat (GameScene.CountLayer s) < 2 ^ 31 ->
  (GameScene.GetGameObjectLayer (Some o) s = -1
   <-> forall i, GameScene.IsLayerContain (Some o) i s = false)
  /\ (GameScene.GetGameObjectLayer (Some o) s <> -1 ->
      GameScene.IsLayerContain (Some o) (GameScene.GetGameObjectLayer (Some o) s) s = true
      /\ forall j, j < GameScene.GetGameObjectLayer (Some o) s ->
                   GameScene.IsLayerContain (Some o) j s = false).
Proof.
  intros Hsize.
  unfold GameScene.GetGameObjectLayer, GameScene.CountLayer in *.
  destruct (GetGameObjectLayer_loop_spec o (length (GameScene.__layers s))
              (GameScene.__layers s) 0) as [[E Hnone] | (k & l & Hk & Hl & E & Hbefore)];
    [lia | lia | exact Hsize | |]; rewrite E.
  - split; [|intros Hne; contradiction].
    split; [|reflexivity]. intros _ i.
    destruct (GameScene.IsLayerContain (Some o) i s) eqn:Hc; [|reflexivity].
    apply IsLayerContain_iff in Hc as (_ & a & Ha & Ho).
    exfalso. exact (Hnone _ _ Ha Ho).
  - assert (Hin : GameScene.IsLayerContain (Some o) (0 + Z.of_nat k) s = true).
    { apply IsLayerContain_iff. split; [lia |]. exists l.
      replace (Z.to_nat (0 + Z.of_nat k)) with k by lia. auto. }
    split; [split; [lia |] |].
    + intros Hall. rewrite Hall in Hin. discriminate.
    + intros _. split; [exact Hin |]. intros j Hj.
      destruct (GameScene.IsLayerContain (Some o) j s) eqn:Hc; [|reflexivity].
      apply IsLayerContain_iff in Hc as (Hj0 & a & Ha & Ho).
      exfalso. apply (Hbefore (Z.to_nat j) a); [lia | exact Ha | exact Ho].
Qed.

(** X22. [GetGameObjectLayer] agrees with [IsLayerContain]: it returns -1
    for a null pointer and for an object that no layer contains, and
    otherwise the index of the lowest layer that contains the object. *)
Theorem GetGameObjectLayer_lowest_layer (s : GameScene.t) (o : ptr) :
  Z.of_nat (GameScene.CountLayer s) < 2 ^ 31 ->
  GameScene.GetGameObjectLayer None s = -1
  /\ (GameScene.GetGameObjectLayer (Some o) s = -1
      <-> forall i, GameScene.IsLayerContain (Some o) i s = false)
  /\ (GameScene.GetGameObjectLayer (Some o) s <> -1 ->
      GameScene.IsLayerContain (Some o) (GameScene.GetGameObjectLayer (Some o) s) s = true
      /\ forall j, j < GameScene.GetGameObjectLayer (Some o) s ->
                   GameScene.IsLayerContain (Some o) j s = false).
Proof.
  intros Hsize. split; [reflexivity |]. apply GetGameObjectLayer_spec. exact Hsize.
Qed.

Lemma GetGameObjectLayer_lowest_layer_witness :
  GameScene.GetGameObjectLayer (Some 7%positive)
    (GameScene.mk [[1%positive]; [7%positive; 2%positive]; []]) <> -1
  /\ GameScene.IsLayerContain (Some 7%positive) 1
       (GameScene.mk [[1%positive]; [7%positive; 2%positive]; []]) = true.
Proof.
  assert (Hsize : Z.of_nat (GameScene.CountLayer
                    (GameScene.mk [[1%positive]; [7%positive; 2%positive]; []])) < 2 ^ 31)
    by (vm_compute; reflexivity).
  assert (Hne : GameScene.GetGameObjectLayer (Some 7%positive)
                  (GameScene.mk [[1%positive]; [7%positive; 2%positive]; []]) <> -1)
    by (vm_compute; discriminate).
  split; [exact Hne |].
  exact (proj1 (proj2 (proj2 (GetGameObjectLayer_lowest_layer _ 7 Hsize)) Hne)).
Defined.

Lemma Count_all_join (s : GameScene.t) :
  GameScene.Count_all s = length (mjoin (GameScene.__layers s)).
Proof.
  unfold GameScene.Count_all.
  assert (Hgen : forall (l : list (list ptr)) (acc : nat),
            foldl (fun result layer => (result + length layer)%nat) acc l
            = (acc + length (mjoin l))%nat).
  { induction l as [|x l IH]; intros acc; simpl; [lia |].
    rewrite IH, length_app. lia. }
  rewrite Hgen. reflexivity.
Qed.

Lemma elem_of_join_IsLayerContain (o : ptr) (s : GameScene.t) :
  o ∈ mjoin (GameScene.__layers s)
  <-> exists i, GameScene.IsLayerContain (Some o) i s = true.
Proof.
  rewrite list_elem_of_join. split.
  - intros (a & Ho & Ha). apply list_elem_of_lookup in Ha as [k Hk].
    exists (Z.of_nat k). apply IsLayerContain_iff. split; [lia |].
    exists a. rewrite Nat2Z.id. auto.
  - intros (i & (_ & a & Ha & Ho)%IsLayerContain_iff).
    exists a. split; [exact Ho |]. apply list_elem_of_lookup. eauto.
Qed.

Lemma uset_erase_not_in (x : ptr) (l : list ptr) : x ∉ l -> uset.erase x l = l.
Proof.
  intros Hx. unfold uset.erase. induction l as [|y l IH]; [reflexivity |].
  apply not_elem_of_cons in Hx as [Hne Hx].
  rewrite filter_cons_True by congruence. rewrite IH by exact Hx. reflexivity.
Qed.

Lemma length_uset_erase (x : ptr) (l : list ptr) :
  NoDup l -> x ∈ l -> S (length (uset.erase x l)) = length l.
Proof.
  intros Hnd Hx. unfold uset.erase. induction Hnd as [|y l Hy Hnd IH]; [inversion Hx |].
  destruct (decide (y = x)) as [->|Hne].
  - rewrite filter_cons_False by tauto.
    change (filter (fun y => y <> x) l) with (uset.erase x l).
    rewrite uset_erase_not_in by exact Hy. reflexivity.
  - rewrite filter_cons_True by exact Hne. simpl. f_equal. apply IH.
    apply elem_of_cons in Hx as [->|Hx]; [contradiction | exact Hx].
Qed.

Section scene_round_trips.
Context `{UnorderedSetImpl}.

(** The objects of a scene after [Add]. *)
Lemma Add_join (o : ptr) (layer : Z) (s : GameScene.t) :
  scene_inv s ->
  exists s',
    GameScene.Add (Some o) layer s = Some s'
    /\ mjoin (GameScene.__layers s') ≡ₚ o :: uset.erase o (mjoin (GameScene.__layers s))
    /\ GameScene.CountLayer s' = GameScene.CountLayer s.
Proof.
  intros [Hne Hnd]. destruct s as [l]. simpl in *.
  unfold GameScene.Add, GameScene.CountLayer. simpl.
  assert (Hlen : length l <> 0%nat) by (destruct l; [contradiction | discriminate]).
  pose proof (curr_layer_in_range layer (length l) Hlen) as Hrange.
  set (target := GameScene.curr_layer layer (length l)) in *.
  assert (HT : (Z.to_nat target < length l)%nat) by lia.
  destruct (lookup_lt_is_Some_2 l _ HT) as [a Ha].
  assert (He : (uset.erase o <$> l) !! Z.to_nat target = Some (uset.erase o a)).
  { rewrite list_lookup_fmap, Ha. reflexivity. }
  unfold vector_at. destruct (target <? 0) eqn:Hneg; [lia |].
  rewrite He. simpl. eexists. split; [reflexivity |]. simpl. split.
  - rewrite (join_insert _ _ _ _ He).
    rewrite uset_insert_perm by (rewrite elem_of_uset_erase; tauto).
    simpl. rewrite <- (join_delete _ _ _ He), join_erase. reflexivity.
  - rewrite length_insert, length_fmap. reflexivity.
Qed.

(** X23. [Add] and [Remove] against [GetGameObjectLayer] and [Count]: in a
    scene whose layers share no Game Object, adding an object is defined;
    afterwards [GetGameObjectLayer] returns the requested layer, or the
    top layer when the request is negative or out of range; the number of
    layers is unchanged; the object count grows by one when the object was
    not in the scene and is unchanged when it was only moved. Removing the
    object again makes [GetGameObjectLayer] return -1 and lowers the count
    by one. *)
Theorem Add_GetGameObjectLayer_round_trip (o : ptr) (layer : Z) (s : GameScene.t) :
  scene_inv s -> Z.of_nat (GameScene.CountLayer s) < 2 ^ 31 ->
  exists s',
    GameScene.Add (Some o) layer s = Some s'
    /\ GameScene.GetGameObjectLayer (Some o) s'
       = (if decide (0 <= layer < Z.of_nat (GameScene.CountLayer s))
          then layer else Z.of_nat (GameScene.CountLayer s) - 1)
    /\ GameScene.CountLayer s' = GameScene.CountLayer s
    /\ GameScene.Count_all s'
       = (if decide (GameScene.GetGameObjectLayer (Some o) s = -1)
          then S (GameScene.Count_all s) else GameScene.Count_all s)
    /\ GameScene.GetGameObjectLayer (Some o) (GameScene.Remove (Some o) s') = -1
    /\ S (GameScene.Count_all (GameScene.Remove (Some o) s')) = GameScene.Count_all s'.
Proof.
  intros Hinv Hsize.
  destruct (Add_spec o layer s Hinv) as (s' & E & Hinv' & Hwhere).
  destruct (Add_join o layer s Hinv) as (s'' & E'' & Hperm & Hcount).
  assert (s'' = s') by congruence. subst s''.
  exists s'. split; [exact E |].
  assert (Hsize' : Z.of_nat (GameScene.CountLayer s') < 2 ^ 31) by (rewrite Hcount; exact Hsize).
  assert (Htarget : GameScene.curr_layer layer (GameScene.CountLayer s)
                    = if decide (0 <= layer < Z.of_nat (GameScene.CountLayer s))
                      then layer else Z.of_nat (GameScene.CountLayer s) - 1).
  { unfold GameScene.curr_layer, out_of_range.
    destruct (decide (0 <= layer < Z.of_nat (GameScene.CountLayer s)));
      destruct (layer <? 0) eqn:H1, (layer >=? Z.of_nat (GameScene.CountLayer s)) eqn:H2;
      simpl; lia. }
  destruct Hinv as [Hne Hnd]. destruct Hinv' as [Hne' Hnd'].
  assert (Hin' : o ∈ mjoin (GameScene.__layers s')).
  { rewrite Hperm. left. }
  split; [|split; [exact Hcount |split; [|split]]].
  - destruct (GetGameObjectLayer_spec s' o Hsize') as [Hnone Hsome].
    rewrite <- Htarget. apply Hwhere. apply Hsome. intros Hno.
    apply elem_of_join_IsLayerContain in Hin' as [i Hi].
    rewrite (proj1 Hnone Hno) in Hi. discriminate.
  - destruct (GetGameObjectLayer_spec s o Hsize) as [Hnone _].
    destruct (decide (GameScene.GetGameObjectLayer (Some o) s = -1)) as [Hno|Hyes];
      rewrite !Count_all_join, Hperm; cbn [length].
    + rewrite uset_erase_not_in; [reflexivity |].
      intros [i Hi]%elem_of_join_IsLayerContain.
      rewrite (proj1 Hnone Hno) in Hi. discriminate.
    + apply length_uset_erase; [exact Hnd |].
      destruct (decide (o ∈ mjoin (GameScene.__layers s))) as [Hex|Hnex]; [exact Hex |].
      exfalso. apply Hyes, Hnone. intros i.
      destruct (GameScene.IsLayerContain (Some o) i s) eqn:Hc; [|reflexivity].
      exfalso. apply Hnex, elem_of_join_IsLayerContain. eauto.
  - apply GetGameObjectLayer_spec.
    + unfold GameScene.CountLayer, GameScene.Remove in *. simpl.
      rewrite length_fmap. exact Hsize'.
    + intros i. apply IsLayerContain_Remove.
  - rewrite !Count_all_join. unfold GameScene.Remove. simpl. rewrite join_erase.
    apply length_uset_erase; assumption.
Qed.
End scene_round_trips.

Lemma Add_GetGameObjectLayer_round_trip_witness :
  exists s',
    @GameScene.Add front_impl (Some 7%positive) 5
      (GameScene.mk [[1%positive]; [7%positive; 2%positive]; []]) = Some s'
    /\ GameScene.GetGameObjectLayer (Some 7%positive) s' = 2.
Proof.
  assert (Hinv : scene_inv (GameScene.mk [[1%positive]; [7%positive; 2%positive]; []]))
    by (apply (bool_decide_unpack _); vm_compute; exact I).
  assert (Hsize : Z.of_nat (GameScene.CountLayer
                    (GameScene.mk [[1%positive]; [7%positive; 2%positive]; []])) < 2 ^ 31)
    by (vm_compute; reflexivity).
  destruct (@Add_GetGameObjectLayer_round_trip front_impl 7 5 _ Hinv Hsize)
    as (s' & E & Hlayer & _).
  exists s'. split; [exact E | exact Hlayer].
Defined.

(** Replacing one layer: the objects gained and lost. *)
Lemma join_insert_swap (l : list (list ptr)) (k : nat) (x y : list ptr) :
  l !! k = Some x -> mjoin (<[k := y]> l) ++ x ≡ₚ y ++ mjoin l.
Proof.
  intros Hk. rewrite (join_insert l k x y Hk), (join_delete l k x Hk).
  rewrite <- (assoc app). apply Permutation_app_head, Permutation_app_comm.
Qed.

Lemma SwapLayer_join (l : list (list ptr)) (n1 n2 : nat) (a b : list ptr) :
  l !! n1 = Some a -> l !! n2 = Some b -> n1 <> n2 ->
  mjoin (<[n2 := a]> (<[n1 := b]> l)) ≡ₚ mjoin l.
Proof.
  intros H1 H2 Hne.
  assert (H2' : <[n1 := b]> l !! n2 = Some b).
  { rewrite list_lookup_insert_ne by exact Hne. exact H2. }
  pose proof (join_insert_swap _ n2 b a H2') as P2.
  pose proof (join_insert_swap l n1 a b H1) as P1.
  apply (Permutation_app_inv_r (b ++ a)).
  transitivity ((mjoin (<[n2 := a]> (<[n1 := b]> l)) ++ b) ++ a);
    [rewrite <- (assoc app); reflexivity |].
  rewrite P2, <- (assoc app), P1.
  rewrite (Permutation_app_comm (mjoin l)), (assoc app a b).
  apply Permutation_app_tail, Permutation_app_comm.
Qed.

(** X24. [SwapLayer] exchanges the contents of two layers and nothing
    else: with both indices in range, a Game Object is in layer i of the
    result exactly when it was in the layer that i is exchanged with, the
    number of layers and the number of objects are unchanged and the
    layers still share no object; with equal indices or an index out of
    range the scene is unchanged. *)
Theorem SwapLayer_exchanges (i1 i2 : Z) (s : GameScene.t) :
  (i1 = i2 \/ out_of_range i1 (GameScene.CountLayer s) = true
   \/ out_of_range i2 (GameScene.CountLayer s) = true ->
   GameScene.SwapLayer i1 i2 s = s)
  /\ (0 <= i1 < Z.of_nat (GameScene.CountLayer s) ->
      0 <= i2 < Z.of_nat (GameScene.CountLayer s) ->
      GameScene.CountLayer (GameScene.SwapLayer i1 i2 s) = GameScene.CountLayer s
      /\ (forall obj i,
            GameScene.IsLayerContain obj i (GameScene.SwapLayer i1 i2 s)
            = GameScene.IsLayerContain obj
                (if i =? i1 then i2 else if i =? i2 then i1 else i) s)
      /\ GameScene.Count_all (GameScene.SwapLayer i1 i2 s) = GameScene.Count_all s
      /\ (scene_inv s -> scene_inv (GameScene.SwapLayer i1 i2 s))).
Proof.
  unfold GameScene.CountLayer. destruct s as [l]. cbn [GameScene.__layers]. split.
  { unfold GameScene.SwapLayer. cbn [GameScene.__layers].
    intros [-> | [Hr | Hr]].
    - rewrite bool_decide_eq_true_2 by reflexivity. reflexivity.
    - destruct (bool_decide (i1 = i2)); [reflexivity |]. rewrite Hr. reflexivity.
    - destruct (bool_decide (i1 = i2)); [reflexivity |].
      destruct (out_of_range i1 (length l)); [reflexivity |]. rewrite Hr. reflexivity. }
  intros H1 H2.
  destruct (decide (i1 = i2)) as [->|Hne].
  { unfold GameScene.SwapLayer. rewrite bool_decide_eq_true_2 by reflexivity.
    split; [reflexivity |]. split; [|split; [reflexivity | auto]].
    intros obj i. destruct (i =? i2) eqn:Hi; [|reflexivity].
    apply Z.eqb_eq in Hi. subst i. reflexivity. }
  destruct (lookup_lt_is_Some_2 l (Z.to_nat i1)) as [a Ha]; [lia |].
  destruct (lookup_lt_is_Some_2 l (Z.to_nat i2)) as [b Hb]; [lia |].
  assert (Hn : Z.to_nat i1 <> Z.to_nat i2) by lia.
  assert (E : GameScene.SwapLayer i1 i2 (GameScene.mk l)
              = GameScene.mk (<[Z.to_nat i2 := a]> (<[Z.to_nat i1 := b]> l))).
  { unfold GameScene.SwapLayer. cbn [GameScene.__layers].
    rewrite bool_decide_eq_false_2 by exact Hne.
    rewrite (proj2 (out_of_range_false i1 (length l)) H1).
    rewrite (proj2 (out_of_range_false i2 (length l)) H2).
    rewrite (list_lookup_total_correct l _ a Ha), (list_lookup_total_correct l _ b Hb).
    reflexivity. }
  rewrite E. cbn [GameScene.__layers].
  pose proof (SwapLayer_join l _ _ a b Ha Hb Hn) as Hperm.
  split; [rewrite !length_insert; reflexivity |]. split; [|split].
  - intros [o|] i; [|reflexivity].
    unfold GameScene.IsLayerContain. cbn [GameScene.__layers]. rewrite !length_insert.
    destruct (out_of_range i (length l)) eqn:Hi.
    { assert (Hi1 : (i =? i1) = false).
      { apply Z.eqb_neq. intros ->. apply out_of_range_false in H1. congruence. }
      assert (Hi2 : (i =? i2) = false).
      { apply Z.eqb_neq. intros ->. apply out_of_range_false in H2. congruence. }
      rewrite Hi1, Hi2, Hi. reflexivity. }
    apply out_of_range_false in Hi. unfold vector_at.
    destruct (i <? 0) eqn:Hneg; [lia |].
    destruct (Z.eqb_spec i i1) as [->|Hni1].
    { rewrite (proj2 (out_of_range_false i2 (length l)) H2).
      destruct (i2 <? 0) eqn:Hneg2; [lia |].
      rewrite list_lookup_insert_ne by congruence.
      rewrite list_lookup_insert_eq by lia. rewrite Hb. reflexivity. }
    destruct (Z.eqb_spec i i2) as [->|Hni2].
    { rewrite (proj2 (out_of_range_false i1 (length l)) H1).
      destruct (i1 <? 0) eqn:Hneg1; [lia |].
      rewrite list_lookup_insert_eq by (rewrite length_insert; lia).
      rewrite Ha. reflexivity. }
    rewrite (proj2 (out_of_range_false i (length l)) Hi), Hneg.
    rewrite !list_lookup_insert_ne by lia. reflexivity.
  - rewrite !Count_all_join. cbn [GameScene.__layers]. rewrite Hperm. reflexivity.
  - intros [Hnil Hnd]. split; cbn [GameScene.__layers] in *.
    + intros Hl. apply (f_equal length) in Hl. rewrite !length_insert in Hl.
      destruct l; [contradiction | discriminate].
    + rewrite Hperm. exact Hnd.
Qed.

Lemma SwapLayer_exchanges_witness :
  GameScene.IsLayerContain (Some 7%positive) 0
    (GameScene.SwapLayer 0 1 (GameScene.mk [[1%positive]; [7%positive; 2%positive]; []]))
  = GameScene.IsLayerContain (Some 7%positive) 1
      (GameScene.mk [[1%positive]; [7%positive; 2%positive]; []]).
Proof.
  assert (H1 : 0 <= 0 < Z.of_nat (GameScene.CountLayer
                 (GameScene.mk [[1%positive]; [7%positive; 2%positive]; []])))
    by (vm_compute; split; [discriminate | reflexivity]).
  assert (H2 : 0 <= 1 < Z.of_nat (GameScene.CountLayer
                 (GameScene.mk [[1%positive]; [7%positive; 2%positive]; []])))
    by (vm_compute; split; [discriminate | reflexivity]).
  exact (proj1 (proj2 (proj2 (SwapLayer_exchanges 0 1 _) H1 H2)) (Some 7%positive) 0).
Defined.

(** The second loop of [RemoveIf] for one layer, over the collected
    objects [rs]. *)
Lemma RemoveIf_erase_loop (rs : list ptr) (count : nat) (layer : list ptr) :
  foldl (fun '((count, layer) : nat * list ptr) obj => (S count, uset.erase obj layer))
        (count, layer) rs
  = ((length rs + count)%nat, filter (fun y => y ∉ rs) layer).
Proof.
  revert count layer. induction rs as [|r rs IH]; intros count layer.
  - simpl. rewrite filter_not_in_nil. reflexivity.
  - cbn [foldl]. rewrite IH, filter_not_in_erase. f_equal. simpl. lia.
Qed.

Lemma RemoveIf_layer_spec (predicate : ptr -> bool) (count : nat) (layer : list ptr) :
  GameScene.RemoveIf_layer predicate count layer
  = ((length (filter (fun obj => predicate obj = true) layer) + count)%nat,
     filter (fun obj => predicate obj <> true) layer).
Proof.
  unfold GameScene.RemoveIf_layer. rewrite RemoveIf_erase_loop. f_equal.
  apply filter_iff_on. intros y Hy. rewrite list_elem_of_filter. tauto.
Qed.

Lemma RemoveIf_layers_spec (predicate : ptr -> bool) (count : nat) (layers : list (list ptr)) :
  GameScene.RemoveIf_layers predicate count layers
  = ((length (filter (fun obj => predicate obj = true) (mjoin layers)) + count)%nat,
     filter (fun obj => predicate obj <> true) <$> layers).
Proof.
  revert count. induction layers as [|layer layers IH]; intros count; [reflexivity |].
  cbn [GameScene.RemoveIf_layers]. rewrite RemoveIf_layer_spec, IH.
  csimpl. rewrite filter_app, length_app. f_equal. lia.
Qed.

Lemma length_filter_split (P : ptr -> Prop) `{!forall x, Decision (P x)} (l : list ptr) :
  (length (filter P l) + length (filter (fun x => ~ P x) l))%nat = length l.
Proof.
  induction l as [|x l IH]; [reflexivity |].
  destruct (decide (P x)) as [Hp|Hp].
  - rewrite (filter_cons_True P) by exact Hp.
    rewrite (filter_cons_False (fun x => ~ P x)) by tauto. simpl. lia.
  - rewrite (filter_cons_False P) by exact Hp.
    rewrite (filter_cons_True (fun x => ~ P x)) by exact Hp. simpl. lia.
Qed.

Lemma join_filter (P : ptr -> Prop) `{!forall x, Decision (P x)} (l : list (list ptr)) :
  mjoin (filter P <$> l) = filter P (mjoin l).
Proof.
  induction l as [|x l IH]; [reflexivity |]. csimpl. rewrite IH, filter_app. reflexivity.
Qed.

(** X25. [RemoveIf] removes exactly the Game Objects the predicate
    accepts: the count it returns is the number of accepted objects of the
    scene, each layer keeps its rejected objects in their order, the
    object count drops by the returned count, the number of layers is
    unchanged, and layers that shared no object still share none. An
    empty predicate returns 0 and changes nothing. *)
Theorem RemoveIf_removes_accepted (predicate : ptr -> bool) (s : GameScene.t) :
  GameScene.RemoveIf None s = (0%nat, s)
  /\ fst (GameScene.RemoveIf (Some predicate) s)
     = length (filter (fun obj => predicate obj = true) (mjoin (GameScene.__layers s)))
  /\ GameScene.__layers (snd (GameScene.RemoveIf (Some predicate) s))
     = (filter (fun obj => predicate obj <> true) <$> GameScene.__layers s)
  /\ (forall o i,
        GameScene.IsLayerContain (Some o) i (snd (GameScene.RemoveIf (Some predicate) s))
        = GameScene.IsLayerContain (Some o) i s && negb (predicate o))
  /\ (GameScene.Count_all (snd (GameScene.RemoveIf (Some predicate) s))
      + fst (GameScene.RemoveIf (Some predicate) s))%nat = GameScene.Count_all s
  /\ GameScene.CountLayer (snd (GameScene.RemoveIf (Some predicate) s))
     = GameScene.CountLayer s
  /\ (scene_inv s -> scene_inv (snd (GameScene.RemoveIf (Some predicate) s))).
Proof.
  split; [reflexivity |].
  unfold GameScene.RemoveIf. rewrite RemoveIf_layers_spec. cbn [fst snd GameScene.__layers].
  rewrite Nat.add_0_r. split; [reflexivity |]. split; [reflexivity |].
  split; [|split; [|split]].
  - intros o i. unfold GameScene.IsLayerContain. cbn [GameScene.__layers].
    rewrite length_fmap. destruct (out_of_range i _); [reflexivity |].
    unfold vector_at. destruct (i <? 0); [reflexivity |].
    rewrite list_lookup_fmap. destruct (GameScene.__layers s !! Z.to_nat i) as [a|];
      [|reflexivity].
    simpl. unfold uset.contains.
    destruct (bool_decide_reflect (o ∈ a)) as [Hin|Hout], (predicate o) eqn:Hp; simpl.
    + apply bool_decide_eq_false_2. rewrite list_elem_of_filter. intros [Hn _]. congruence.
    + apply bool_decide_eq_true_2. rewrite list_elem_of_filter. split; [congruence | exact Hin].
    + apply bool_decide_eq_false_2. rewrite list_elem_of_filter. tauto.
    + apply bool_decide_eq_false_2. rewrite list_elem_of_filter. tauto.
  - rewrite !Count_all_join. cbn [GameScene.__layers]. rewrite join_filter.
    rewrite Nat.add_comm. apply length_filter_split.
  - unfold GameScene.CountLayer. cbn [GameScene.__layers]. apply length_fmap.
  - intros [Hnil Hnd]. split; cbn [GameScene.__layers].
    + intros Hl. apply fmap_nil_inv in Hl. contradiction.
    + rewrite join_filter. apply NoDup_filter. exact Hnd.
Qed.

Lemma RemoveIf_removes_accepted_witness :
  scene_inv (snd (GameScene.RemoveIf (Some (Pos.eqb 7))
                    (GameScene.mk [[1%positive]; [7%positive; 2%positive]; []]))).
Proof.
  assert (Hinv : scene_inv (GameScene.mk [[1%positive]; [7%positive; 2%positive]; []]))
    by (apply (bool_decide_unpack _); vm_compute; exact I).
  exact (proj2 (proj2 (proj2 (proj2 (proj2 (proj2
           (RemoveIf_removes_accepted (Pos.eqb 7) _)))))) Hinv).
Defined.

(** [IsLayerContain] as a lookup: an index out of range finds no layer. *)
Lemma IsLayerContain_eq (o : ptr) (i : Z) (s : GameScene.t) :
  GameScene.IsLayerContain (Some o) i s
  = if i <? 0 then false
    else from_option (uset.contains o) false (GameScene.__layers s !! Z.to_nat i).
Proof.
  unfold GameScene.IsLayerContain, vector_at, out_of_range.
  destruct (i <? 0) eqn:Hneg; [reflexivity |]. simpl.
  destruct (i >=? Z.of_nat (length (GameScene.__layers s))) eqn:Hge; [|reflexivity].
  rewrite lookup_ge_None_2 by lia. reflexivity.
Qed.

(** X26. [AddLayer] inserts an empty layer and shifts the layers above
    it: the new layer takes the requested index, or the top when the
    request is negative or out of range; the layers below keep their
    index, the layers from that index on move up by one, and no Game
    Object is lost. *)
Theorem AddLayer_shifts_layers (index : Z) (s : GameScene.t) :
  let target := if decide (0 <= index < Z.of_nat (GameScene.CountLayer s))
                then index else Z.of_nat (GameScene.CountLayer s) in
  GameScene.CountLayer (GameScene.AddLayer index s) = S (GameScene.CountLayer s)
  /\ (forall obj i,
        GameScene.IsLayerContain obj i (GameScene.AddLayer index s)
        = if i <? target then GameScene.IsLayerContain obj i s
          else if i =? target then false
          else GameScene.IsLayerContain obj (i - 1) s)
  /\ GameScene.Count_all (GameScene.AddLayer index s) = GameScene.Count_all s.
Proof.
  intros target. destruct s as [l]. unfold GameScene.CountLayer in *.
  cbn [GameScene.__layers] in *.
  assert (Ht : 0 <= target <= Z.of_nat (length l)).
  { subst target. destruct (decide (0 <= index < Z.of_nat (length l))); lia. }
  assert (E : GameScene.AddLayer index (GameScene.mk l)
              = GameScene.mk (take (Z.to_nat target) l ++ [] :: drop (Z.to_nat target) l)).
  { unfold GameScene.AddLayer. cbn [GameScene.__layers]. subst target.
    unfold out_of_range.
    destruct (decide (0 <= index < Z.of_nat (length l)));
      destruct (index <? 0) eqn:H1, (index >=? Z.of_nat (length l)) eqn:H2;
      simpl; first [reflexivity | lia]. }
  rewrite E. cbn [GameScene.__layers]. clear E.
  assert (Hlen : length (take (Z.to_nat target) l) = Z.to_nat target)
    by (apply length_take_le; lia).
  split; [|split].
  - rewrite length_app, Hlen. simpl. rewrite length_drop. lia.
  - intros [o|] i.
    2:{ destruct (i <? target), (i =? target); reflexivity. }
    rewrite !IsLayerContain_eq. cbn [GameScene.__layers].
    destruct (i <? 0) eqn:Hneg.
    { destruct (i <? target) eqn:H1; [reflexivity | lia]. }
    destruct (Z.ltb_spec i target) as [Hlt|Hge].
    { rewrite lookup_app_l by lia. rewrite lookup_take_lt by lia. reflexivity. }
    rewrite lookup_app_r by lia. rewrite Hlen.
    destruct (Z.eqb_spec i target) as [->|Hne].
    { rewrite Nat.sub_diag. reflexivity. }
    destruct (i - 1 <? 0) eqn:Hneg1; [lia |].
    rewrite lookup_cons_ne_0 by lia. rewrite lookup_drop. f_equal. f_equal. lia.
  - rewrite !Count_all_join. cbn [GameScene.__layers].
    rewrite <- (take_drop (Z.to_nat target) l) at 3. rewrite !join_app. reflexivity.
Qed.

(** X27. [RemoveLayer] on a scene with one layer keeps the layer and
    empties it. On a scene with more layers it removes the requested
    layer, or the top layer when the request is negative or out of range:
    the layers below keep their index and their objects, the layers above
    move down by one. *)
Theorem RemoveLayer_shifts_layers (index : Z) (s : GameScene.t) :
  (GameScene.CountLayer s = 1%nat ->
   GameScene.CountLayer (GameScene.RemoveLayer index s) = 1%nat
   /\ forall obj i, GameScene.IsLayerContain obj i (GameScene.RemoveLayer index s) = false)
  /\ ((2 <= GameScene.CountLayer s)%nat ->
      let target := if decide (0 <= index < Z.of_nat (GameScene.CountLayer s))
                    then index else Z.of_nat (GameScene.CountLayer s) - 1 in
      S (GameScene.CountLayer (GameScene.RemoveLayer index s)) = GameScene.CountLayer s
      /\ forall obj i,
           GameScene.IsLayerContain obj i (GameScene.RemoveLayer index s)
           = if i <? target then GameScene.IsLayerContain obj i s
             else GameScene.IsLayerContain obj (i + 1) s).
Proof.
  destruct s as [l]. unfold GameScene.CountLayer. cbn [GameScene.__layers]. split.
  - intros Hone. unfold GameScene.RemoveLayer. cbn [GameScene.__layers].
    rewrite Hone. cbn [Nat.eqb]. cbn [GameScene.__layers].
    split; [rewrite length_insert; exact Hone |].
    intros [o|] i; [|reflexivity]. rewrite IsLayerContain_eq. cbn [GameScene.__layers].
    destruct (i <? 0); [reflexivity |].
    destruct l as [|a [|b l]]; try discriminate.
    destruct (Z.to_nat i) as [|k]; reflexivity.
  - intros Htwo.
    set (target := if decide (0 <= index < Z.of_nat (length l))
                   then index else Z.of_nat (length l) - 1).
    assert (Ht : 0 <= target < Z.of_nat (length l)).
    { subst target. destruct (decide (0 <= index < Z.of_nat (length l))); lia. }
    assert (E : GameScene.RemoveLayer index (GameScene.mk l)
                = GameScene.mk (delete (Z.to_nat target) l)).
    { unfold GameScene.RemoveLayer. cbn [GameScene.__layers].
      destruct (Nat.eqb_spec (length l) 1) as [Hone|_]; [lia |].
      subst target. unfold out_of_range.
      destruct (decide (0 <= index < Z.of_nat (length l)));
        destruct (index <? 0) eqn:H1, (index >=? Z.of_nat (length l)) eqn:H2;
        simpl; first [reflexivity | lia]. }
    rewrite E. cbn [GameScene.__layers]. clear E. split.
    + rewrite length_delete by (apply lookup_lt_is_Some; lia). lia.
    + intros [o|] i.
      2:{ destruct (i <? target); reflexivity. }
      rewrite !IsLayerContain_eq. cbn [GameScene.__layers].
      destruct (i <? 0) eqn:Hneg.
      { destruct (i <? target) eqn:H1; [reflexivity | lia]. }
      destruct (Z.ltb_spec i target) as [Hlt|Hge].
      { rewrite list_lookup_delete_lt by lia. reflexivity. }
      rewrite list_lookup_delete_ge by lia.
      destruct (i + 1 <? 0) eqn:Hneg1; [lia |].
      replace (Z.to_nat (i + 1)) with (S (Z.to_nat i)) by lia. reflexivity.
Qed.

Lemma RemoveLayer_shifts_layers_witness :
  GameScene.IsLayerContain (Some 7%positive) 0
    (GameScene.RemoveLayer 0 (GameScene.mk [[1%positive]; [7%positive; 2%positive]; []]))
  = GameScene.IsLayerContain (Some 7%positive) 1
      (GameScene.mk [[1%positive]; [7%positive; 2%positive]; []]).
Proof.
  assert (Htwo : (2 <= GameScene.CountLayer
                    (GameScene.mk [[1%positive]; [7%positive; 2%positive]; []]))%nat)
    by (vm_compute; lia).
  exact (proj2 (proj2 (RemoveLayer_shifts_layers 0 _) Htwo) (Some 7%positive) 0).
Defined.

(** ** Engine_GameObject.h: searching a scene *)

Lemma IsContain_children_spec (h : heap) (o : ptr) (layer : list ptr) :
  Forall (fun p => is_Some (h !! p)) layer ->
  exists b,
    GameScene.IsContain_children h o layer = Some b
    /\ (b = true <-> exists p, p ∈ layer /\ child_of h o p).
Proof.
  induction layer as [|x layer IH]; intros Hlive.
  - exists false. split; [reflexivity |]. split; [discriminate |].
    intros (p & Hp & _). inversion Hp.
  - apply Forall_cons in Hlive as [[q Hx] Hlayer].
    cbn [GameScene.IsContain_children]. unfold IsContainChild. rewrite Hx.
    cbn [mbind option_bind negb]. unfold uset.contains.
    destruct (bool_decide_reflect (o ∈ GameObject.__childs q)) as [Hin|Hout].
    + exists true. split; [reflexivity |]. split; [|reflexivity].
      intros _. exists x. split; [left |]. unfold child_of. rewrite Hx. exact Hin.
    + destruct (IH Hlayer) as (b & E & Hb). exists b. split; [exact E |].
      rewrite Hb. split.
      * intros (p & Hp & Hc). exists p. split; [right; exact Hp | exact Hc].
      * intros (p & Hp & Hc). apply elem_of_cons in Hp as [->|Hp].
        -- exfalso. apply Hout. unfold child_of in Hc. rewrite Hx in Hc. exact Hc.
        -- exists p. tauto.
Qed.

Lemma IsContain_loop_spec (h : heap) (o : ptr) (layers : list (list ptr)) :
  Forall (fun p => is_Some (h !! p)) (mjoin layers) ->
  GameScene.IsContain_loop h o false layers = Some (bool_decide (o ∈ mjoin layers))
  /\ exists b,
       GameScene.IsContain_loop h o true layers = Some b
       /\ (b = true <-> o ∈ mjoin layers \/ exists p, p ∈ mjoin layers /\ child_of h o p).
Proof.
  induction layers as [|layer layers IH]; intros Hlive.
  - split; [reflexivity |]. exists false. split; [reflexivity |].
    split; [discriminate |]. intros [Hin | (p & Hin & _)]; inversion Hin.
  - csimpl in Hlive. apply Forall_app in Hlive as [Hlayer Hrest].
    destruct (IH Hrest) as (Efalse & b & Etrue & Hb).
    cbn [GameScene.IsContain_loop negb]. csimpl. unfold uset.contains.
    destruct (bool_decide_reflect (o ∈ layer)) as [Hin|Hout].
    + split.
      * f_equal. symmetry. apply bool_decide_eq_true_2. apply elem_of_app. tauto.
      * exists true. split; [reflexivity |]. split; [|reflexivity].
        intros _. left. apply elem_of_app. tauto.
    + split.
      * rewrite Efalse. f_equal. apply bool_decide_ext. rewrite elem_of_app. tauto.
      * destruct (IsContain_children_spec h o layer Hlayer) as (b1 & E1 & Hb1).
        rewrite E1. cbn [mbind option_bind]. destruct b1.
        -- exists true. split; [reflexivity |]. split; [|reflexivity].
           intros _. right. destruct (proj1 Hb1 eq_refl) as (p & Hp & Hc).
           exists p. split; [apply elem_of_app; tauto | exact Hc].
        -- exists b. split; [exact Etrue |]. rewrite Hb. split.
           ++ intros [Ho | (p & Hp & Hc)].
              ** left. apply elem_of_app. tauto.
              ** right. exists p. split; [apply elem_of_app; tauto | exact Hc].
           ++ intros [Ho | (p & Hp & Hc)].
              ** apply elem_of_app in Ho as [Ho|Ho]; [contradiction | tauto].
              ** apply elem_of_app in Hp as [Hp|Hp].
                 --- assert (Hf : false = true) by (apply Hb1; eauto). discriminate.
                 --- right. eauto.
Qed.

(** X28. [IsContain] of a scene whose Game Objects are live: a null
    pointer is never contained; without [recursive] the answer is
    membership in some layer; with [recursive = true] each object of the
    scene is asked [IsContainChild] without passing [recursive] on, so the
    search finds exactly the objects of the scene and their children, and
    no deeper descendant. *)
Theorem IsContain_one_level (h : heap) (o : ptr) (s : GameScene.t) :
  Forall (fun p => is_Some (h !! p)) (mjoin (GameScene.__layers s)) ->
  (forall recursive, GameScene.IsContain h None recursive s = Some false)
  /\ (exists b, GameScene.IsContain h (Some o) false s = Some b
                /\ (b = true <-> exists i, GameScene.IsLayerContain (Some o) i s = true))
  /\ (exists b, GameScene.IsContain h (Some o) true s = Some b
                /\ (b = true <->
                    (exists i, GameScene.IsLayerContain (Some o) i s = true)
                    \/ exists p i, GameScene.IsLayerContain (Some p) i s = true
                                   /\ child_of h o p)).
Proof.
  intros Hlive. split; [reflexivity |].
  destruct (IsContain_loop_spec h o (GameScene.__layers s) Hlive) as (Ef & b & Et & Hb).
  unfold GameScene.IsContain. split.
  - eexists. split; [exact Ef |].
    rewrite bool_decide_eq_true. apply elem_of_join_IsLayerContain.
  - exists b. split; [exact Et |]. rewrite Hb, elem_of_join_IsLayerContain. split.
    + intros [Ho | (p & Hp & Hc)]; [tauto |].
      apply elem_of_join_IsLayerContain in Hp as [i Hi]. right. eauto.
    + intros [Ho | (p & i & Hi & Hc)]; [tauto |].
      right. exists p. split; [|exact Hc]. apply elem_of_join_IsLayerContain. eauto.
Qed.

(** A scene holding the root of the chain 1 -> 2 -> 3: the grandchild is
    not found. *)
Lemma IsContain_one_level_witness :
  let h : heap :=
    <[1%positive := GameObject.with_childs [2%positive] GameObject.default]>
      (<[2%positive := GameObject.with_parent (Some 1%positive)
                         (GameObject.with_childs [3%positive] GameObject.default)]>
         (<[3%positive := GameObject.with_parent (Some 2%positive) GameObject.default]> ∅)) in
  let s := GameScene.mk [[1%positive]] in
  GameScene.IsContain h (Some 2%positive) true s = Some true
  /\ GameScene.IsContain h (Some 3%positive) true s = Some false
  /\ exists b, GameScene.IsContain h (Some 3%positive) true s = Some b
       /\ (b = true <->
           (exists i, GameScene.IsLayerContain (Some 3%positive) i s = true)
           \/ exists p i, GameScene.IsLayerContain (Some p) i s = true /\ child_of h 3 p).
Proof.
  intros h s. split; [reflexivity |]. split; [reflexivity |].
  assert (Hlive : Forall (fun p => is_Some (h !! p)) (mjoin (GameScene.__layers s))).
  { repeat constructor. eexists. reflexivity. }
  exact (proj2 (proj2 (IsContain_one_level h 3 s Hlive))).
Defined.

(** ** Engine_GameObject.h: destroying scenes *)

Section scene_destroy_facts.
Context `{UnorderedSetImpl}.

Lemma IsInitialized_true (g : SceneRegistry.t) :
  IsInitialized g = true
  <-> is_Some (SceneRegistry.__curr_scene g) /\ SceneRegistry.__created_scenes g <> [].
Proof.
  unfold IsInitialized. rewrite andb_true_iff, negb_true_iff.
  rewrite bool_decide_eq_true, bool_decide_eq_false. reflexivity.
Qed.

(** X29. Destroying a scene of an initialized scene subsystem keeps the
    subsystem initialized: the destroyed scene leaves the created set, and
    the current scene afterwards is a created scene other than the
    destroyed one (a newly constructed scene when the current scene itself
    is destroyed, the same scene as before otherwise). While the subsystem
    is being initialized or deinitialized, or is not initialized, the
    destructor leaves the static members alone. *)
Theorem GameScene_destroy_keeps_current_scene (this fresh : ptr) (g : SceneRegistry.t) :
  (SceneRegistry.__is_initialize g = true \/ IsInitialized g = false ->
   GameScene_destroy this fresh g = Returned g)
  /\ (SceneRegistry.__is_initialize g = false -> IsInitialized g = true ->
      (forall c, SceneRegistry.__curr_scene g = Some c ->
                 c ∈ SceneRegistry.__created_scenes g) ->
      fresh <> this ->
      exists g' c,
        GameScene_destroy this fresh g = Returned g'
        /\ IsInitialized g' = true
        /\ GetCurrentScene g' = Some c
        /\ c <> this
        /\ c ∈ SceneRegistry.__created_scenes g'
        /\ (this ∉ SceneRegistry.__created_scenes g')
        /\ c = (if decide (SceneRegistry.__curr_scene g = Some this)
                then fresh else default fresh (SceneRegistry.__curr_scene g))
        /\ (forall x, x <> this -> x ∈ SceneRegistry.__created_scenes g ->
                      x ∈ SceneRegistry.__created_scenes g')).
Proof.
  split.
  - unfold GameScene_destroy. intros [-> | ->]; [reflexivity |].
    rewrite andb_false_r. reflexivity.
  - intros Hflag Hinit Hcur Hfresh.
    pose proof Hinit as [[c0 Hc0] Hne]%IsInitialized_true.
    assert (Hfinish : forall g' c,
              SceneRegistry.__curr_scene g' = Some c -> c <> this ->
              c ∈ SceneRegistry.__created_scenes g' ->
              let g'' := SceneRegistry.with_created_scenes
                           (uset.erase this (SceneRegistry.__created_scenes g')) g' in
              IsInitialized g'' = true /\ GetCurrentScene g'' = Some c
              /\ c ∈ SceneRegistry.__created_scenes g''
              /\ (this ∉ SceneRegistry.__created_scenes g'')).
    { intros g' c Hc Hcne Hcin g''.
      assert (Hin : c ∈ SceneRegistry.__created_scenes g'').
      { simpl. apply elem_of_uset_erase. tauto. }
      assert (Hi : IsInitialized g'' = true).
      { apply IsInitialized_true. split; [simpl; rewrite Hc; eauto |].
        intros Hnil. rewrite Hnil in Hin. inversion Hin. }
      split; [exact Hi |]. split; [|split; [exact Hin |]].
      - unfold GetCurrentScene. rewrite Hi. simpl. exact Hc.
      - simpl. rewrite elem_of_uset_erase. tauto. }
    unfold GameScene_destroy. rewrite Hflag, Hinit. cbn [negb andb].
    destruct (bool_decide_reflect (SceneRegistry.__curr_scene g = Some this)) as [Hthis|Hother].
    + unfold GameScene_construct. rewrite Hflag, Hinit. cbn [negb andb].
      destruct (Hfinish (SceneRegistry.with_curr_scene (Some fresh)
                           (SceneRegistry.with_created_scenes
                              (uset.insert fresh (SceneRegistry.__created_scenes g)) g))
                        fresh) as (Hi & Hg & Hin & Hout).
      { reflexivity. }
      { exact Hfresh. }
      { simpl. apply elem_of_uset_insert. tauto. }
      eexists _, fresh. split; [reflexivity |]. split; [exact Hi |]. split; [exact Hg |].
      split; [exact Hfresh |]. split; [exact Hin |]. split; [exact Hout |]. split.
      * destruct (decide (SceneRegistry.__curr_scene g = Some this)); [reflexivity | contradiction].
      * intros x Hx Hxin. simpl. apply elem_of_uset_erase. split; [|exact Hx].
        apply elem_of_uset_insert. tauto.
    + assert (Hc0ne : c0 <> this) by congruence.
      destruct (Hfinish g c0 Hc0 Hc0ne (Hcur c0 Hc0)) as (Hi & Hg & Hin & Hout).
      eexists _, c0. split; [reflexivity |]. split; [exact Hi |]. split; [exact Hg |].
      split; [exact Hc0ne |]. split; [exact Hin |]. split; [exact Hout |]. split.
      * destruct (decide (SceneRegistry.__curr_scene g = Some this)); [contradiction |].
        rewrite Hc0. reflexivity.
      * intros x Hx Hxin. simpl. apply elem_of_uset_erase. tauto.
Qed.
End scene_destroy_facts.

(** The theorem after [Initialize], destroying the current scene. *)
Lemma GameScene_destroy_keeps_current_scene_witness :
  exists g' c,
    @GameScene_destroy front_impl 1 2 (snd (@Initialize front_impl 1 SceneRegistry.initial))
    = Returned g'
    /\ IsInitialized g' = true /\ GetCurrentScene g' = Some c /\ c <> 1%positive.
Proof.
  assert (Hcur : forall c,
            SceneRegistry.__curr_scene (snd (@Initialize front_impl 1 SceneRegistry.initial))
            = Some c ->
            c ∈ SceneRegistry.__created_scenes
                  (snd (@Initialize front_impl 1 SceneRegistry.initial))).
  { intros c [= <-]. left. }
  assert (Hfresh : 2%positive <> 1%positive) by discriminate.
  destruct (proj2 (@GameScene_destroy_keeps_current_scene front_impl 1 2
                     (snd (@Initialize front_impl 1 SceneRegistry.initial)))
              eq_refl eq_refl Hcur Hfresh) as (g' & c & E & Hi & Hg & Hne & _).
  exists g', c. auto.
Defined.

(** ** Engine.h: where a child is drawn and where it is clicked *)

Lemma LocalToGlobal_TopLeft_plain (px py pw ph cx cy cw ch : Z) :
  0 <= pw -> 0 <= ph -> 0 <= cw -> 0 <= ch ->
  Int.in_range (px + cx) -> Int.in_range (py + cy) ->
  Rectangle.LocalToGlobal (Rectangle.mk px py pw ph) (Rectangle.mk cx cy cw ch)
    RectangleAlignment.TopLeft
  = Rectangle.mk (px + cx) (py + cy) cw ch.
Proof.
  intros Hpw Hph Hcw Hch Hx Hy.
  unfold Rectangle.LocalToGlobal, Rectangle.LeftSide, Rectangle.TopSide, Int.abs, Int.add.
  cbn [Rectangle.X Rectangle.Y Rectangle.Width Rectangle.Height].
  destruct (pw <? 0) eqn:H1; [lia |]. destruct (ph <? 0) eqn:H2; [lia |].
  destruct (cw <? 0) eqn:H3; [lia |]. destruct (ch <? 0) eqn:H4; [lia |].
  rewrite !wrap_in_range by assumption. reflexivity.
Qed.

(** X30. A child is not clicked where it is drawn unless its parent sits
    at the origin. For an enabled, top-left aligned Game Object of the
    current scene with one enabled, top-left aligned child: the frame
    loop draws the child at the position of the parent plus the position
    of the child, but the mouse-down dispatch hands the child the mouse
    position relative to that drawn corner minus the position of the
    parent once more; the child's mouse-down hook runs exactly when this
    displaced position is inside the child's own rectangle. *)
Theorem child_click_area_displaced (h : heap) (r c : ptr) (or oc : GameObject.t)
    (ws : Size.t) (args : MouseButtonEventArgs.t) :
  h !! r = Some or -> h !! c = Some oc ->
  GameObject.__childs or = [c] -> GameObject.__childs oc = [] ->
  plain_object or -> plain_object oc ->
  0 <= Size.Width ws -> 0 <= Size.Height ws ->
  Rectangle.small_point (MouseButtonEventArgs.LocalPosition args) ->
  let drawn :=
    Rectangle.of_point_size
      (Point.mk (Point.X (GameObject.Position or) + Point.X (GameObject.Position oc))
                (Point.Y (GameObject.Position or) + Point.Y (GameObject.Position oc)))
      (GameObject.Size oc) in
  let received :=
    MouseButtonEventArgs.with_LocalPosition
      (Point.mk (Point.X (MouseButtonEventArgs.LocalPosition args) - Rectangle.X drawn
                 - Point.X (GameObject.Position or))
                (Point.Y (MouseButtonEventArgs.LocalPosition args) - Rectangle.Y drawn
                 - Point.Y (GameObject.Position or)))
      args in
  (exists updates before,
     frame_scene_object 2 h ws r
     = Some (updates, before ++ [GameObject_OnRender c (RenderEventArgs.mk drawn);
                                 RenderEvent_Call c (RenderEventArgs.mk drawn)]))
  /\ (exists trace,
        mouse_down_scene_object 2 h ws args r = Some trace
        /\ GameObject_OnGlobalMouseDown c received ∈ trace
        /\ (GameObject_OnMouseDown c received ∈ trace
            <-> Rectangle.IsContain
                  (Rectangle.of_point_size Point.Zero (GameObject.Size oc))
                  (MouseButtonEventArgs.LocalPosition received) = true)).
Proof.
  intros Hr Hc Hkids Hleaf (Er & Ir & Ar & Sr & Wr & Hhr) (Ec & Ic & Ac & Sc & Wc & Hhc)
    Hw Hh Hm drawn received. subst drawn received.
  assert (Hrc : r <> c).
  { intros ->. rewrite Hr in Hc. injection Hc as ->. rewrite Hkids in Hleaf. discriminate. }
  destruct or as [pr kr sr er ir [rx ry] [rw rh] ar].
  destruct oc as [pc kc sc ec ic [cx cy] [cw ch] ac].
  destruct ws as [ww wh]. destruct args as [[mx my] bt cl de ue ip irl].
  unfold Rectangle.small_rect, Rectangle.small_point, Rectangle.small in *.
  simpl in Er, Ir, Ar, Sr, Wr, Hhr, Ec, Ic, Ac, Sc, Wc, Hhc, Hw, Hh, Hm, Hkids, Hleaf.
  subst.
  assert (Hroot : Rectangle.LocalToGlobal (Rectangle.mk 0 0 ww wh) (Rectangle.mk rx ry rw rh)
                    RectangleAlignment.TopLeft = Rectangle.mk rx ry rw rh).
  { rewrite LocalToGlobal_TopLeft_plain;
      first [reflexivity | lia | unfold Int.in_range, Int.half_modulus; lia]. }
  assert (Hchild : Rectangle.LocalToGlobal (Rectangle.mk rx ry rw rh) (Rectangle.mk cx cy cw ch)
                     RectangleAlignment.TopLeft = Rectangle.mk (rx + cx) (ry + cy) cw ch).
  { rewrite LocalToGlobal_TopLeft_plain;
      first [reflexivity | lia | unfold Int.in_range, Int.half_modulus; lia]. }
  split.
  - unfold frame_scene_object. rewrite Hr.
    cbn [mbind option_bind GameObject.Enabled negb].
    assert (Hupd : is_Some (RaiseUpdateEvent 2 h r true)).
    { cbn [RaiseUpdateEvent]. rewrite Hr.
      cbn [mbind option_bind negb GameObject.__childs mapM]. rewrite Hc.
      cbn [mbind option_bind negb GameObject.__childs mapM mret option_ret]. eauto. }
    destruct Hupd as [updates ->]. cbn [mbind option_bind].
    cbn [RaiseRenderEvent]. rewrite Hr.
    cbn [mbind option_bind negb GameObject.__childs mapM GameObject.Enabled default
         from_option id GameObject.GetArea GameObject.Position GameObject.Size
         GameObject.Alignment Rectangle.of_point_size Point.Zero Point.X Point.Y
         Size.Width Size.Height RenderEventArgs.TargetArea].
    rewrite Hc.
    cbn [mbind option_bind negb GameObject.__childs mapM GameObject.Enabled default
         from_option id GameObject.GetArea GameObject.Position GameObject.Size
         GameObject.Alignment Rectangle.of_point_size Point.Zero Point.X Point.Y
         Size.Width Size.Height RenderEventArgs.TargetArea mret option_ret].
    unfold GameObject.GetArea, Rectangle.of_point_size, Point.Zero.
    cbn [GameObject.Position GameObject.Size Point.X Point.Y Size.Width Size.Height].
    rewrite Hroot, Hchild. cbn [concat app].
    eexists _, [_; _]. reflexivity.
  - unfold mouse_down_scene_object. rewrite Hr.
    cbn [mbind option_bind GameObject.Enabled GameObject.HandleInput negb orb].
    unfold GameObject.GetArea, Rectangle.of_point_size, Point.Zero.
    cbn [GameObject.Position GameObject.Size GameObject.Alignment
         Point.X Point.Y Size.Width Size.Height].
    rewrite Hroot.
    cbn [RaiseMouseDownEvent]. rewrite Hr.
    cbn [mbind option_bind negb GameObject.__childs mapM]. rewrite Hc.
    cbn [mbind option_bind negb orb GameObject.__childs mapM GameObject.Enabled
         GameObject.HandleInput default from_option id mret option_ret].
    unfold GameObject.GetArea, Rectangle.of_point_size, Point.Zero.
    cbn [GameObject.Position GameObject.Size GameObject.Alignment
         Point.X Point.Y Size.Width Size.Height].
    rewrite Hchild.
    unfold MouseButtonEventArgs.with_LocalPosition, Point.sub_assign, Rectangle.TopLeft,
      Rectangle.LeftSide, Rectangle.TopSide, Int.sub.
    cbn [MouseButtonEventArgs.LocalPosition MouseButtonEventArgs.Button
         MouseButtonEventArgs.Clicks MouseButtonEventArgs.IsDownEvent
         MouseButtonEventArgs.IsUpEvent MouseButtonEventArgs.IsPressed
         MouseButtonEventArgs.IsReleased Point.X Point.Y
         Rectangle.X Rectangle.Y Rectangle.Width Rectangle.Height].
    destruct (rw <? 0) eqn:H1; [lia |]. destruct (rh <? 0) eqn:H2; [lia |].
    destruct (cw <? 0) eqn:H3; [lia |]. destruct (ch <? 0) eqn:H4; [lia |].
    unwrap.
    replace (mx - rx - (rx + cx)) with (mx - (rx + cx) - rx) by lia.
    replace (my - ry - (ry + cy)) with (my - (ry + cy) - ry) by lia.
    eexists. split; [reflexivity |].
    set (hit_r := Rectangle.IsContain _ {| Point.X := mx - rx; Point.Y := my - ry |}).
    destruct hit_r; destruct (Rectangle.IsContain _ _) eqn:Hhit; cbn [concat app];
      (split; [rewrite !elem_of_cons; auto 10 |]);
      (split; [intros Hin | intros Heq; first [discriminate Heq | rewrite !elem_of_cons; auto 10]]);
      first [reflexivity
            | repeat (apply elem_of_cons in Hin as [Heq|Hin];
                      [first [discriminate Heq | injection Heq; intros; congruence] |]);
              inversion Hin].
Qed.

(** A parent at (30, 40) with a child at (10, 10): a click on the pixel
    (40, 50), where the corner of the child is drawn, reaches the child as
    (-30, -40). *)
Lemma child_click_area_displaced_witness :
  let o1 := GameObject.with_childs [2%positive]
              (GameObject.with_Size (Size.mk 100 100)
                 (GameObject.with_Position (Point.mk 30 40) GameObject.default)) in
  let o2 := GameObject.with_parent (Some 1%positive)
              (GameObject.with_Size (Size.mk 20 20)
                 (GameObject.with_Position (Point.mk 10 10) GameObject.default)) in
  let h : heap := <[1%positive := o1]> (<[2%positive := o2]> ∅) in
  let click := MouseButtonEventArgs.with_LocalPosition (Point.mk 40 50)
                 MouseButtonEventArgs.default in
  exists trace,
    mouse_down_scene_object 2 h (Size.mk 800 600) click 1 = Some trace
    /\ GameObject_OnGlobalMouseDown 2
         (MouseButtonEventArgs.with_LocalPosition (Point.mk (-30) (-40))
            MouseButtonEventArgs.default) ∈ trace.
Proof.
  intros o1 o2 h click.
  assert (H1 : h !! 1%positive = Some o1) by reflexivity.
  assert (H2 : h !! 2%positive = Some o2) by reflexivity.
  assert (P1 : plain_object o1).
  { unfold plain_object, Rectangle.small_rect, Rectangle.small. simpl.
    repeat split; first [reflexivity | lia]. }
  assert (P2 : plain_object o2).
  { unfold plain_object, Rectangle.small_rect, Rectangle.small. simpl.
    repeat split; first [reflexivity | lia]. }
  assert (Hw : 0 <= Size.Width (Size.mk 800 600)) by (simpl; lia).
  assert (Hh : 0 <= Size.Height (Size.mk 800 600)) by (simpl; lia).
  assert (Hm : Rectangle.small_point (MouseButtonEventArgs.LocalPosition click)).
  { unfold Rectangle.small_point, Rectangle.small. simpl. lia. }
  destruct (proj2 (child_click_area_displaced h 1 2 o1 o2 (Size.mk 800 600) click
                     H1 H2 eq_refl eq_refl P1 P2 Hw Hh Hm)) as (trace & E & Hin & _).
  exists trace. split; [exact E | exact Hin].
Defined.
